(** * Brandes-Koepf horizontal coordinate assignment (src/position/bk.js)

    A shallow embedding of the module [bk.js] of dagre and the properties
    its specification states about it.

    Conventions of the embedding.
    - JavaScript numbers are exact rationals ([Q]); an [order] or an index
      is an integer ([Z]).  Rounding of binary floating point is not modelled.
    - A vertex id is a [string]; [v > w] on ids is the lexicographic order
      of [String.compare].
    - A plain JavaScript object that the code iterates ([align], the
      coordinate maps, the four alignments) is an insertion-ordered
      association list ([Obj]); the conflict store and the visit marks, which
      are only looked up, are [gmap]s.  Ids are taken not to be array indices
      or names such as [length] that change the enumeration of an object.
    - [g.node(v)] of an id without a label is [undefined]; reading a field
      of it raises a TypeError, which the embedding returns as [Throw
      TypeError].  Where the source would go on computing with [undefined]
      or [NaN] values the embedding stops with [Throw Undefined].
    - graphlib's [Graph] objects live in a store ([Heap]); a handle is an
      index into it.  Functions that only read a graph take its value. *)

From Stdlib Require Import ZArith QArith Qminmax Lqa String Ascii List Bool Lia.
From stdpp Require Import base tactics option list sorting gmap strings.

Set Default Proof Using "Type".

(** ** JavaScript values used as attributes *)

Inductive attr : Type :=
  | AUndef
  | ABool (b : bool)
  | AStr (s : string).

Global Instance attr_eq_dec : EqDecision attr.
Proof. solve_decision. Defined.

(** Truthiness of [ToBoolean]: [undefined], [false] and the empty string are
    false. *)
Definition truthy (a : attr) : bool :=
  match a with
  | AUndef => false
  | ABool b => b
  | AStr s => negb (String.eqb s "")
  end.

(** A variable that holds a vertex id or [undefined], tested as [if (u)]. *)
Definition truthyId (u : option string) : bool :=
  match u with
  | Some s => negb (String.eqb s "")
  | None => false
  end.

(** [if (delta)] on a number: zero is false. *)
Definition truthyNum (q : Q) : bool := negb (Qeq_bool q 0).

Definition lowerAscii (c : ascii) : ascii :=
  let n := nat_of_ascii c in
  if (65 <=? n) && (n <=? 90) then ascii_of_nat (n + 32) else c.

Fixpoint toLowerCase (s : string) : string :=
  match s with
  | EmptyString => EmptyString
  | String c s' => String (lowerAscii c) (toLowerCase s')
  end.

(** ** Errors *)

Inductive err : Type := TypeError | Undefined | OutOfFuel.

Inductive res (A : Type) : Type :=
  | Ok (a : A)
  | Throw (e : err).
Arguments Ok {A} a.
Arguments Throw {A} e.

Global Instance res_ret : MRet res := fun _ a => Ok a.
Global Instance res_bind : MBind res := fun _ _ k m =>
  match m with
  | Ok a => k a
  | Throw e => Throw e
  end.

(** [_.forEach] and [_.reduce] over an array with a body that may throw. *)
Fixpoint foldM {A B} (f : B → A → res B) (l : list A) (b : B) : res B :=
  match l with
  | [] => Ok b
  | a :: l' => b' ← f b a; foldM f l' b'
  end.

Definition ofOption {A} (e : err) (o : option A) : res A :=
  match o with
  | Some a => Ok a
  | None => Throw e
  end.

(** ** Insertion-ordered objects *)

Definition Obj (A : Type) : Type := list (string * A).

Fixpoint oget {A} (o : Obj A) (k : string) : option A :=
  match o with
  | [] => None
  | (k', a) :: o' => if String.eqb k' k then Some a else oget o' k
  end.

(** [o[k] = a]: an existing key keeps its place, a new key goes last. *)
Fixpoint oset {A} (o : Obj A) (k : string) (a : A) : Obj A :=
  match o with
  | [] => [(k, a)]
  | (k', a') :: o' =>
      if String.eqb k' k then (k', a) :: o' else (k', a') :: oset o' k a
  end.

Definition ohas {A} (o : Obj A) (k : string) : bool :=
  match oget o k with Some _ => true | None => false end.

Definition okeys {A} (o : Obj A) : list string := map fst o.
Definition ovalues {A} (o : Obj A) : list A := map snd o.

(** [_.mapValues(o, f)] with [f(value, key)]. *)
Definition omapValues {A B} (f : A → string → B) (o : Obj A) : Obj B :=
  map (fun kv => (fst kv, f (snd kv) (fst kv))) o.

(** ** graphlib graphs *)

(** The fields of a node label and of the graph label that bk.js reads.
    [labelpos] and [borderType] are a string or absent. *)
Module Label.
Record t : Type := mk {
  rank : Z;
  order : Z;
  width : Q;
  dummy : attr;
  labelpos : option string;
  borderType : option string
}.
End Label.

Module GLabel.
Record t : Type := mk {
  nodesep : Q;
  edgesep : Q;
  align : attr
}.
End GLabel.

Abbreviation NodeLabel := Label.t.
Abbreviation GraphLabel := GLabel.t.

(** A directed graph without parallel edges.  A node set by [setNode(v)]
    alone has the label [undefined] ([None]); so has an edge set without a
    value.  Nodes and edges are kept in insertion order, which is the order
    of [nodes()], [inEdges], [outEdges], [predecessors] and [successors]. *)
Record Graph : Type := mkGraph {
  glabel : option GraphLabel;
  gnodes : Obj (option NodeLabel);
  gedges : list (string * string * option Q)
}.

Definition newGraph : Graph := mkGraph None [] [].

Definition nodes (g : Graph) : list string := okeys (gnodes g).

Definition hasNode (g : Graph) (v : string) : bool := ohas (gnodes g) v.

(** [g.node(v)] followed by a field access. *)
Definition node (g : Graph) (v : string) : res NodeLabel :=
  match oget (gnodes g) v with
  | Some (Some l) => Ok l
  | _ => Throw TypeError
  end.

(** [g.graph()] followed by a field access. *)
Definition graph (g : Graph) : res GraphLabel := ofOption TypeError (glabel g).

(** [g.setNode(v)] with one argument: an existing node is left as it is. *)
Definition setNode (g : Graph) (v : string) : Graph :=
  if hasNode g v then g
  else mkGraph (glabel g) (gnodes g ++ [(v, None)]) (gedges g).

Definition isEdge (v w : string) (e : string * string * option Q) : bool :=
  String.eqb e.1.1 v && String.eqb e.1.2 w.

(** [g.edge(v, w)]: the label of the edge, [undefined] without one. *)
Definition edge (g : Graph) (v w : string) : option Q :=
  match List.find (isEdge v w) (gedges g) with
  | Some e => e.2
  | None => None
  end.

Fixpoint setEdgeLabel (es : list (string * string * option Q))
    (v w : string) (x : Q) : list (string * string * option Q) :=
  match es with
  | [] => [(v, w, Some x)]
  | e :: es' =>
      if isEdge v w e then (v, w, Some x) :: es'
      else e :: setEdgeLabel es' v w x
  end.

(** [g.setEdge(v, w, x)]: both endpoints become nodes; an existing edge
    only changes its label. *)
Definition setEdge (g : Graph) (v w : string) (x : Q) : Graph :=
  let g' := setNode (setNode g v) w in
  mkGraph (glabel g') (gnodes g') (setEdgeLabel (gedges g') v w x).

(** [g.inEdges(v)] and [g.outEdges(v)]; iterating the [undefined] that a
    missing node gives visits nothing. *)
Definition inEdges (g : Graph) (v : string) : list (string * string * option Q) :=
  if hasNode g v then filter (fun e => String.eqb e.1.2 v = true) (gedges g) else [].

Definition outEdges (g : Graph) (v : string) : list (string * string * option Q) :=
  if hasNode g v then filter (fun e => String.eqb e.1.1 v = true) (gedges g) else [].

Definition predecessors (g : Graph) (v : string) : list string :=
  map (fun e => e.1.1) (inEdges g v).

Definition successors (g : Graph) (v : string) : list string :=
  map (fun e => e.1.2) (outEdges g v).

(** ** The separation function (bk.js, [sep] and [width]) *)

Definition num (z : Z) : Q := inject_Z z.

(** The [switch] on the lower-cased [labelpos]: [dl] for ['l'], [dr] for
    ['r'], and [delta] left as it was otherwise. *)
Definition labelposDelta (l : NodeLabel) (dl dr : Q) : option Q :=
  match Label.labelpos l with
  | Some s =>
      let s' := toLowerCase s in
      if String.eqb s' "l" then Some dl
      else if String.eqb s' "r" then Some dr
      else None
  | None => None
  end.

(** [if (delta) sum += reverseSep ? delta : -delta]. *)
Definition addDelta (reverseSep : bool) (delta : option Q) (sum : Q) : Q :=
  match delta with
  | Some d =>
      if truthyNum d then (sum + (if reverseSep then d else - d))%Q else sum
  | None => sum
  end.

Definition sep (nodeSep edgeSep : Q) (reverseSep : bool)
    (g : Graph) (v w : string) : res Q :=
  vLabel ← node g v;
  wLabel ← node g w;
  let sum := 0%Q in
  let sum := (sum + Label.width vLabel / 2)%Q in
  let delta := labelposDelta vLabel (- Label.width vLabel / 2)%Q (Label.width vLabel / 2)%Q in
  let sum := addDelta reverseSep delta sum in
  let sum := (sum + (if truthy (Label.dummy vLabel) then edgeSep else nodeSep) / 2)%Q in
  let sum := (sum + (if truthy (Label.dummy wLabel) then edgeSep else nodeSep) / 2)%Q in
  let sum := (sum + Label.width wLabel / 2)%Q in
  let delta := labelposDelta wLabel (Label.width wLabel / 2)%Q (- Label.width wLabel / 2)%Q in
  let sum := addDelta reverseSep delta sum in
  Ok sum.

Definition width (g : Graph) (v : string) : res Q :=
  l ← node g v; Ok (Label.width l).

(** ** The conflict store (bk.js, [addConflict] and [hasConflict]) *)

(** [v > w] on ids. *)
Definition idGt (v w : string) : bool := String.ltb w v.

Definition addConflict (conflicts : gmap string (gset string)) (v w : string)
    : gmap string (gset string) :=
  let '(v, w) := if idGt v w then (w, v) else (v, w) in
  let conflictsV := default ∅ (conflicts !! v) in
  <[v := {[w]} ∪ conflictsV]> conflicts.

Definition hasConflict (conflicts : gmap string (gset string)) (v w : string)
    : bool :=
  let '(v, w) := if idGt v w then (w, v) else (v, w) in
  match conflicts !! v with
  | Some conflictsV => bool_decide (w ∈ conflictsV)
  | None => false
  end.

(** ** Type-1 conflicts (bk.js, [findType1Conflicts]) *)

(** [_.find] with a predicate that may throw. *)
Fixpoint findM {A} (p : A → res bool) (l : list A) : res (option A) :=
  match l with
  | [] => Ok None
  | a :: l' => b ← p a; if b : bool then Ok (Some a) else findM p l'
  end.

Definition findOtherInnerSegmentNode (g : Graph) (v : string)
    : res (option string) :=
  vLabel ← node g v;
  if truthy (Label.dummy vLabel) then
    findM (fun u => uLabel ← node g u; Ok (truthy (Label.dummy uLabel)))
          (predecessors g v)
  else Ok None.

(** [array.slice(from, to)]. *)
Definition slice {A} (l : list A) (from to : nat) : list A :=
  take (to - from) (drop from l).

(** [_.forEach(array, function (value, index) ...)]: the elements with
    their indices. *)
Definition indexed {A} (l : list A) : list (nat * A) :=
  zip (seq 0 (length l)) l.

(** [_.reduce(layering, visitLayer)] without an initial value, for a
    [visitLayer] that returns its second argument: the body runs on each
    pair of consecutive layers, and not at all on fewer than two layers. *)
Fixpoint reduceLayers {S} (f : S → list string → list string → res S)
    (prev : list string) (rest : list (list string)) (s : S) : res S :=
  match rest with
  | [] => Ok s
  | layer :: rest' => s' ← f s prev layer; reduceLayers f layer rest' s'
  end.

Definition reduceLayering {S} (f : S → list string → list string → res S)
    (layering : list (list string)) (s : S) : res S :=
  match layering with
  | [] => Ok s
  | first :: rest => reduceLayers f first rest s
  end.

(** The innermost body: one predecessor [u] of one scanned node. *)
Definition type1Mark (g : Graph) (k0 k1 : Z) (scanNode : string)
    (conflicts : gmap string (gset string)) (u : string)
    : res (gmap string (gset string)) :=
  uLabel ← node g u;
  let uPos := Label.order uLabel in
  if bool_decide (uPos < k0)%Z || bool_decide (k1 < uPos)%Z then
    if truthy (Label.dummy uLabel) then
      sLabel ← node g scanNode;
      if truthy (Label.dummy sLabel) then Ok conflicts
      else Ok (addConflict conflicts u scanNode)
    else Ok (addConflict conflicts u scanNode)
  else Ok conflicts.

Definition type1Scan (g : Graph) (k0 k1 : Z) (scanned : list string)
    (conflicts : gmap string (gset string)) : res (gmap string (gset string)) :=
  foldM (fun c scanNode => foldM (type1Mark g k0 k1 scanNode) (predecessors g scanNode) c)
        scanned conflicts.

(** The state of one [visitLayer]: [k0], [scanPos] and the conflicts
    marked so far. *)
Definition type1Step (g : Graph) (prevLayer layer : list string)
    (st : Z * nat * gmap string (gset string)) (iv : nat * string)
    : res (Z * nat * gmap string (gset string)) :=
  let '(k0, scanPos, conflicts) := st in
  let '(i, v) := iv in
  let prevLayerLength := Z.of_nat (length prevLayer) in
  let lastNode := last layer in
  w ← findOtherInnerSegmentNode g v;
  k1 ← match w with
       | Some w' =>
           if truthyId w then wLabel ← node g w'; Ok (Label.order wLabel)
           else Ok prevLayerLength
       | None => Ok prevLayerLength
       end;
  if truthyId w || bool_decide (Some v = lastNode) then
    conflicts' ← type1Scan g k0 k1 (slice layer scanPos (i + 1)) conflicts;
    Ok (k1, (i + 1)%nat, conflicts')
  else Ok st.

Definition type1VisitLayer (g : Graph) (conflicts : gmap string (gset string))
    (prevLayer layer : list string) : res (gmap string (gset string)) :=
  st ← foldM (type1Step g prevLayer layer) (indexed layer) (0%Z, 0%nat, conflicts);
  Ok st.2.

Definition findType1Conflicts (g : Graph) (layering : list (list string))
    : res (gmap string (gset string)) :=
  reduceLayering (type1VisitLayer g) layering ∅.

(** ** Type-2 conflicts (bk.js, [findType2Conflicts]) *)

(** [_.range(start, end)]: ascending, or descending when [end < start]. *)
Definition range (start stop : nat) : list nat :=
  if (start <=? stop)%nat then seq start (stop - start)
  else rev (seq (stop + 1) (start - stop)).

(** A comparison with a bound that may be [undefined] is false. *)
Definition ltBound (x : Z) (b : option Z) : bool :=
  match b with Some y => bool_decide (x < y)%Z | None => false end.

Definition type2Mark (g : Graph) (prevNorthBorder : option Z) (nextNorthBorder : Z)
    (v : string) (conflicts : gmap string (gset string)) (u : string)
    : res (gmap string (gset string)) :=
  uNode ← node g u;
  if truthy (Label.dummy uNode)
     && (ltBound (Label.order uNode) prevNorthBorder
         || bool_decide (nextNorthBorder < Label.order uNode)%Z)
  then Ok (addConflict conflicts u v)
  else Ok conflicts.

Definition scan (g : Graph) (south : list string) (southPos southEnd : nat)
    (prevNorthBorder : option Z) (nextNorthBorder : Z)
    (conflicts : gmap string (gset string)) : res (gmap string (gset string)) :=
  foldM (fun c i =>
           v ← ofOption TypeError (south !! i);
           vLabel ← node g v;
           if truthy (Label.dummy vLabel) then
             foldM (type2Mark g prevNorthBorder nextNorthBorder v) (predecessors g v) c
           else Ok c)
        (range southPos southEnd) conflicts.

(** The state of one [visitLayer]: [prevNorthPos], [nextNorthPos],
    [southPos] and the conflicts marked so far. *)
Definition type2Step (g : Graph) (north south : list string)
    (st : Z * option Z * nat * gmap string (gset string)) (iv : nat * string)
    : res (Z * option Z * nat * gmap string (gset string)) :=
  let '(prevNorthPos, nextNorthPos, southPos, conflicts) := st in
  let '(southLookahead, v) := iv in
  vLabel ← node g v;
  '(prevNorthPos, nextNorthPos, southPos, conflicts) ←
    (if bool_decide (Label.dummy vLabel = AStr "border") then
       match predecessors g v with
       | p :: _ =>
           pLabel ← node g p;
           let nextNorthPos := Label.order pLabel in
           conflicts ← scan g south southPos southLookahead
                            (Some prevNorthPos) nextNorthPos conflicts;
           Ok (nextNorthPos, Some nextNorthPos, southLookahead, conflicts)
       | [] => Ok st
       end
     else Ok st);
  conflicts ← scan g south southPos (length south) nextNorthPos
                   (Z.of_nat (length north)) conflicts;
  Ok (prevNorthPos, nextNorthPos, southPos, conflicts).

Definition type2VisitLayer (g : Graph) (conflicts : gmap string (gset string))
    (north south : list string) : res (gmap string (gset string)) :=
  st ← foldM (type2Step g north south) (indexed south) ((-1)%Z, None, 0%nat, conflicts);
  Ok st.2.

Definition findType2Conflicts (g : Graph) (layering : list (list string))
    : res (gmap string (gset string)) :=
  reduceLayering (type2VisitLayer g) layering ∅.

(** ** Vertical alignment (bk.js, [verticalAlignment]) *)

(** The first loop: [root[v] = v], [align[v] = v], [pos[v] = order]. *)
Definition initStep (st : Obj string * Obj string * Obj Z) (ov : nat * string)
    : Obj string * Obj string * Obj Z :=
  let '(root, align, pos) := st in
  let '(order, v) := ov in
  (oset root v v, oset align v v, oset pos v (Z.of_nat order)).

Definition initBlocks (layering : list (list string))
    : Obj string * Obj string * Obj Z :=
  fold_left (fun st layer => fold_left initStep (indexed layer) st)
            layering ([], [], []).

(** The order of [_.sortBy] on keys that are a number or [undefined]:
    numbers ascending, then the elements without a key. *)
Definition keyLe (a b : option Z) : bool :=
  match a, b with
  | Some x, Some y => bool_decide (x ≤ y)%Z
  | Some _, None => true
  | None, Some _ => false
  | None, None => true
  end.

Fixpoint insertBy {A} (le : A → A → bool) (x : A) (l : list A) : list A :=
  match l with
  | [] => [x]
  | y :: l' => if le x y then x :: y :: l' else y :: insertBy le x l'
  end.

(** [_.sortBy] is a stable sort. *)
Definition sortBy {A} (le : A → A → bool) (l : list A) : list A :=
  foldr (insertBy le) [] l.

(** The candidates [ws[i]] for [i] from [floor(mp)] to [ceil(mp)], with
    [mp = (ws.length - 1) / 2]. *)
Definition medians (ws : list string) : list string :=
  let n := length ws in
  slice ws ((n - 1) / 2) (n / 2 + 1).

(** The body of the [for] loop over the medians.  [pos[w]] and [root[w]]
    are set together by the first loop, so [root[w]] is there whenever the
    test on [pos[w]] passes. *)
Definition alignWith (conflicts : gmap string (gset string)) (pos : Obj Z)
    (v : string) (st : Obj string * Obj string * Z) (w : string)
    : Obj string * Obj string * Z :=
  let '(root, align, prevIdx) := st in
  match oget pos w, oget root w with
  | Some posW, Some rootW =>
      if bool_decide (oget align v = Some v)
         && bool_decide (prevIdx < posW)%Z
         && negb (hasConflict conflicts v w)
      then (oset root v rootW, oset (oset align w v) v rootW, posW)
      else st
  | _, _ => st
  end.

Definition alignVertex (conflicts : gmap string (gset string))
    (neighborFn : string → list string) (pos : Obj Z)
    (st : Obj string * Obj string * Z) (v : string)
    : Obj string * Obj string * Z :=
  let ws := neighborFn v in
  if (0 <? length ws)%nat then
    let ws := sortBy (fun a b => keyLe (oget pos a) (oget pos b)) ws in
    fold_left (alignWith conflicts pos v) (medians ws) st
  else st.

Definition alignLayer (conflicts : gmap string (gset string))
    (neighborFn : string → list string) (pos : Obj Z)
    (ra : Obj string * Obj string) (layer : list string)
    : Obj string * Obj string :=
  (fold_left (alignVertex conflicts neighborFn pos) layer (ra.1, ra.2, (-1)%Z)).1.

(** The result is the pair [(root, align)]. *)
Definition verticalAlignment (g : Graph) (layering : list (list string))
    (conflicts : gmap string (gset string)) (neighborFn : string → list string)
    : Obj string * Obj string :=
  let '(root, align, pos) := initBlocks layering in
  fold_left (alignLayer conflicts neighborFn pos) layering (root, align).

(** ** The store of graphs *)

Abbreviation Heap := (list Graph).

Definition M (A : Type) : Type := Heap → res A * Heap.

Global Instance M_ret : MRet M := fun _ a σ => (Ok a, σ).
Global Instance M_bind : MBind M := fun _ _ k m σ =>
  match m σ with
  | (Ok a, σ') => k a σ'
  | (Throw e, σ') => (Throw e, σ')
  end.

Definition liftR {A} (r : res A) : M A := fun σ => (r, σ).

(** [new Graph()]: a fresh handle. *)
Definition allocGraph : M nat := fun σ => (Ok (length σ), σ ++ [newGraph]).

Definition readGraph (h : nat) : M Graph :=
  fun σ => (ofOption TypeError (σ !! h), σ).

Definition updGraph (h : nat) (f : Graph → Graph) : M unit :=
  fun σ => (Ok (), alter f h σ).

Fixpoint foldH {A B} (f : B → A → M B) (l : list A) (b : B) : M B :=
  match l with
  | [] => mret b
  | a :: l' => b' ← f b a; foldH f l' b'
  end.

(** ** The block graph (bk.js, [buildBlockGraph]) *)

(** [prevMax || 0]. *)
Definition orZero (x : option Q) : Q :=
  match x with
  | Some q => if truthyNum q then q else 0%Q
  | None => 0%Q
  end.

(** The body of the inner loop; [u] is the vertex seen before [v] on the
    layer, and the result is the new [u]. *)
Definition blockStep (g blockGraph : nat) (root : Obj string)
    (sepFn : Graph → string → string → res Q)
    (u : option string) (v : string) : M (option string) :=
  vRoot ← liftR (ofOption Undefined (oget root v));
  updGraph blockGraph (fun b => setNode b vRoot);;
  match u with
  | Some u' =>
      if truthyId u then
        uRoot ← liftR (ofOption Undefined (oget root u'));
        B ← readGraph blockGraph;
        let prevMax := edge B uRoot vRoot in
        G ← readGraph g;
        s ← liftR (sepFn G v u');
        updGraph blockGraph (fun b => setEdge b uRoot vRoot (Qmax s (orZero prevMax)))
      else mret ()
  | None => mret ()
  end;;
  mret (Some v).

Definition buildBlockGraph (g : nat) (layering : list (list string))
    (root : Obj string) (reverseSep : bool) : M nat :=
  blockGraph ← allocGraph;
  G ← readGraph g;
  graphLabel ← liftR (graph G);
  let sepFn := sep (GLabel.nodesep graphLabel) (GLabel.edgesep graphLabel) reverseSep in
  foldH (fun (_ : unit) layer =>
           foldH (blockStep g blockGraph root sepFn) layer None;; mret ())
        layering ();;
  mret blockGraph.

(** ** Horizontal compaction (bk.js, [horizontalCompaction]) *)

(** The state of both sweeps: the [visited] marks ([true] counts as 1, as
    [visited[v]++] reads it) and the coordinates [xs]. *)
Definition sweep : Type := gmap string nat * Obj Q.

(** The callback of the [_.reduce] of [pass1] over the in-edges of a node;
    [visit] is the recursive call. *)
Definition pass1Edge (visit : string → sweep → res sweep) (blockG : Graph)
    (acc : sweep * Q) (e : string * string * option Q) : res (sweep * Q) :=
  st ← visit e.1.1 acc.1;
  x ← ofOption Undefined (oget st.2 e.1.1);
  w ← ofOption Undefined (edge blockG e.1.1 e.1.2);
  Ok (st, Qmax acc.2 (x + w)%Q).

(** First sweep.  The recursion of the source is bounded by the number of
    nodes that are not yet marked; [fuel] makes it structural. *)
Fixpoint pass1 (fuel : nat) (blockG : Graph) (v : string) (st : sweep)
    : res sweep :=
  match fuel with
  | O => Throw OutOfFuel
  | S fuel' =>
      if bool_decide (is_Some (st.1 !! v)) then Ok st
      else
        let st := (<[v := 1%nat]> st.1, st.2) in
        '(st, max) ← foldM (pass1Edge (pass1 fuel' blockG) blockG)
                           (inEdges blockG v) (st, 0%Q);
        Ok (st.1, oset st.2 v max)
  end.

(** [Math.min(min, x)] with [min] starting at [Number.POSITIVE_INFINITY]
    ([None]). *)
Definition minInf (min : option Q) (x : Q) : option Q :=
  match min with
  | Some m => Some (Qmin m x)
  | None => Some x
  end.

(** The callback of the [_.reduce] of [pass2] over the out-edges. *)
Definition pass2Edge (visit : string → sweep → res sweep) (blockG : Graph)
    (acc : sweep * option Q) (e : string * string * option Q)
    : res (sweep * option Q) :=
  st ← visit e.1.2 acc.1;
  x ← ofOption Undefined (oget st.2 e.1.2);
  w ← ofOption Undefined (edge blockG e.1.1 e.1.2);
  Ok (st, minInf acc.2 (x - w)%Q).

(** Second sweep. *)
Fixpoint pass2 (fuel : nat) (g blockG : Graph) (borderType : string)
    (v : string) (st : sweep) : res sweep :=
  match fuel with
  | O => Throw OutOfFuel
  | S fuel' =>
      if bool_decide (st.1 !! v = Some 2%nat) then Ok st
      else
        n ← ofOption Undefined (st.1 !! v);
        let st := (<[v := S n]> st.1, st.2) in
        '(st, min) ← foldM (pass2Edge (pass2 fuel' g blockG borderType) blockG)
                           (outEdges blockG v) (st, None);
        match min with
        | Some m =>
            nd ← node g v;
            if bool_decide (Label.borderType nd ≠ Some borderType) then
              x ← ofOption Undefined (oget st.2 v);
              Ok (st.1, oset st.2 v (Qmax x m))
            else Ok st
        | None => Ok st
        end
  end.

(** [_.forEach(align, function (v) { xs[v] = xs[root[v]] })]. *)
Definition assignStep (root : Obj string) (xs : Obj Q) (v : string)
    : res (Obj Q) :=
  r ← ofOption Undefined (oget root v);
  x ← ofOption Undefined (oget xs r);
  Ok (oset xs v x).

Definition assignAll (root align : Obj string) (xs : Obj Q) : res (Obj Q) :=
  foldM (assignStep root) (ovalues align) xs.

(** [_.forEach(blockG.nodes(), pass1)] and [_.forEach(blockG.nodes(),
    pass2)]. *)
Definition firstSweep (blockG : Graph) : res sweep :=
  let fuel := S (length (nodes blockG)) in
  foldM (fun st v => pass1 fuel blockG v st) (nodes blockG) (∅, []).

Definition secondSweep (g blockG : Graph) (reverseSep : bool) (st : sweep)
    : res sweep :=
  let fuel := S (length (nodes blockG)) in
  let borderType := if reverseSep then "borderLeft" else "borderRight" in
  foldM (fun st v => pass2 fuel g blockG borderType v st) (nodes blockG) st.

(** The two sweeps and the final assignment, on the block graph as built. *)
Definition compact (g blockG : Graph) (root align : Obj string)
    (reverseSep : bool) : res (Obj Q) :=
  st ← firstSweep blockG;
  st ← secondSweep g blockG reverseSep st;
  assignAll root align st.2.

Definition horizontalCompaction (g : nat) (layering : list (list string))
    (root align : Obj string) (reverseSep : bool) : M (Obj Q) :=
  blockG ← buildBlockGraph g layering root reverseSep;
  B ← readGraph blockG;
  G ← readGraph g;
  liftR (compact G B root align reverseSep).

(** ** Choosing and aligning the four alignments *)

(** [_.max] and [_.min] of an array of numbers; [undefined] when empty. *)
Definition listMax (l : list Q) : option Q :=
  fold_left (fun acc x =>
               match acc with
               | Some m => if Qle_bool x m then Some m else Some x
               | None => Some x
               end) l None.

Definition listMin (l : list Q) : option Q :=
  fold_left (fun acc x =>
               match acc with
               | Some m => if Qle_bool m x then Some m else Some x
               | None => Some x
               end) l None.

(** The iteratee of [_.minBy]: the width of one alignment, [NaN] ([None])
    for a map without entries. *)
Definition widthStep (g : Graph) (acc : list Q * list Q) (kv : string * Q)
    : res (list Q * list Q) :=
  let '(maxVals, minVals) := acc in
  let '(v, x) := kv in
  w ← width g v;
  let halfWidth := (w / 2)%Q in
  Ok (maxVals ++ [(x + halfWidth)%Q], minVals ++ [(x - halfWidth)%Q]).

Definition alignmentWidth (g : Graph) (xs : Obj Q) : res (option Q) :=
  '(maxVals, minVals) ← foldM (widthStep g) xs ([], []);
  Ok (match listMax maxVals, listMin minVals with
      | Some a, Some b => Some (a - b)%Q
      | _, _ => None
      end).

(** [_.minBy]: the first element whose computed value is smaller than that
    of every element before it; elements whose value is [NaN] are passed
    over. *)
Fixpoint minByFrom {A} (f : A → res (option Q)) (l : list A)
    (best : option (Q * A)) : res (option A) :=
  match l with
  | [] => Ok (snd <$> best)
  | a :: l' =>
      current ← f a;
      match current, best with
      | Some c, Some (computed, _) =>
          if Qle_bool computed c then minByFrom f l' best
          else minByFrom f l' (Some (c, a))
      | Some c, None => minByFrom f l' (Some (c, a))
      | None, _ => minByFrom f l' best
      end
  end.

(** The result is an entry of [xss]: its key stands for the identity of the
    object that the source returns. *)
Definition findSmallestWidthAlignment (g : Graph) (xss : Obj (Obj Q))
    : res (option (string * Obj Q)) :=
  minByFrom (fun kv => alignmentWidth g kv.2) xss None.

Definition subOpt (a b : option Q) : option Q :=
  match a, b with
  | Some x, Some y => Some (x - y)%Q
  | _, _ => None
  end.

(** [alignCoordinates(xss, alignTo)] changes [xss] in place; the embedding
    returns the changed object. *)
Definition alignCoordinates (xss : Obj (Obj Q)) (alignTo : option (string * Obj Q))
    : Obj (Obj Q) :=
  let vals := match alignTo with Some kv => ovalues kv.2 | None => [] end in
  let alignToMin := listMin vals in
  let alignToMax := listMax vals in
  fold_left
    (fun xss '(vert, horiz) =>
       let alignment := (vert ++ horiz)%string in
       match oget xss alignment with
       | Some xs =>
           if bool_decide (fst <$> alignTo = Some alignment) then xss
           else
             let xsVals := ovalues xs in
             let delta :=
               if String.eqb horiz "l" then subOpt alignToMin (listMin xsVals)
               else subOpt alignToMax (listMax xsVals) in
             match delta with
             | Some d =>
                 if truthyNum d
                 then oset xss alignment (omapValues (fun x _ => (x + d)%Q) xs)
                 else xss
             | None => xss
             end
       | None => xss
       end)
    [("u", "l"); ("u", "r"); ("d", "l"); ("d", "r")] xss.

(** [_.mapValues] with a body that may throw. *)
Fixpoint mapValuesM {A B} (f : A → string → res B) (o : Obj A) : res (Obj B) :=
  match o with
  | [] => Ok []
  | (k, a) :: o' => b ← f a k; o'' ← mapValuesM f o'; Ok ((k, b) :: o'')
  end.

(** [_.sortBy] on values that are a number or [undefined]: numbers
    ascending, [undefined] last. *)
Definition numLe (a b : option Q) : bool :=
  match a, b with
  | Some x, Some y => Qle_bool x y
  | Some _, None => true
  | None, Some _ => false
  | None, None => true
  end.

(** [xs[i]] of an array of such values, used as a number. *)
Definition numAt (xs : list (option Q)) (i : nat) : res Q :=
  ofOption Undefined (mjoin (xs !! i)).

(** The body of the callback of [balance], for the key [v]. *)
Definition balanceAt (xss : Obj (Obj Q)) (align : attr) (v : string) : res Q :=
  if truthy align then
    match align with
    | AStr s =>
        xs ← ofOption TypeError (oget xss (toLowerCase s));
        ofOption Undefined (oget xs v)
    | _ => Throw TypeError
    end
  else
    let xs := sortBy numLe (map (fun xs => oget xs v) (ovalues xss)) in
    x1 ← numAt xs 1;
    x2 ← numAt xs 2;
    Ok ((x1 + x2) / 2)%Q.

Definition balance (xss : Obj (Obj Q)) (align : attr) : res (Obj Q) :=
  mapValuesM (fun (_ : Q) v => balanceAt xss align v)
             (default [] (oget xss "ul")).

(** ** The layer matrix *)

(** Modelled from the spec: [buildLayerMatrix] of util.js is not among the
    sources.  The spec gives the matrix as built from the ranks and orders
    of the graph, with [L[r][i]] the vertex of rank [r] and order [i]: layer
    [r], for [r] from 0 to the largest rank, holds the labelled nodes of
    rank [r] by ascending order. *)
Definition buildLayerMatrix (g : Graph) : list (list string) :=
  let labelled := omap (fun kv => pair kv.1 <$> kv.2) (gnodes g) in
  let ranks := map (fun kv => Label.rank kv.2) labelled in
  let layers := Z.to_nat (foldr Z.max (-1)%Z ranks + 1) in
  map (fun r =>
         map fst
           (sortBy (fun a b => bool_decide (Label.order a.2 ≤ Label.order b.2)%Z)
                   (filter (fun kv => Label.rank kv.2 = Z.of_nat r) labelled)))
      (seq 0 layers).

(** ** The orchestrator (bk.js, [positionX]) *)

(** [_.merge] of two conflict stores. *)
Definition mergeConflicts (c1 c2 : gmap string (gset string))
    : gmap string (gset string) :=
  union_with (fun a b => Some (a ∪ b)) c1 c2.

(** The body of the loop over [horiz]; the state is [xss] and
    [adjustedLayering]. *)
Definition positionStep (g : nat) (G : Graph)
    (conflicts : gmap string (gset string)) (vert : string)
    (st : Obj (Obj Q) * list (list string)) (horiz : string)
    : M (Obj (Obj Q) * list (list string)) :=
  let '(xss, adjustedLayering) := st in
  let adjustedLayering :=
    if String.eqb horiz "r" then map (@rev string) adjustedLayering
    else adjustedLayering in
  let neighborFn := if String.eqb vert "u" then predecessors G else successors G in
  let '(root, align) := verticalAlignment G adjustedLayering conflicts neighborFn in
  xs ← horizontalCompaction g adjustedLayering root align (String.eqb horiz "r");
  let xs := if String.eqb horiz "r" then omapValues (fun x _ => (- x)%Q) xs else xs in
  mret (oset xss (vert ++ horiz)%string xs, adjustedLayering).

(** The first part of [positionX]: the four alignments, after
    [alignCoordinates]. *)
Definition positionMaps (g : nat) : M (Obj (Obj Q)) :=
  G ← readGraph g;
  let layering := buildLayerMatrix G in
  c1 ← liftR (findType1Conflicts G layering);
  c2 ← liftR (findType2Conflicts G layering);
  let conflicts := mergeConflicts c1 c2 in
  xss ← foldH (fun xss vert =>
                 let adjustedLayering :=
                   if String.eqb vert "u" then layering else rev layering in
                 st ← foldH (positionStep g G conflicts vert) ["l"; "r"]
                            (xss, adjustedLayering);
                 mret st.1)
              ["u"; "d"] [];
  smallestWidth ← liftR (findSmallestWidthAlignment G xss);
  mret (alignCoordinates xss smallestWidth).

Definition positionX (g : nat) : M (Obj Q) :=
  xss ← positionMaps g;
  G ← readGraph g;
  graphLabel ← liftR (graph G);
  liftR (balance xss (GLabel.align graphLabel)).

(** ** The block graph as a value

    What [buildBlockGraph] leaves in the store, as a function of the value
    of the input graph: the same steps on a graph value instead of a
    handle.  [buildBlockGraph_value] relates the two. *)
Definition blockStepP (G : Graph) (root : Obj string)
    (sepFn : Graph → string → string → res Q)
    (st : Graph * option string) (v : string) : res (Graph * option string) :=
  vRoot ← ofOption Undefined (oget root v);
  let B := setNode st.1 vRoot in
  B' ← match st.2 with
       | Some u' =>
           if truthyId st.2 then
             uRoot ← ofOption Undefined (oget root u');
             let prevMax := edge B uRoot vRoot in
             s ← sepFn G v u';
             Ok (setEdge B uRoot vRoot (Qmax s (orZero prevMax)))
           else Ok B
       | None => Ok B
       end;
  Ok (B', Some v).

Definition blockLayerP (G : Graph) (root : Obj string)
    (sepFn : Graph → string → string → res Q)
    (B : Graph) (layer : list string) : res Graph :=
  st ← foldM (blockStepP G root sepFn) layer (B, None);
  Ok st.1.

Definition blockGraphOf (G : Graph) (layering : list (list string))
    (root : Obj string) (reverseSep : bool) : res Graph :=
  graphLabel ← graph G;
  let sepFn := sep (GLabel.nodesep graphLabel) (GLabel.edgesep graphLabel) reverseSep in
  foldM (blockLayerP G root sepFn) layering newGraph.

(** * Properties *)

(** Halving, in the form that [lra] reads. *)
Lemma Qhalf (x : Q) : (x / 2 = x * (1 # 2))%Q.
Proof. reflexivity. Qed.

Ltac qhalf := rewrite ?Qhalf in *.

(** ** The separation function *)

Section SepLabelPosition.
Variables (g : Graph) (a b : string) (la lb : NodeLabel) (edgeSep : Q).
Hypothesis Ha : node g a = Ok la.
Hypothesis Hb : node g b = Ok lb.
Hypothesis Hwa : (Label.width la == 100)%Q.
Hypothesis Hwb : (Label.width lb == 100)%Q.
Hypothesis Hreal_a : truthy (Label.dummy la) = false.
Hypothesis Hreal_b : truthy (Label.dummy lb) = false.
Hypothesis Hpos_a : Label.labelpos la = Some "l".
Hypothesis Hpos_b : Label.labelpos lb = None.

Lemma sep_left_label (reverseSep : bool) :
  ∃ q, sep 40 edgeSep reverseSep g b a = Ok q
       ∧ (q == if reverseSep then 190 else 90)%Q.
Proof using All.
  unfold sep. rewrite Ha, Hb. cbn [mbind res_bind].
  unfold labelposDelta, addDelta. rewrite Hpos_a, Hpos_b, Hreal_a, Hreal_b.
  change (String.eqb (toLowerCase "l") "l") with true. cbv iota.
  assert (Ht : truthyNum (Label.width la / 2) = true).
  { unfold truthyNum. apply negb_true_iff.
    destruct (Qeq_bool (Label.width la / 2) 0) eqn:E; [|done].
    apply Qeq_bool_eq in E. exfalso. qhalf. lra. }
  rewrite Ht. eexists; split; [reflexivity|].
  qhalf. destruct reverseSep; lra.
Qed.
End SepLabelPosition.

Definition lbl (r o : Z) (w : Q) : NodeLabel := Label.mk r o w AUndef None None.

(** The graph of scenario S5: [a] carries [labelpos = 'l']. *)
Definition graphS5 : Graph :=
  mkGraph (Some (GLabel.mk 40 10 AUndef))
          [("a", Some (Label.mk 0 0 100 AUndef (Some "l") None));
           ("b", Some (lbl 0 1 100))] [].

(** C2, as the code has it: under the left-node rule of section 4.1 the
    separation [sep(G, b, a)] of two real nodes of width 100 with
    [nodesep = 40] and [a.labelpos = 'l'] is 90 without [reverseSep] and 190
    with it. *)
Theorem sep_labelpos_left_values :
  ∀ (g : Graph) (a b : string) (la lb : NodeLabel) (edgeSep : Q),
    node g a = Ok la → node g b = Ok lb →
    (Label.width la == 100)%Q → (Label.width lb == 100)%Q →
    truthy (Label.dummy la) = false → truthy (Label.dummy lb) = false →
    Label.labelpos la = Some "l" → Label.labelpos lb = None →
    (∃ q, sep 40 edgeSep false g b a = Ok q ∧ (q == 90)%Q)
    ∧ (∃ q, sep 40 edgeSep true g b a = Ok q ∧ (q == 190)%Q).
Proof.
  intros g a b la lb e Ha Hb Hwa Hwb Hda Hdb Hpa Hpb.
  split.
  - apply (sep_left_label g a b la lb e Ha Hb Hwa Hwb Hda Hdb Hpa Hpb false).
  - apply (sep_left_label g a b la lb e Ha Hb Hwa Hwb Hda Hdb Hpa Hpb true).
Qed.

Lemma sep_labelpos_left_values_witness :
  (∃ q, sep 40 10 false graphS5 "b" "a" = Ok q ∧ (q == 90)%Q)
  ∧ (∃ q, sep 40 10 true graphS5 "b" "a" = Ok q ∧ (q == 190)%Q).
Proof.
  apply (sep_labelpos_left_values graphS5 "a" "b"
           (Label.mk 0 0 100 AUndef (Some "l") None) (lbl 0 1 100) 10);
    reflexivity.
Defined.

(** C2 as the spec states it (150 without [reverseSep], 50 with it) fails on
    the graph of scenario S5. *)
Lemma sep_labelpos_left_not_150_50 :
  ¬ ((∃ q, sep 40 10 false graphS5 "b" "a" = Ok q ∧ (q == 150)%Q)
     ∧ (∃ q, sep 40 10 true graphS5 "b" "a" = Ok q ∧ (q == 50)%Q)).
Proof.
  intros [[q [Hq Hv]] _]. vm_compute in Hq. injection Hq as <-.
  vm_compute in Hv. discriminate.
Qed.

(** ** The conflict store *)

Lemma idGt_cases (v w : string) :
  (idGt v w = true ∧ idGt w v = false)
  ∨ (idGt v w = false ∧ idGt w v = true)
  ∨ v = w.
Proof.
  unfold idGt, String.ltb.
  rewrite (String.compare_antisym w v).
  destruct (String.compare v w) eqn:E; simpl; auto.
  apply String.compare_eq_iff in E. auto.
Qed.

Lemma hasConflict_sym (c : gmap string (gset string)) (v w : string) :
  hasConflict c v w = hasConflict c w v.
Proof.
  unfold hasConflict.
  destruct (idGt_cases v w) as [[-> ->]|[[-> ->]| ->]]; reflexivity.
Qed.

(** C7: in a conflict store built by any sequence of [addConflict] calls,
    [hasConflict(c, v, w)] and [hasConflict(c, w, v)] agree, and a pair that
    was added is found in both orders. *)
Theorem hasConflict_symmetric :
  ∀ (calls : list (string * string)) (v w : string),
    let c := fold_left (fun c p => addConflict c p.1 p.2) calls ∅ in
    hasConflict c v w = hasConflict c w v
    ∧ hasConflict (addConflict c v w) v w = true
    ∧ hasConflict (addConflict c v w) w v = true.
Proof.
  intros calls v w c.
  assert (H : hasConflict (addConflict c v w) v w = true).
  { unfold hasConflict, addConflict.
    destruct (idGt v w); rewrite lookup_insert_eq;
      apply bool_decide_eq_true; set_solver. }
  split; [apply hasConflict_sym|]. split; [exact H|].
  rewrite hasConflict_sym. exact H.
Qed.

(** ** Scenario S2 *)

Definition graphS2 : Graph :=
  mkGraph (Some (GLabel.mk 50 10 AUndef))
          [("a", Some (lbl 0 0 50)); ("b", Some (lbl 0 1 50))] [].

(** C8: for the graph with the two nodes [a] and [b] on rank 0, orders 0
    and 1, widths 50, [nodesep = 50], [edgesep = 10] and no edges,
    [positionX] returns coordinates with [x(b) - x(a) = 100]. *)
Theorem positionX_two_nodes_same_rank :
  ∃ xs σ xa xb,
    positionX 0 [graphS2] = (Ok xs, σ)
    ∧ oget xs "a" = Some xa ∧ oget xs "b" = Some xb
    ∧ (xb - xa == 100)%Q.
Proof.
  eexists _, _, _, _. split; [vm_compute; reflexivity|].
  split; [reflexivity|]. split; [reflexivity|]. reflexivity.
Qed.

(** ** Folds that may throw *)

Lemma foldM_inv {A B} (P : B → Prop) (f : B → A → res B) (l : list A) :
  (∀ b a b', P b → a ∈ l → f b a = Ok b' → P b') →
  ∀ b r, P b → foldM f l b = Ok r → P r.
Proof.
  induction l as [|a l IH]; intros Hf b r Hb Hr; simpl in Hr.
  - by injection Hr as <-.
  - destruct (f b a) as [b'|e] eqn:E; [|done]. simpl in Hr.
    apply (IH (fun b0 a0 b1 Hb0 Ha0 => Hf b0 a0 b1 Hb0 (list_elem_of_further _ _ _ Ha0)) b' r);
      [|done].
    eapply Hf; [exact Hb|left|exact E].
Qed.

Lemma foldM_const {A B} (f : B → A → res B) (l : list A) (b : B) :
  (∀ a, a ∈ l → f b a = Ok b) → foldM f l b = Ok b.
Proof.
  induction l as [|a l IH]; intros Hf; simpl; [done|].
  rewrite (Hf a) by left. simpl. apply IH. intros a' Ha'. apply Hf. by right.
Qed.

Lemma reduceLayers_inv {S} (P : S → Prop)
    (f : S → list string → list string → res S) (rest : list (list string)) :
  (∀ s prev layer s', P s → layer ∈ rest → f s prev layer = Ok s' → P s') →
  ∀ prev s r, P s → reduceLayers f prev rest s = Ok r → P r.
Proof.
  induction rest as [|layer rest IH]; intros Hf prev s r Hs Hr; simpl in Hr.
  - by injection Hr as <-.
  - destruct (f s prev layer) as [s'|e] eqn:E; [|done]. simpl in Hr.
    eapply (IH (fun s0 p0 l0 s1 Hs0 Hl0 => Hf s0 p0 l0 s1 Hs0 (list_elem_of_further _ _ _ Hl0)));
      [|exact Hr].
    eapply Hf; [exact Hs|left|exact E].
Qed.

(** ** Type-1 conflicts spare the inner segments *)

Definition canon (v w : string) : string * string :=
  if idGt v w then (w, v) else (v, w).

Lemma canon_pair (a b u s : string) :
  canon a b = canon u s → (a = u ∧ b = s) ∨ (a = s ∧ b = u).
Proof.
  unfold canon. destruct (idGt a b), (idGt u s); intros [= -> ->]; auto.
Qed.

Lemma hasConflict_addConflict (c : gmap string (gset string)) (u s a b : string) :
  hasConflict (addConflict c u s) a b = true →
  hasConflict c a b = true ∨ (a = u ∧ b = s) ∨ (a = s ∧ b = u).
Proof.
  unfold hasConflict, addConflict.
  fold (canon a b). fold (canon u s).
  destruct (canon a b) as [x y] eqn:Eab. destruct (canon u s) as [p q] eqn:Eus.
  destruct (decide (p = x)) as [->|Hne].
  - rewrite lookup_insert_eq. intros H%bool_decide_eq_true.
    apply elem_of_union in H as [H%elem_of_singleton|H].
    + subst. right. apply canon_pair. congruence.
    + left. destruct (c !! x) as [cx|]; simpl in H; [|set_solver].
      by apply bool_decide_eq_true.
  - rewrite lookup_insert_ne by done. auto.
Qed.

(** A vertex whose label has a truthy [dummy]. *)
Definition isDummy (g : Graph) (v : string) : Prop :=
  ∃ l, node g v = Ok l ∧ truthy (Label.dummy l) = true.

(** No marked pair is an inner segment. *)
Definition sparesInner (g : Graph) (c : gmap string (gset string)) : Prop :=
  ∀ u v, hasConflict c u v = true → ¬ (isDummy g u ∧ isDummy g v).

Lemma sparesInner_empty (g : Graph) : sparesInner g ∅.
Proof.
  intros u v H. unfold hasConflict in H.
  destruct (idGt u v); by rewrite lookup_empty in H.
Qed.

Lemma sparesInner_add (g : Graph) (c : gmap string (gset string)) (u s : string) :
  sparesInner g c → ¬ (isDummy g u ∧ isDummy g s) →
  sparesInner g (addConflict c u s).
Proof.
  intros Hc Hus a b H.
  apply hasConflict_addConflict in H as [H|[[-> ->]|[-> ->]]].
  - by apply Hc.
  - done.
  - tauto.
Qed.

Lemma type1Mark_spares (g : Graph) (k0 k1 : Z) (scanNode u : string)
    (c c' : gmap string (gset string)) :
  sparesInner g c → type1Mark g k0 k1 scanNode c u = Ok c' → sparesInner g c'.
Proof.
  intros Hc. unfold type1Mark.
  destruct (node g u) as [uLabel|] eqn:Eu; [|done]. simpl.
  destruct (_ || _); [|by intros [= <-]].
  destruct (truthy (Label.dummy uLabel)) eqn:Ed.
  - destruct (node g scanNode) as [sLabel|] eqn:Es; [|done]. simpl.
    destruct (truthy (Label.dummy sLabel)) eqn:Eds; intros [= <-]; [done|].
    apply sparesInner_add; [done|].
    intros [_ [l [Hl Ht]]]. congruence.
  - intros [= <-]. apply sparesInner_add; [done|].
    intros [[l [Hl Ht]] _]. congruence.
Qed.

Lemma type1VisitLayer_spares (g : Graph) (prevLayer layer : list string)
    (c c' : gmap string (gset string)) :
  sparesInner g c → type1VisitLayer g c prevLayer layer = Ok c' → sparesInner g c'.
Proof.
  intros Hc. unfold type1VisitLayer.
  destruct (foldM _ _ _) as [st|] eqn:E; [|done]. simpl. intros [= <-].
  revert E. apply (foldM_inv (fun st => sparesInner g st.2)); [|done].
  intros [[k0 scanPos] c0] [i v] st' Hc0 _. simpl in Hc0. unfold type1Step.
  destruct (findOtherInnerSegmentNode g v) as [w|]; [|done]. simpl.
  destruct (match w with Some _ => _ | None => _ end) as [k1|]; [|done]. simpl.
  destruct (_ || _); [|by intros [= <-]].
  destruct (type1Scan g k0 k1 _ c0) as [c1|] eqn:E1; [|done]. simpl.
  intros [= <-]. simpl. revert E1. unfold type1Scan.
  apply foldM_inv; [|done].
  intros c2 scanNode c3 Hc2 _. apply foldM_inv; [|done].
  intros c4 u c5 Hc4 _. by apply type1Mark_spares.
Qed.

(** C6: the conflict set that [findType1Conflicts] returns holds no edge
    whose two endpoints both have a truthy [dummy]. *)
Theorem findType1Conflicts_spares_inner_segments :
  ∀ (g : Graph) (layering : list (list string)) (c : gmap string (gset string)),
    findType1Conflicts g layering = Ok c →
    ∀ (u v : string) (uLabel vLabel : NodeLabel),
      node g u = Ok uLabel → node g v = Ok vLabel →
      truthy (Label.dummy uLabel) = true → truthy (Label.dummy vLabel) = true →
      hasConflict c u v = false.
Proof.
  intros g layering c Hc u v uLabel vLabel Hu Hv Hdu Hdv.
  assert (Hs : sparesInner g c).
  { unfold findType1Conflicts, reduceLayering in Hc.
    destruct layering as [|first rest].
    - injection Hc as <-. apply sparesInner_empty.
    - revert Hc. apply reduceLayers_inv; [|apply sparesInner_empty].
      intros s prev layer s' Hs _. by apply type1VisitLayer_spares. }
  destruct (hasConflict c u v) eqn:E; [|done].
  exfalso. apply (Hs u v E). split; eexists; eauto.
Qed.

Definition graphT1 : Graph :=
  mkGraph (Some (GLabel.mk 50 10 AUndef))
          [("p", Some (Label.mk 0 0 10 (ABool true) None None));
           ("q", Some (lbl 0 1 50));
           ("x", Some (lbl 1 0 50));
           ("y", Some (Label.mk 1 1 10 (ABool true) None None))]
          [("p", "y", None); ("q", "x", None)].

Lemma findType1Conflicts_spares_inner_segments_witness :
  ∃ c, findType1Conflicts graphT1 [["p"; "q"]; ["x"; "y"]] = Ok c
       ∧ hasConflict c "q" "x" = true
       ∧ hasConflict c "p" "y" = false.
Proof.
  eexists. split; [vm_compute; reflexivity|].
  split; [vm_compute; reflexivity|].
  refine (findType1Conflicts_spares_inner_segments
            graphT1 [["p"; "q"]; ["x"; "y"]] _ _ "p" "y"
            (Label.mk 0 0 10 (ABool true) None None)
            (Label.mk 1 1 10 (ABool true) None None) _ _ _ _);
    vm_compute; reflexivity.
Defined.

(** ** Type-2 conflicts without border dummies *)

Lemma reduceLayers_inv_pairs {St} (P : St → Prop)
    (f : St → list string → list string → res St) (rest : list (list string)) :
  ∀ prev,
    (∀ s north south s' i, P s →
       (prev :: rest) !! i = Some north → (prev :: rest) !! S i = Some south →
       f s north south = Ok s' → P s') →
    ∀ s r, P s → reduceLayers f prev rest s = Ok r → P r.
Proof.
  induction rest as [|layer rest IH]; intros prev Hf s r Hs Hr; simpl in Hr.
  - by injection Hr as <-.
  - destruct (f s prev layer) as [s'|e] eqn:E; [|done]. simpl in Hr.
    eapply (IH layer); [|eapply (Hf s prev layer s' 0%nat); eauto|exact Hr].
    intros s0 north south s1 i Hs0 Hn Hso. by apply (Hf s0 north south s1 (S i)).
Qed.

Lemma reduceLayers_total {St} (f : St → list string → list string → res St)
    (rest : list (list string)) (s : St) :
  ∀ prev,
    (∀ north south i,
       (prev :: rest) !! i = Some north → (prev :: rest) !! S i = Some south →
       f s north south = Ok s) →
    reduceLayers f prev rest s = Ok s.
Proof.
  induction rest as [|layer rest IH]; intros prev Hf; simpl; [done|].
  rewrite (Hf prev layer 0%nat) by done. simpl. apply IH.
  intros north south i Hn Hs. by apply (Hf north south (S i)).
Qed.

Lemma reduceLayering_inv_pairs {St} (P : St → Prop)
    (f : St → list string → list string → res St)
    (layering : list (list string)) :
  (∀ s north south s' i, P s →
     layering !! i = Some north → layering !! S i = Some south →
     f s north south = Ok s' → P s') →
  ∀ s r, P s → reduceLayering f layering s = Ok r → P r.
Proof.
  destruct layering as [|first rest]; simpl.
  - by intros _ s r Hs [= <-].
  - apply reduceLayers_inv_pairs.
Qed.

Lemma reduceLayering_total {St} (f : St → list string → list string → res St)
    (layering : list (list string)) (s : St) :
  (∀ north south i,
     layering !! i = Some north → layering !! S i = Some south →
     f s north south = Ok s) →
  reduceLayering f layering s = Ok s.
Proof.
  destruct layering as [|first rest]; simpl; [done|].
  apply reduceLayers_total.
Qed.

Lemma indexed_elem {A} (l : list A) (i : nat) (a : A) :
  (i, a) ∈ indexed l → l !! i = Some a.
Proof.
  unfold indexed. intros H. apply list_elem_of_lookup in H as [j Hj].
  apply lookup_zip_Some in Hj as [Hs Ha].
  apply lookup_seq in Hs as [-> _]. done.
Qed.

Lemma range_elem (n i : nat) : i ∈ range 0 n → (i < n)%nat.
Proof.
  unfold range. simpl. rewrite Nat.sub_0_r. intros H%elem_of_seq. lia.
Qed.

Section NoBorder.
Variables (g : Graph) (layering : list (list string)).

(** No vertex of the layering has [dummy === 'border']. *)
Hypothesis Hnoborder :
  ∀ south v l, south ∈ layering → v ∈ south → node g v = Ok l →
               Label.dummy l ≠ AStr "border".

(** No predecessor of a vertex of a south layer has an order above the
    length of the north layer. *)
Hypothesis Hbound :
  ∀ i north south v u l,
    layering !! i = Some north → layering !! S i = Some south →
    v ∈ south → u ∈ predecessors g v → node g u = Ok l →
    (Label.order l ≤ Z.of_nat (length north))%Z.

Lemma type2Mark_none (north south : list string) (i : nat) (v u : string)
    (c c' : gmap string (gset string)) :
  layering !! i = Some north → layering !! S i = Some south →
  v ∈ south → u ∈ predecessors g v →
  type2Mark g None (Z.of_nat (length north)) v c u = Ok c' → c' = c.
Proof using Hbound.
  intros Hn Hs Hv Hu. unfold type2Mark.
  destruct (node g u) as [uNode|] eqn:Eu; [|done]. simpl.
  pose proof (Hbound i north south v u uNode Hn Hs Hv Hu Eu) as Hle.
  rewrite (bool_decide_eq_false_2 (_ < _)%Z) by lia.
  rewrite andb_false_r. by intros [= <-].
Qed.

Lemma scan_none (north south : list string) (i : nat)
    (c c' : gmap string (gset string)) :
  layering !! i = Some north → layering !! S i = Some south →
  scan g south 0 (length south) None (Z.of_nat (length north)) c = Ok c' →
  c' = c.
Proof using Hbound.
  intros Hn Hs. unfold scan.
  apply (foldM_inv (fun c0 => c0 = c)); [|done].
  intros c0 j c1 -> Hj.
  destruct (south !! j) as [v|] eqn:Ev; [|done]. simpl.
  destruct (node g v) as [vLabel|]; [|done]. simpl.
  destruct (truthy _); [|by intros [= <-]].
  apply (foldM_inv (fun c0 => c0 = c)); [|done].
  intros c2 u c3 -> Hu. eapply type2Mark_none; eauto.
  eapply list_elem_of_lookup_2; eauto.
Qed.

Lemma type2Step_none (north south : list string) (i j : nat) (v : string)
    (c : gmap string (gset string)) st :
  layering !! i = Some north → layering !! S i = Some south →
  south !! j = Some v →
  type2Step g north south ((-1)%Z, None, 0%nat, c) (j, v) = Ok st →
  st = ((-1)%Z, None, 0%nat, c).
Proof using Hbound Hnoborder.
  intros Hn Hs Hv. unfold type2Step.
  destruct (node g v) as [vLabel|] eqn:Ev; [|done]. simpl.
  rewrite bool_decide_eq_false_2.
  2:{ eapply Hnoborder; eauto; eapply list_elem_of_lookup_2; eauto. }
  simpl.
  destruct (scan _ _ _ _ _ _ _) as [c'|] eqn:Esc; [|done]. simpl.
  intros [= <-]. by rewrite (scan_none north south i c c' Hn Hs Esc).
Qed.

Lemma type2VisitLayer_none (north south : list string) (i : nat)
    (c c' : gmap string (gset string)) :
  layering !! i = Some north → layering !! S i = Some south →
  type2VisitLayer g c north south = Ok c' → c' = c.
Proof using Hbound Hnoborder.
  intros Hn Hs. unfold type2VisitLayer.
  destruct (foldM _ _ _) as [st|] eqn:E; [|done]. simpl. intros [= <-].
  enough (st = ((-1)%Z, None, 0%nat, c)) as -> by done.
  revert E.
  apply (foldM_inv (fun st => st = ((-1)%Z, None, 0%nat, c))); [|done].
  intros st0 [j v] st1 -> Hjv%indexed_elem. by eapply type2Step_none.
Qed.

Lemma findType2Conflicts_none (c : gmap string (gset string)) :
  findType2Conflicts g layering = Ok c → c = ∅.
Proof using Hbound Hnoborder.
  unfold findType2Conflicts.
  apply (reduceLayering_inv_pairs (fun c0 => c0 = ∅)); [|done].
  intros s north south s' i -> Hn Hs. by eapply type2VisitLayer_none.
Qed.

(** Every vertex of the layering and every predecessor of one is
    labelled, so that no field access fails. *)
Hypothesis Hlabelled :
  ∀ south v, south ∈ layering → v ∈ south → ∃ l, node g v = Ok l.
Hypothesis Hlabelled_pred :
  ∀ south v u, south ∈ layering → v ∈ south → u ∈ predecessors g v →
               ∃ l, node g u = Ok l.

Lemma scan_returns (north south : list string) (i : nat)
    (c : gmap string (gset string)) :
  layering !! i = Some north → layering !! S i = Some south →
  scan g south 0 (length south) None (Z.of_nat (length north)) c = Ok c.
Proof using All.
  intros Hn Hs. unfold scan. apply foldM_const. intros j Hj%range_elem.
  destruct (lookup_lt_is_Some_2 south j Hj) as [v Hv]. rewrite Hv. simpl.
  assert (Hin : v ∈ south) by (eapply list_elem_of_lookup_2; eauto).
  assert (Hso : south ∈ layering) by (eapply list_elem_of_lookup_2; eauto).
  destruct (Hlabelled south v Hso Hin) as [vLabel ->]. simpl.
  destruct (truthy _); [|done].
  apply foldM_const. intros u Hu.
  destruct (type2Mark g None (Z.of_nat (length north)) v c u) as [c'|e] eqn:E.
  - by rewrite (type2Mark_none north south i v u c c' Hn Hs Hin Hu E).
  - unfold type2Mark in E.
    destruct (Hlabelled_pred south v u Hso Hin Hu) as [uNode Hu']. rewrite Hu' in E.
    simpl in E. by destruct (_ && _).
Qed.

Lemma findType2Conflicts_returns : findType2Conflicts g layering = Ok ∅.
Proof using All.
  unfold findType2Conflicts.
  apply reduceLayering_total. intros north south i Hn Hs.
  unfold type2VisitLayer.
  rewrite (foldM_const _ _ ((-1)%Z, None, 0%nat, ∅)); [done|].
  intros [j v] Hjv%indexed_elem. unfold type2Step.
  assert (Hin : v ∈ south) by (eapply list_elem_of_lookup_2; eauto).
  assert (Hso : south ∈ layering) by (eapply list_elem_of_lookup_2; eauto).
  destruct (Hlabelled south v Hso Hin) as [vLabel Hv]. rewrite Hv. simpl.
  rewrite bool_decide_eq_false_2 by (eapply Hnoborder; eauto). simpl.
  by rewrite (scan_returns north south i ∅ Hn Hs).
Qed.
End NoBorder.

(** C9: when no vertex of the layering has [dummy === 'border'] and no
    predecessor order exceeds the length of the north layer,
    [findType2Conflicts] marks nothing: whatever it returns is the empty
    conflict set, and it does return when the vertices it reads are
    labelled. *)
Theorem findType2Conflicts_empty_without_border :
  ∀ (g : Graph) (layering : list (list string)),
    (∀ south v l, south ∈ layering → v ∈ south → node g v = Ok l →
                  Label.dummy l ≠ AStr "border") →
    (∀ i north south v u l,
       layering !! i = Some north → layering !! S i = Some south →
       v ∈ south → u ∈ predecessors g v → node g u = Ok l →
       (Label.order l ≤ Z.of_nat (length north))%Z) →
    (∀ c, findType2Conflicts g layering = Ok c → c = ∅)
    ∧ ((∀ south v, south ∈ layering → v ∈ south → ∃ l, node g v = Ok l) →
       (∀ south v u, south ∈ layering → v ∈ south → u ∈ predecessors g v →
                     ∃ l, node g u = Ok l) →
       findType2Conflicts g layering = Ok ∅).
Proof.
  intros g layering Hnb Hbd. split.
  - intros c. by apply findType2Conflicts_none.
  - intros Hl Hp. by apply findType2Conflicts_returns.
Qed.

(** Case analysis on membership in an explicit list. *)
Ltac in_cases :=
  repeat match goal with
         | H : _ ∈ [] |- _ => by apply elem_of_nil in H
         | H : _ ∈ _ :: _ |- _ => apply elem_of_cons in H as [->|H]
         end.

(** Evaluate the list of a membership hypothesis. *)
Ltac eval_list H :=
  match type of H with
  | _ ∈ ?l => let l' := eval vm_compute in l in change l with l' in H
  end.

Lemma findType2Conflicts_empty_without_border_witness :
  findType2Conflicts graphT1 [["p"; "q"]; ["x"; "y"]] = Ok ∅.
Proof.
  refine (proj2 (findType2Conflicts_empty_without_border
                   graphT1 [["p"; "q"]; ["x"; "y"]] _ _) _ _).
  - intros south v l Hs Hv Hl. in_cases; vm_compute in Hl; by injection Hl as <-.
  - intros i north south v u l Hn Hs Hv Hu Hl.
    destruct i as [|[|i]]; simpl in Hn, Hs; [|done|done].
    injection Hn as <-. injection Hs as <-.
    in_cases; eval_list Hu; in_cases; vm_compute in Hl;
      injection Hl as <-; simpl; lia.
  - intros south v Hs Hv. in_cases; vm_compute; eauto.
  - intros south v u Hs Hv Hu. in_cases; eval_list Hu; in_cases; vm_compute; eauto.
Defined.

(** ** The narrowest alignment *)

Lemma listMax_from (l : list Q) (m0 : Q) :
  ∃ m, fold_left (fun acc x =>
                    match acc with
                    | Some m => if Qle_bool x m then Some m else Some x
                    | None => Some x
                    end) l (Some m0) = Some m
       ∧ m ∈ m0 :: l ∧ ∀ x, x ∈ m0 :: l → (x <= m)%Q.
Proof.
  revert m0. induction l as [|a l IH]; intros m0; simpl.
  - exists m0. split; [done|]. split; [left|].
    intros x Hx. apply list_elem_of_singleton in Hx as ->. lra.
  - destruct (Qle_bool a m0) eqn:E.
    + apply Qle_bool_iff in E.
      destruct (IH m0) as (m & Hm & Hin & Hub). exists m. split; [done|]. split.
      * apply elem_of_cons in Hin as [->|Hin]; [left|right; by right].
      * intros x Hx. apply elem_of_cons in Hx as [->|Hx]; [apply Hub; left|].
        apply elem_of_cons in Hx as [->|Hx]; [|apply Hub; by right].
        specialize (Hub m0 ltac:(left)). lra.
    + assert (m0 < a)%Q.
      { apply Qnot_le_lt. intros H%Qle_bool_iff. congruence. }
      destruct (IH a) as (m & Hm & Hin & Hub). exists m. split; [done|]. split.
      * by right.
      * intros x Hx. apply elem_of_cons in Hx as [->|Hx]; [|by apply Hub].
        specialize (Hub a ltac:(left)). lra.
Qed.

Lemma listMin_from (l : list Q) (m0 : Q) :
  ∃ m, fold_left (fun acc x =>
                    match acc with
                    | Some m => if Qle_bool m x then Some m else Some x
                    | None => Some x
                    end) l (Some m0) = Some m
       ∧ m ∈ m0 :: l ∧ ∀ x, x ∈ m0 :: l → (m <= x)%Q.
Proof.
  revert m0. induction l as [|a l IH]; intros m0; simpl.
  - exists m0. split; [done|]. split; [left|].
    intros x Hx. apply list_elem_of_singleton in Hx as ->. lra.
  - destruct (Qle_bool m0 a) eqn:E.
    + apply Qle_bool_iff in E.
      destruct (IH m0) as (m & Hm & Hin & Hlb). exists m. split; [done|]. split.
      * apply elem_of_cons in Hin as [->|Hin]; [left|right; by right].
      * intros x Hx. apply elem_of_cons in Hx as [->|Hx]; [apply Hlb; left|].
        apply elem_of_cons in Hx as [->|Hx]; [|apply Hlb; by right].
        specialize (Hlb m0 ltac:(left)). lra.
    + assert (a < m0)%Q.
      { apply Qnot_le_lt. intros H%Qle_bool_iff. congruence. }
      destruct (IH a) as (m & Hm & Hin & Hlb). exists m. split; [done|]. split.
      * by right.
      * intros x Hx. apply elem_of_cons in Hx as [->|Hx]; [|by apply Hlb].
        specialize (Hlb a ltac:(left)). lra.
Qed.



Lemma listMax_is_Some (l : list Q) : l ≠ [] → is_Some (listMax l).
Proof.
  destruct l as [|a l]; [done|]. intros _. unfold listMax. simpl.
  destruct (listMax_from l a) as (m & -> & _). eauto.
Qed.

Lemma listMin_is_Some (l : list Q) : l ≠ [] → is_Some (listMin l).
Proof.
  destruct l as [|a l]; [done|]. intros _. unfold listMin. simpl.
  destruct (listMin_from l a) as (m & -> & _). eauto.
Qed.



Lemma widthFold_spec (g : Graph) (xs : Obj Q) :
  ∀ mx mn r,
    foldM (widthStep g) xs (mx, mn) = Ok r →
    ∃ ts : list (string * Q * Q),
      map fst ts = xs
      ∧ Forall (fun t => width g t.1.1 = Ok t.2) ts
      ∧ r.1 = mx ++ map (fun t => (t.1.2 + t.2 / 2)%Q) ts
      ∧ r.2 = mn ++ map (fun t => (t.1.2 - t.2 / 2)%Q) ts.
Proof.
  induction xs as [|[v x] xs IH]; intros mx mn r Hr; simpl in Hr.
  - injection Hr as <-. exists []. by rewrite !app_nil_r.
  - destruct (width g v) as [w|] eqn:Ew; [|done]. simpl in Hr.
    destruct (IH _ _ _ Hr) as (ts & Hts & Hall & H1 & H2).
    exists ((v, x, w) :: ts). simpl. rewrite Hts, H1, H2, <- !app_assoc.
    split; [done|]. split; [by constructor|]. done.
Qed.








Definition xssW : Obj (Obj Q) :=
  [("ul", [("a", 0%Q); ("b", 120%Q)]);
   ("ur", [("a", 0%Q); ("b", 100%Q)]);
   ("dl", [("a", 10%Q); ("b", 110%Q)]);
   ("dr", [("a", 0%Q); ("b", 150%Q)])].


(** ** Sorting *)

Lemma insertBy_perm {A} (le : A → A → bool) (x : A) (l : list A) :
  insertBy le x l ≡ₚ x :: l.
Proof.
  induction l as [|y l IH]; simpl; [done|].
  destruct (le x y); [done|]. rewrite IH. apply Permutation_swap.
Qed.

Lemma sortBy_perm {A} (le : A → A → bool) (l : list A) : sortBy le l ≡ₚ l.
Proof.
  induction l as [|x l IH]; simpl; [done|].
  rewrite insertBy_perm. by rewrite IH.
Qed.




(** ** Balancing *)




Lemma oget_Some_elem {A} (o : Obj A) (k : string) (a : A) :
  oget o k = Some a → (k, a) ∈ o.
Proof.
  induction o as [|[k' a'] o IH]; simpl; [done|].
  destruct (String.eqb_spec k' k) as [->|Hne].
  - intros [= ->]. left.
  - intros H. right. by apply IH.
Qed.

Lemma oget_is_Some_keys {A} (o : Obj A) (k : string) :
  is_Some (oget o k) ↔ k ∈ okeys o.
Proof.
  induction o as [|[k' a'] o IH]; simpl.
  - split; [by intros [? ?]|by intros H%elem_of_nil].
  - destruct (String.eqb_spec k' k) as [->|Hne].
    + split; [left|eauto].
    + rewrite IH. split; [by right|].
      intros H. apply elem_of_cons in H as [->|H]; done.
Qed.





(** ** The store: what a computation leaves alone

    [frames n m Q]: run from a store of at least [n] graphs, [m] leaves the
    first [n] graphs as they are, removes none, and a value it returns
    satisfies [Q]. *)
Definition frames (n : nat) {A} (m : M A) (Q : A → Prop) : Prop :=
  ∀ σ r σ', n ≤ length σ → m σ = (r, σ') →
    take n σ' = take n σ ∧ length σ ≤ length σ' ∧ ∀ a, r = Ok a → Q a.

Lemma frames_ret (n : nat) {A} (a : A) (Q : A → Prop) :
  Q a → frames n (mret a) Q.
Proof. intros HQ σ r σ' Hn [= <- <-]. split; [done|]. split; [done|]. by intros a' [= <-]. Qed.

Lemma frames_bind (n : nat) {A B} (m : M A) (k : A → M B)
    (Q : A → Prop) (R : B → Prop) :
  frames n m Q → (∀ a, Q a → frames n (k a) R) → frames n (m ≫= k) R.
Proof.
  intros Hm Hk σ r σ' Hn Hr. unfold mbind, M_bind in Hr.
  destruct (m σ) as [[a|e] σ1] eqn:E.
  - destruct (Hm σ (Ok a) σ1 Hn E) as (Ht & Hl & Ha).
    destruct (Hk a (Ha a eq_refl) σ1 r σ' ltac:(lia) Hr) as (Ht' & Hl' & Hr').
    split; [congruence|]. split; [lia|done].
  - injection Hr as <- <-. destruct (Hm σ (Throw e) σ1 Hn E) as (Ht & Hl & _).
    split; [done|]. split; [done|]. by intros a [=].
Qed.

Lemma frames_weaken (n : nat) {A} (m : M A) (Q R : A → Prop) :
  frames n m Q → (∀ a, Q a → R a) → frames n m R.
Proof.
  intros Hm HQR σ r σ' Hn Hr. destruct (Hm σ r σ' Hn Hr) as (? & ? & HQ).
  split; [done|]. split; [done|]. intros a Ha. by apply HQR, HQ.
Qed.

Lemma frames_liftR (n : nat) {A} (r : res A) : frames n (liftR r) (fun _ => True).
Proof. intros σ r' σ' Hn [= <- <-]. done. Qed.

Lemma frames_read (n h : nat) : frames n (readGraph h) (fun _ => True).
Proof. intros σ r' σ' Hn [= <- <-]. done. Qed.

Lemma frames_alloc (n : nat) : frames n allocGraph (fun b => n ≤ b).
Proof.
  intros σ r σ' Hn [= <- <-]. split; [by rewrite take_app_le|].
  split; [rewrite length_app; lia|]. by intros a [= <-].
Qed.

Lemma frames_upd (n b : nat) (f : Graph → Graph) :
  n ≤ b → frames n (updGraph b f) (fun _ => True).
Proof.
  intros Hb σ r σ' Hn [= <- <-]. split; [|split; [by rewrite length_alter|done]].
  apply list_eq. intros i. destruct (decide (i < n)) as [Hi|Hi].
  - rewrite !lookup_take_lt by done. apply list_lookup_alter_ne. lia.
  - rewrite !lookup_take_ge by lia. done.
Qed.

Lemma frames_foldH (n : nat) {A B} (f : B → A → M B) (l : list A) (b : B) :
  (∀ b a, frames n (f b a) (fun _ => True)) →
  frames n (foldH f l b) (fun _ => True).
Proof.
  intros Hf. revert b. induction l as [|a l IH]; intros b; simpl.
  - by apply frames_ret.
  - eapply frames_bind; [apply Hf|]. intros b' _. apply IH.
Qed.

Ltac frames_step :=
  first [ apply frames_liftR | apply frames_read | by apply frames_ret
        | by apply frames_upd
        | eapply frames_bind;
            [first [apply frames_liftR | apply frames_read | by apply frames_upd]|];
            intros ? _ ].

Lemma frames_blockStep (n g blockGraph : nat) (root : Obj string)
    (sepFn : Graph → string → string → res Q) (u : option string) (v : string) :
  n ≤ blockGraph →
  frames n (blockStep g blockGraph root sepFn u v) (fun _ => True).
Proof.
  intros Hb. unfold blockStep.
  repeat frames_step.
  eapply frames_bind with (Q := fun _ => True).
  - destruct u as [u'|]; [|by apply frames_ret].
    destruct (truthyId _); [|by apply frames_ret].
    repeat frames_step.
  - intros _ _. by apply frames_ret.
Qed.

Lemma frames_buildBlockGraph (n g : nat) (layering : list (list string))
    (root : Obj string) (reverseSep : bool) :
  frames n (buildBlockGraph g layering root reverseSep) (fun _ => True).
Proof.
  unfold buildBlockGraph.
  eapply frames_bind; [apply frames_alloc|]. intros blockGraph Hb.
  repeat frames_step.
  eapply frames_bind with (Q := fun _ => True); [|intros; by apply frames_ret].
  apply frames_foldH. intros [] layer.
  eapply frames_bind with (Q := fun _ => True); [|intros; by apply frames_ret].
  apply frames_foldH. intros u v. by apply frames_blockStep.
Qed.

Lemma frames_horizontalCompaction (n g : nat) (layering : list (list string))
    (root align : Obj string) (reverseSep : bool) :
  frames n (horizontalCompaction g layering root align reverseSep) (fun _ => True).
Proof.
  unfold horizontalCompaction.
  eapply frames_bind; [apply frames_buildBlockGraph|]. intros blockG _.
  repeat frames_step.
Qed.

Lemma frames_positionStep (n g : nat) (G : Graph)
    (conflicts : gmap string (gset string)) (vert : string)
    (st : Obj (Obj Q) * list (list string)) (horiz : string) :
  frames n (positionStep g G conflicts vert st horiz) (fun _ => True).
Proof.
  unfold positionStep. destruct st as [xss adjustedLayering].
  destruct (verticalAlignment _ _ _ _) as [root align].
  eapply frames_bind; [apply frames_horizontalCompaction|]. intros xs _.
  by apply frames_ret.
Qed.

Lemma frames_positionMaps (n g : nat) : frames n (positionMaps g) (fun _ => True).
Proof.
  unfold positionMaps. repeat frames_step.
  eapply frames_bind with (Q := fun _ => True).
  - apply frames_foldH. intros xss vert.
    eapply frames_bind with (Q := fun _ => True); [|intros; by apply frames_ret].
    apply frames_foldH. intros st horiz. apply frames_positionStep.
  - intros xss _. repeat frames_step.
Qed.

Lemma frames_positionX (n g : nat) : frames n (positionX g) (fun _ => True).
Proof.
  unfold positionX.
  eapply frames_bind; [apply frames_positionMaps|]. intros xss _.
  repeat frames_step.
Qed.

Lemma frames_prefix {A} (m : M A) (σ : Heap) :
  frames (length σ) m (fun _ => True) → ∃ fresh, (m σ).2 = σ ++ fresh.
Proof.
  intros Hm. destruct (m σ) as [r σ'] eqn:E.
  destruct (Hm σ r σ' ltac:(done) E) as (Ht & Hl & _).
  exists (drop (length σ) σ'). simpl.
  rewrite <- (take_drop (length σ) σ') at 1. f_equal.
  rewrite Ht. by rewrite take_ge.
Qed.

(** C10: [positionX] leaves every graph of the store as it was, the input
    graph among them; the store after the call is the store before it
    followed by the graphs that the call allocated, and the block graphs
    that it builds are among those. *)
Theorem positionX_leaves_graph_unchanged :
  ∀ (g : nat) (σ : Heap),
    (∃ fresh, (positionX g σ).2 = σ ++ fresh)
    ∧ (∀ h, h < length σ → (positionX g σ).2 !! h = σ !! h)
    ∧ (∀ layering root reverseSep blockGraph σ',
         buildBlockGraph g layering root reverseSep σ = (Ok blockGraph, σ') →
         length σ ≤ blockGraph ∧ ∀ h, h < length σ → σ' !! h = σ !! h).
Proof.
  intros g σ.
  destruct (frames_prefix (positionX g) σ (frames_positionX _ g)) as [fresh Hf].
  split; [by exists fresh|]. split.
  - intros h Hh. rewrite Hf. by apply lookup_app_l.
  - intros layering root reverseSep blockGraph σ' Hb.
    assert (Hfr : frames (length σ) (buildBlockGraph g layering root reverseSep)
                         (fun b => length σ ≤ b)).
    { unfold buildBlockGraph.
      eapply frames_bind; [apply frames_alloc|]. intros b Hb'.
      repeat frames_step.
      eapply frames_bind with (Q := fun _ => True); [|intros; by apply frames_ret].
      apply frames_foldH. intros [] layer.
      eapply frames_bind with (Q := fun _ => True); [|intros; by apply frames_ret].
      apply frames_foldH. intros u v. by apply frames_blockStep. }
    destruct (Hfr σ _ σ' ltac:(done) Hb) as (Ht & Hl & Hq).
    split; [by apply Hq|]. intros h Hh.
    rewrite <- (lookup_take_lt σ' (length σ) h) by done.
    rewrite Ht. by rewrite lookup_take_lt.
Qed.

(** ** The result of [positionX] *)

Lemma okeys_oset_present {A} (o : Obj A) (k : string) (a : A) :
  k ∈ okeys o → okeys (oset o k a) = okeys o.
Proof.
  induction o as [|[k' a'] o IH]; simpl; [by intros H%elem_of_nil|].
  intros H. destruct (String.eqb_spec k' k) as [->|Hne]; [done|].
  simpl. f_equal. apply IH. apply elem_of_cons in H as [->|H]; done.
Qed.









(** ** Objects: reading after writing *)

Lemma oget_oset_eq {A} (o : Obj A) (k : string) (a : A) :
  oget (oset o k a) k = Some a.
Proof.
  induction o as [|[k' a'] o IH]; simpl.
  - by rewrite String.eqb_refl.
  - destruct (String.eqb_spec k' k) as [->|Hne]; simpl.
    + by rewrite String.eqb_refl.
    + by destruct (String.eqb_spec k' k).
Qed.

Lemma oget_oset_ne {A} (o : Obj A) (k k' : string) (a : A) :
  k ≠ k' → oget (oset o k a) k' = oget o k'.
Proof.
  intros Hne. induction o as [|[k0 a0] o IH]; simpl.
  - by destruct (String.eqb_spec k k').
  - destruct (String.eqb_spec k0 k) as [->|Hne0]; simpl.
    + by destruct (String.eqb_spec k k').
    + destruct (String.eqb_spec k0 k'); [done|apply IH].
Qed.

Lemma elem_of_concat {A} (x : A) (ls : list (list A)) :
  x ∈ concat ls ↔ ∃ l, l ∈ ls ∧ x ∈ l.
Proof.
  induction ls as [|l0 ls IH]; simpl.
  - split; [by intros H%elem_of_nil|by intros (l & H%elem_of_nil & _)].
  - rewrite elem_of_app, IH. split.
    + intros [H|(l & Hl & Hx)]; [exists l0; split; [left|done]|].
      exists l. split; [by right|done].
    + intros (l & Hl & Hx). apply elem_of_cons in Hl as [->|Hl]; [by left|].
      right. eauto.
Qed.

Lemma NoDup_concat_inv {A} (ls : list (list A)) (l : list A) :
  NoDup (concat ls) → l ∈ ls → NoDup l.
Proof.
  induction ls as [|l0 ls IH]; simpl; [by intros _ H%elem_of_nil|].
  intros Hnd Hl. apply NoDup_app in Hnd as (H0 & _ & Hrest).
  apply elem_of_cons in Hl as [->|Hl]; [done|by apply IH].
Qed.

(** Two lists of a duplicate-free concatenation that share an element are
    the same list. *)
Lemma NoDup_concat_same {A} (ls : list (list A)) (l l' : list A) (x : A) :
  NoDup (concat ls) → l ∈ ls → l' ∈ ls → x ∈ l → x ∈ l' → l = l'.
Proof.
  induction ls as [|l0 ls IH]; simpl; [by intros _ H%elem_of_nil|].
  intros Hnd Hl Hl' Hx Hx'. apply NoDup_app in Hnd as (H0 & Hdisj & Hrest).
  apply elem_of_cons in Hl as [->|Hl]; apply elem_of_cons in Hl' as [->|Hl'].
  - done.
  - exfalso. apply (Hdisj x Hx). apply elem_of_concat. eauto.
  - exfalso. apply (Hdisj x Hx'). apply elem_of_concat. eauto.
  - by apply IH.
Qed.

(** ** Blocks of the vertical alignment *)

(** [u] lies on layer [l] of the layering. *)
Definition inLayer (layering : list (list string)) (l : nat) (u : string) : Prop :=
  ∃ layer, layering !! l = Some layer ∧ u ∈ layer.

Lemma inLayer_vertex (layering : list (list string)) (l : nat) (u : string) :
  inLayer layering l u → u ∈ concat layering.
Proof.
  intros (layer & Hl & Hu). apply elem_of_concat. exists layer.
  split; [|done]. eapply list_elem_of_lookup_2; eauto.
Qed.

Lemma vertex_inLayer (layering : list (list string)) (u : string) :
  u ∈ concat layering → ∃ l, inLayer layering l u.
Proof.
  intros (layer & Hl & Hu)%elem_of_concat.
  apply list_elem_of_lookup in Hl as [l Hl]. exists l, layer. done.
Qed.

Lemma inLayer_unique (layering : list (list string)) (l l' : nat) (u : string) :
  NoDup (concat layering) → inLayer layering l u → inLayer layering l' u → l = l'.
Proof.
  revert l l'. induction layering as [|L0 rest IH]; intros l l' Hnd.
  - by intros (layer & Hl & _).
  - simpl in Hnd. apply NoDup_app in Hnd as (H0 & Hdisj & Hrest).
    intros (layer & Hl & Hu) (layer' & Hl' & Hu').
    destruct l as [|l], l' as [|l']; simpl in Hl, Hl'.
    + done.
    + injection Hl as <-. exfalso. apply (Hdisj u Hu).
      apply (inLayer_vertex rest l'). by exists layer'.
    + injection Hl' as <-. exfalso. apply (Hdisj u Hu').
      apply (inLayer_vertex rest l). by exists layer.
    + f_equal. apply IH; [done|by exists layer|by exists layer'].
Qed.

Lemma initBlocks_self (layering : list (list string)) (v : string) :
  v ∈ concat layering →
  oget (initBlocks layering).1.1 v = Some v
  ∧ oget (initBlocks layering).1.2 v = Some v.
Proof.
  unfold initBlocks.
  set (P := fun (vs : list string) (st : Obj string * Obj string * Obj Z) =>
              ∀ u, u ∈ vs → oget st.1.1 u = Some u ∧ oget st.1.2 u = Some u).
  assert (Hinner : ∀ (ol : list (nat * string)) vs st,
             P vs st → P (vs ++ map snd ol) (fold_left initStep ol st)).
  { induction ol as [|[o x] ol IH]; intros vs st HP; simpl.
    - by rewrite app_nil_r.
    - replace (vs ++ x :: map snd ol) with ((vs ++ [x]) ++ map snd ol)
        by by rewrite <- app_assoc.
      apply IH. destruct st as [[root align] pos]. intros u Hu. simpl.
      destruct (decide (x = u)) as [->|Hne].
      + by rewrite !oget_oset_eq.
      + rewrite !oget_oset_ne by done. apply HP.
        apply elem_of_app in Hu as [Hu|Hu%list_elem_of_singleton]; [done|congruence]. }
  assert (Hsnd : ∀ layer : list string, map snd (indexed layer) = layer).
  { intros layer. unfold indexed. apply snd_zip. by rewrite length_seq. }
  assert (Houter : ∀ (ls : list (list string)) vs st,
             P vs st →
             P (vs ++ concat ls)
               (fold_left (fun st layer => fold_left initStep (indexed layer) st) ls st)).
  { induction ls as [|layer ls IH]; intros vs st HP; simpl.
    - by rewrite app_nil_r.
    - rewrite app_assoc. apply IH. rewrite <- (Hsnd layer) at 1. by apply Hinner. }
  intros Hv. refine (Houter layering [] ([], [], []) _ v Hv).
  intros u Hu. by apply elem_of_nil in Hu.
Qed.

(** Following [align] along the list [c] goes from each element to the
    next, and from the last back to the first. *)
Definition cyclicNext (align : Obj string) (c : list string) : Prop :=
  ∀ j b, c !! j = Some b → oget align b = c !! (S j mod length c).

Section Blocks.
Variable layering : list (list string).
Variable neighborFn : string → list string.
Variable conflicts : gmap string (gset string).
Variable pos : Obj Z.

Hypothesis Hnodup : NoDup (concat layering).

(** The neighbours of a vertex lie on the layer before its own. *)
Hypothesis Hproper :
  ∀ i v w, inLayer layering i v → w ∈ neighborFn v →
           ∃ i', i = S i' ∧ inLayer layering i' w.

(** A block, listed from its root downwards, while layer [i] is being
    processed with [prevIdx]: the members share the root, [align] cycles
    through them, they lie on consecutive layers, a member below layer [i]
    is alone, and a member that has a successor on layer [i] has a
    position of at most [prevIdx]. *)
Definition chainOK (i : nat) (prevIdx : Z) (root align : Obj string)
    (c : list string) : Prop :=
  c ≠ []
  ∧ (∀ b, b ∈ c → oget root b = head c)
  ∧ cyclicNext align c
  ∧ (∀ j w u, c !! j = Some w → c !! S j = Some u →
              ∃ l, inLayer layering l w ∧ inLayer layering (S l) u)
  ∧ (∀ u l, u ∈ c → inLayer layering l u → i < l → c = [u])
  ∧ (∀ j w u, c !! j = Some w → c !! S j = Some u → inLayer layering i u →
              ∃ p, oget pos w = Some p ∧ (p ≤ prevIdx)%Z).

Definition blocksInv (i : nat) (prevIdx : Z) (root align : Obj string) : Prop :=
  ∃ chains,
    Forall (chainOK i prevIdx root align) chains
    ∧ NoDup (concat chains)
    ∧ ∀ v, v ∈ concat chains ↔ v ∈ concat layering.

Lemma chainOK_frame (i : nat) (p p' : Z) (root align root' align' : Obj string)
    (c : list string) :
  chainOK i p root align c →
  (∀ b, b ∈ c → oget root' b = oget root b ∧ oget align' b = oget align b) →
  (p ≤ p')%Z →
  chainOK i p' root' align' c.
Proof using Type.
  intros (Hne & Hroot & Hcyc & Hlay & Hbelow & Hpos) Hsame Hp.
  split; [done|]. split; [|split; [|split; [done|split; [done|]]]].
  - intros b Hb. rewrite (proj1 (Hsame b Hb)). by apply Hroot.
  - intros j b Hj. rewrite (proj2 (Hsame b (list_elem_of_lookup_2 _ _ _ Hj))).
    by apply Hcyc.
  - intros j w u Hw Hu Hi. destruct (Hpos j w u Hw Hu Hi) as (q & Hq & Hle).
    exists q. split; [done|lia].
Qed.

Lemma cyclic_fixed_singleton (align : Obj string) (c : list string) (v : string) :
  NoDup c → cyclicNext align c → v ∈ c → oget align v = Some v → c = [v].
Proof using Type.
  intros Hnd Hcyc Hv Hal. apply list_elem_of_lookup in Hv as [j Hj].
  pose proof (lookup_lt_Some _ _ _ Hj) as Hlt.
  pose proof (Hcyc j v Hj) as Hn. rewrite Hal in Hn. symmetry in Hn.
  pose proof (NoDup_lookup _ _ _ _ Hnd Hn Hj) as Hmod.
  assert (length c = 1%nat) as Hlen.
  { destruct (decide (S j < length c)) as [Hs|Hs].
    - rewrite Nat.mod_small in Hmod by done. lia.
    - assert (S j = length c) as Heq by lia. rewrite Heq in Hmod.
      rewrite Nat.Div0.mod_same in Hmod. lia. }
  destruct c as [|x [|y c]]; simpl in Hlen; try lia.
  assert (j = 0%nat) as -> by (simpl in Hlt; lia). by injection Hj as ->.
Qed.

(** Appending the vertex [v] of layer [i] to the block that ends in its
    neighbour [w]. *)
Lemma chainOK_extend (i i' : nat) (prevIdx posW : Z) (root align : Obj string)
    (c : list string) (v w rootW : string) :
  chainOK i prevIdx root align c →
  NoDup (c ++ [v]) →
  i = S i' → inLayer layering i v → inLayer layering i' w →
  last c = Some w →
  oget pos w = Some posW → (prevIdx < posW)%Z →
  oget root w = Some rootW →
  chainOK i posW (oset root v rootW) (oset (oset align w v) v rootW) (c ++ [v]).
Proof using Hnodup.
  intros (Hne & Hroot & Hcyc & Hlay & Hbelow & Hpos) Hnd Hi Hv Hw Hlast Hpw Hlt Hrw.
  apply NoDup_app in Hnd as (Hndc & Hdisj & _).
  assert (Hvc : v ∉ c).
  { intros Hin. apply (Hdisj v Hin). left. }
  assert (Hwc : w ∈ c).
  { rewrite last_lookup in Hlast. eapply list_elem_of_lookup_2; eauto. }
  assert (Hwv : w ≠ v) by (intros ->; done).
  assert (Hlen : (0 < length c)%nat) by (destruct c; [done|simpl; lia]).
  assert (Hwidx : c !! (length c - 1)%nat = Some w).
  { rewrite last_lookup in Hlast. by replace (length c - 1)%nat with (pred (length c)) by lia. }
  assert (Hhead : head c = Some rootW).
  { rewrite <- (Hroot w Hwc). done. }
  assert (Hhead' : head (c ++ [v]) = head c) by (destruct c; done).
  split; [by destruct c|]. split; [|split; [|split; [|split]]].
  - intros b Hb. rewrite Hhead', Hhead.
    apply elem_of_app in Hb as [Hb|Hb%list_elem_of_singleton].
    + rewrite oget_oset_ne by (intros ->; done). rewrite (Hroot b Hb). done.
    + subst b. apply oget_oset_eq.
  - intros j b Hj. rewrite length_app. simpl.
    apply lookup_app_Some in Hj as [Hj|[Hge Hj]].
    + pose proof (lookup_lt_Some _ _ _ Hj) as Hjl.
      assert (Hbv : b ≠ v) by (intros ->; apply Hvc; eapply list_elem_of_lookup_2; eauto).
      rewrite oget_oset_ne by done.
      rewrite Nat.mod_small by lia.
      destruct (decide (S j < length c)) as [Hs|Hs].
      * assert (Hbw : b ≠ w).
        { intros ->. pose proof (NoDup_lookup _ _ _ _ Hndc Hj Hwidx). lia. }
        rewrite oget_oset_ne by done. rewrite (Hcyc j b Hj).
        rewrite Nat.mod_small by done. by rewrite lookup_app_l.
      * assert (j = (length c - 1)%nat) as -> by lia.
        rewrite Hwidx in Hj. injection Hj as <-.
        rewrite oget_oset_eq. rewrite lookup_app_r by lia.
        by replace (S (length c - 1) - length c)%nat with 0%nat by lia.
    + apply list_lookup_singleton_Some in Hj as [Hj <-].
      rewrite oget_oset_eq.
      replace (S j) with (length c + 1)%nat by lia.
      rewrite Nat.Div0.mod_same. rewrite lookup_app_l by done.
      by rewrite <- head_lookup.
  - intros j x u Hx Hu.
    apply lookup_app_Some in Hu as [Hu|[Hge Hu]].
    + apply (Hlay j x u); [|done].
      rewrite lookup_app_l in Hx; [done|]. apply lookup_lt_Some in Hu. lia.
    + apply list_lookup_singleton_Some in Hu as [Hj <-].
      assert (j = (length c - 1)%nat) as -> by lia.
      rewrite lookup_app_l in Hx by lia. rewrite Hwidx in Hx. injection Hx as <-.
      exists i'. split; [done|by rewrite <- Hi].
  - intros u l Hu Hl Hil. exfalso.
    apply elem_of_app in Hu as [Hu|Hu%list_elem_of_singleton].
    + pose proof (Hbelow u l Hu Hl Hil) as Hc. rewrite Hc in Hwc.
      apply list_elem_of_singleton in Hwc as ->.
      pose proof (inLayer_unique _ _ _ _ Hnodup Hl Hw). lia.
    + subst u. pose proof (inLayer_unique _ _ _ _ Hnodup Hl Hv). lia.
  - intros j x u Hx Hu Hui.
    apply lookup_app_Some in Hu as [Hu|[Hge Hu]].
    + rewrite lookup_app_l in Hx by (apply lookup_lt_Some in Hu; lia).
      destruct (Hpos j x u Hx Hu Hui) as (q & Hq & Hle). exists q. split; [done|lia].
    + apply list_lookup_singleton_Some in Hu as [Hj <-].
      assert (j = (length c - 1)%nat) as -> by lia.
      rewrite lookup_app_l in Hx by lia. rewrite Hwidx in Hx. injection Hx as <-.
      exists posW. split; [done|lia].
Qed.

Lemma concat_Permutation {A} (ls ls' : list (list A)) :
  ls ≡ₚ ls' → concat ls ≡ₚ concat ls'.
Proof using Type.
  induction 1 as [|l ls ls' _ IH|l l' ls|ls1 ls2 ls3 _ IH1 _ IH2]; simpl.
  - done.
  - by rewrite IH.
  - rewrite !app_assoc. by rewrite (Permutation_app_comm l l').
  - by rewrite IH1.
Qed.

Lemma alignWith_blocks (i : nat) (prevIdx : Z) (root align : Obj string)
    (v w : string) :
  blocksInv i prevIdx root align →
  inLayer layering i v → w ∈ neighborFn v →
  let st := alignWith conflicts pos v (root, align, prevIdx) w in
  blocksInv i st.2 st.1.1 st.1.2 ∧ (prevIdx ≤ st.2)%Z.
Proof using Hnodup Hproper.
  intros Hinv Hv Hw. unfold alignWith. cbv zeta.
  destruct (oget pos w) as [posW|] eqn:Hpw; [|simpl; split; [done|lia]].
  destruct (oget root w) as [rootW|] eqn:Hrw; [|simpl; split; [done|lia]].
  destruct (bool_decide (oget align v = Some v)) eqn:Hal; [|simpl; split; [done|lia]].
  destruct (bool_decide (prevIdx < posW)%Z) eqn:Hlt; [|simpl; split; [done|lia]].
  destruct (hasConflict conflicts v w); [simpl; split; [done|lia]|].
  apply bool_decide_eq_true in Hal. apply bool_decide_eq_true in Hlt.
  simpl. split; [|lia].
  destruct Hinv as (chains & Hall & Hnd & Hel).
  destruct (Hproper i v w Hv Hw) as (i' & Hi & Hwl).
  rewrite Forall_forall in Hall.
  pose proof (proj2 (Hel v) (inLayer_vertex _ _ _ Hv)) as Hvc.
  pose proof (proj2 (Hel w) (inLayer_vertex _ _ _ Hwl)) as Hwc.
  apply elem_of_concat in Hvc as (cv & Hcv & Hvcv).
  apply elem_of_concat in Hwc as (cw & Hcw & Hwcw).
  pose proof (Hall cv Hcv) as Hokv. pose proof (Hall cw Hcw) as Hokw.
  assert (Hcv1 : cv = [v]).
  { destruct Hokv as (_ & _ & Hcyc & _).
    apply (cyclic_fixed_singleton align); try done.
    by apply (NoDup_concat_inv chains). }
  subst cv.
  assert (Hwv : w ≠ v).
  { intros ->. pose proof (inLayer_unique _ _ _ _ Hnodup Hv Hwl). lia. }
  assert (Hlast : last cw = Some w).
  { destruct Hokw as (Hne & _ & _ & Hlay & _ & Hpos).
    apply list_elem_of_lookup in Hwcw as [j Hj].
    pose proof (lookup_lt_Some _ _ _ Hj) as Hjl.
    destruct (decide (S j < length cw)) as [Hs|Hs].
    - exfalso. destruct (lookup_lt_is_Some_2 cw (S j) Hs) as [u Hu].
      destruct (Hlay j w u Hj Hu) as (l & Hl1 & Hl2).
      pose proof (inLayer_unique _ _ _ _ Hnodup Hl1 Hwl) as ->.
      rewrite <- Hi in Hl2.
      destruct (Hpos j w u Hj Hu Hl2) as (q & Hq & Hle).
      rewrite Hpw in Hq. injection Hq as <-. lia.
    - rewrite last_lookup. by replace (pred (length cw)) with j by lia. }
  assert (Hne : cw ≠ [v]).
  { intros ->. by apply list_elem_of_singleton in Hwcw. }
  apply elem_of_Permutation in Hcw as [rest1 Hp1].
  assert (Hin1 : [v] ∈ rest1).
  { rewrite Hp1 in Hcv. apply elem_of_cons in Hcv as [Heq|Hcv]; [congruence|done]. }
  apply elem_of_Permutation in Hin1 as [rest Hp2].
  assert (Hp : chains ≡ₚ cw :: [v] :: rest) by (by rewrite Hp1, Hp2).
  assert (Hnd' : NoDup (cw ++ [v] ++ concat rest)).
  { pose proof (concat_Permutation _ _ Hp) as Hpc. simpl in Hpc. by rewrite <- Hpc. }
  exists ((cw ++ [v]) :: rest). split; [|split].
  - constructor.
    + eapply (chainOK_extend i i'); eauto.
      rewrite app_assoc in Hnd'. by apply NoDup_app in Hnd' as (? & _ & _).
    + apply Forall_forall. intros r Hr.
      apply (chainOK_frame i prevIdx posW root align); [| |lia].
      * apply Hall. rewrite Hp. right. by right.
      * intros b Hb.
        assert (Hbr : b ∈ concat rest) by (apply elem_of_concat; eauto).
        apply NoDup_app in Hnd' as (_ & Hd1 & Hnd2).
        apply NoDup_app in Hnd2 as (_ & Hd2 & _).
        assert (b ≠ v).
        { intros ->. apply (Hd2 v); [left|done]. }
        assert (b ≠ w).
        { intros ->. apply (Hd1 w Hwcw). apply elem_of_app. by right. }
        by rewrite !oget_oset_ne by done.
  - simpl. by rewrite <- app_assoc.
  - intros u. rewrite <- Hel. rewrite (concat_Permutation _ _ Hp). simpl.
    by rewrite <- app_assoc.
Qed.

Lemma sortBy_elem {A} (le : A → A → bool) (l : list A) (x : A) :
  x ∈ sortBy le l → x ∈ l.
Proof using Type. by rewrite sortBy_perm. Qed.

Lemma medians_elem (ws : list string) (w : string) : w ∈ medians ws → w ∈ ws.
Proof using Type.
  unfold medians, slice. intros H.
  apply list_elem_of_lookup in H as [j Hj].
  apply lookup_take_Some in Hj as [Hj _].
  rewrite lookup_drop in Hj. eapply list_elem_of_lookup_2; eauto.
Qed.

Lemma alignVertex_blocks (i : nat) (v : string)
    (st st' : Obj string * Obj string * Z) :
  blocksInv i st.2 st.1.1 st.1.2 → inLayer layering i v →
  alignVertex conflicts neighborFn pos st v = st' →
  blocksInv i st'.2 st'.1.1 st'.1.2.
Proof using Hnodup Hproper.
  intros Hinv Hv <-. unfold alignVertex.
  destruct (0 <? length (neighborFn v))%nat; [|done].
  set (cands := medians _).
  assert (Hc : ∀ w, w ∈ cands → w ∈ neighborFn v).
  { intros w Hw. apply medians_elem in Hw. by apply sortBy_elem in Hw. }
  clearbody cands. revert st Hinv.
  induction cands as [|w cands IH]; intros st Hinv; simpl; [done|].
  apply IH; [intros w' Hw'; apply Hc; by right|].
  destruct st as [[root align] prevIdx].
  apply (alignWith_blocks i prevIdx root align v w Hinv Hv (Hc w ltac:(left))).
Qed.

Lemma alignLayer_blocks (i : nat) (root align : Obj string) (layer : list string) :
  layering !! i = Some layer →
  blocksInv i (-1) root align →
  ∃ p, blocksInv i p (alignLayer conflicts neighborFn pos (root, align) layer).1
                     (alignLayer conflicts neighborFn pos (root, align) layer).2.
Proof using Hnodup Hproper.
  intros Hl Hinv. unfold alignLayer. simpl.
  assert (Hvs : ∀ v, v ∈ layer → inLayer layering i v) by (intros v Hv; by exists layer).
  assert (Hgen : ∀ vs st,
             (∀ v, v ∈ vs → inLayer layering i v) →
             blocksInv i st.2 st.1.1 st.1.2 →
             let st' := fold_left (alignVertex conflicts neighborFn pos) vs st in
             blocksInv i st'.2 st'.1.1 st'.1.2).
  { induction vs as [|v vs IH]; intros st Hin Hst; simpl; [done|].
    apply IH; [intros v' Hv'; apply Hin; by right|].
    eapply alignVertex_blocks; [exact Hst|apply Hin; left|done]. }
  eexists. apply (Hgen layer (root, align, (-1)%Z) Hvs Hinv).
Qed.

Lemma blocksInv_next (i : nat) (p : Z) (root align : Obj string) :
  blocksInv i p root align → blocksInv (S i) (-1) root align.
Proof using Type.
  intros (chains & Hall & Hnd & Hel). exists chains. split; [|done].
  eapply Forall_impl; [exact Hall|].
  intros c (Hne & Hroot & Hcyc & Hlay & Hbelow & Hpos).
  split; [done|]. split; [done|]. split; [done|]. split; [done|]. split.
  - intros u l Hu Hl Hil. apply (Hbelow u l Hu Hl). lia.
  - intros j w u Hw Hu Hui. exfalso.
    pose proof (Hbelow u (S i) (list_elem_of_lookup_2 _ _ _ Hu) Hui ltac:(lia)) as Hc.
    rewrite Hc in Hu. by destruct j.
Qed.

Lemma alignLayers_blocks (pre post : list (list string)) (root align : Obj string) :
  layering = pre ++ post →
  blocksInv (length pre) (-1) root align →
  let ra := fold_left (alignLayer conflicts neighborFn pos) post (root, align) in
  blocksInv (length layering) (-1) ra.1 ra.2.
Proof using Hnodup Hproper.
  revert pre root align. induction post as [|layer post IH];
    intros pre root align Hl Hinv; simpl.
  - rewrite Hl, app_nil_r. done.
  - assert (Hlay : layering !! length pre = Some layer).
    { rewrite Hl. by rewrite list_lookup_middle. }
    destruct (alignLayer_blocks (length pre) root align layer Hlay Hinv) as [p Hp].
    destruct (alignLayer conflicts neighborFn pos (root, align) layer) as [root' align'].
    simpl in Hp. apply (IH (pre ++ [layer])).
    + by rewrite <- app_assoc.
    + rewrite length_app. simpl. rewrite Nat.add_1_r. by eapply blocksInv_next.
Qed.

Lemma concat_singletons {A} (l : list A) : concat (map (fun v => [v]) l) = l.
Proof using Type. induction l as [|x l IH]; simpl; [done|by rewrite IH]. Qed.

Lemma blocksInv_init (root align : Obj string) :
  (∀ v, v ∈ concat layering → oget root v = Some v ∧ oget align v = Some v) →
  blocksInv 0 (-1) root align.
Proof using Hnodup.
  intros Hself. exists (map (fun v => [v]) (concat layering)).
  rewrite concat_singletons. split; [|done].
  apply Forall_forall. intros c Hc.
  apply list_elem_of_fmap in Hc as (v & -> & Hv).
  destruct (Hself v Hv) as [Hr Ha].
  split; [done|]. split; [|split; [|split; [|split]]].
  - by intros b ->%list_elem_of_singleton.
  - intros j b Hj. apply list_lookup_singleton_Some in Hj as [-> <-]. done.
  - intros j w u _ Hu. by destruct j.
  - by intros u l ->%list_elem_of_singleton _ _.
  - intros j w u _ Hu. by destruct j.
Qed.

Lemma rotate_nat_add_mod (j m n : nat) :
  rotate_nat_add j m n = ((j + m) mod n)%nat.
Proof using Type.
  unfold rotate_nat_add.
  by rewrite <- Nat2Z.inj_add, <- Nat2Z.inj_mod, Nat2Z.id.
Qed.

Lemma rotate_nat_add_succ (j m n : nat) :
  (S (rotate_nat_add j m n) mod n = rotate_nat_add j (S m mod n) n)%nat.
Proof using Type.
  rewrite !rotate_nat_add_mod.
  replace (S ((j + m) mod n)) with ((j + m) mod n + 1)%nat by lia.
  rewrite Nat.Div0.add_mod_idemp_l, Nat.Div0.add_mod_idemp_r.
  f_equal. lia.
Qed.

(** The cycle of [align] through the member at index [j] of a block. *)
Lemma chain_cycle (align : Obj string) (c : list string) (j : nat) (v : string) :
  NoDup c → cyclicNext align c → c !! j = Some v →
  head (rotate j c) = Some v
  ∧ NoDup (rotate j c)
  ∧ cyclicNext align (rotate j c)
  ∧ ∀ u, u ∈ rotate j c ↔ u ∈ c.
Proof using Type.
  intros Hnd Hcyc Hj. pose proof (lookup_lt_Some _ _ _ Hj) as Hlt.
  split; [|split; [|split]].
  - rewrite head_lookup, lookup_rotate_r by lia.
    by rewrite rotate_nat_add_0.
  - unfold rotate. rewrite Permutation_app_comm. by rewrite take_drop.
  - intros m b Hm. rewrite length_rotate.
    apply lookup_rotate_r_Some in Hm as [Hm Hml].
    rewrite (Hcyc _ _ Hm).
    rewrite lookup_rotate_r by (apply Nat.mod_upper_bound; lia).
    by rewrite rotate_nat_add_succ.
  - intros u. apply elem_of_rotate.
Qed.

Lemma chain_layers (i : nat) (p : Z) (root align : Obj string) (c : list string) :
  chainOK i p root align c → (∀ b, b ∈ c → b ∈ concat layering) →
  ∃ l0, ∀ j b, c !! j = Some b → inLayer layering (l0 + j) b.
Proof using Hnodup.
  intros (Hne & _ & _ & Hlay & _ & _) Hin.
  destruct c as [|b0 c]; [done|].
  destruct (vertex_inLayer layering b0 (Hin b0 ltac:(left))) as [l0 Hl0].
  exists l0. induction j as [|j IH]; intros b Hb.
  - injection Hb as <-. by rewrite Nat.add_0_r.
  - destruct (lookup_lt_is_Some_2 (b0 :: c) j) as [w Hw].
    { apply lookup_lt_Some in Hb. lia. }
    destruct (Hlay j w b Hw Hb) as (l & Hl1 & Hl2).
    pose proof (inLayer_unique _ _ _ _ Hnodup Hl1 (IH w Hw)) as ->.
    by replace (l0 + S j)%nat with (S (l0 + j)) by lia.
Qed.

(** What the invariant says about every vertex. *)
Lemma blocksInv_blocks (i : nat) (p : Z) (root align : Obj string) (v : string) :
  blocksInv i p root align → v ∈ concat layering →
  (∃ r, oget root v = Some r ∧ oget root r = Some r)
  ∧ (∃ a, oget align v = Some a ∧ oget root a = oget root v)
  ∧ (∃ cyc, head cyc = Some v ∧ NoDup cyc ∧ cyclicNext align cyc
            ∧ ∀ u, u ∈ cyc ↔ (u ∈ concat layering ∧ oget root u = oget root v))
  ∧ (∀ u l, inLayer layering l v → inLayer layering l u →
            oget root u = oget root v → u = v).
Proof using Hnodup.
  intros (chains & Hall & Hnd & Hel) Hv.
  rewrite Forall_forall in Hall.
  assert (Hchain : ∀ u, u ∈ concat layering →
            ∃ c, c ∈ chains ∧ u ∈ c ∧ chainOK i p root align c ∧ NoDup c).
  { intros u Hu. apply Hel in Hu. apply elem_of_concat in Hu as (c & Hc & Huc).
    exists c. split; [done|]. split; [done|]. split; [by apply Hall|].
    by apply (NoDup_concat_inv chains). }
  assert (Hsame : ∀ u c c', c ∈ chains → c' ∈ chains → u ∈ c → v ∈ c' →
            chainOK i p root align c → chainOK i p root align c' →
            oget root u = oget root v → c = c').
  { intros u c c' Hc Hc' Hu Hv' (Hne & Hr & _) (Hne' & Hr' & _) Heq.
    rewrite (Hr u Hu), (Hr' v Hv') in Heq.
    destruct c as [|b0 c]; [done|]. destruct c' as [|b0' c']; [done|].
    simpl in Heq. injection Heq as <-.
    apply (NoDup_concat_same chains _ _ b0 Hnd Hc Hc'); left. }
  destruct (Hchain v Hv) as (c & Hc & Hvc & Hok & Hndc).
  pose proof Hok as (Hne & Hroot & Hcyc & Hlay & Hbelow & Hpos).
  apply list_elem_of_lookup in Hvc as [j Hj].
  pose proof (list_elem_of_lookup_2 _ _ _ Hj) as Hvc.
  assert (Hinc : ∀ b, b ∈ c → b ∈ concat layering).
  { intros b Hb. apply Hel. apply elem_of_concat. eauto. }
  split; [|split; [|split]].
  - destruct c as [|b0 c]; [done|]. exists b0.
    split; [by rewrite (Hroot v Hvc)|]. apply (Hroot b0). left.
  - destruct (lookup_lt_is_Some_2 c (S j mod length c)) as [a Ha].
    { apply Nat.mod_upper_bound. apply lookup_lt_Some in Hj. lia. }
    exists a. split; [by rewrite (Hcyc j v Hj)|].
    rewrite (Hroot a (list_elem_of_lookup_2 _ _ _ Ha)). by rewrite (Hroot v Hvc).
  - destruct (chain_cycle align c j v Hndc Hcyc Hj) as (Hh & Hn & Hcy & Hmem).
    exists (rotate j c). split; [done|]. split; [done|]. split; [done|].
    intros u. rewrite Hmem. split.
    + intros Hu. split; [by apply Hinc|].
      by rewrite (Hroot u Hu), (Hroot v Hvc).
    + intros [Hu Heq]. destruct (Hchain u Hu) as (c' & Hc' & Huc' & Hok' & _).
      by rewrite <- (Hsame u c' c Hc' Hc Huc' Hvc Hok' Hok Heq).
  - intros u l Hlv Hlu Heq.
    destruct (Hchain u (inLayer_vertex _ _ _ Hlu)) as (c' & Hc' & Huc' & Hok' & _).
    pose proof (Hsame u c' c Hc' Hc Huc' Hvc Hok' Hok Heq) as ->.
    destruct (chain_layers i p root align c Hok Hinc) as [l0 Hl0].
    apply list_elem_of_lookup in Huc' as [j' Hj'].
    pose proof (inLayer_unique _ _ _ _ Hnodup (Hl0 j v Hj) Hlv).
    pose proof (inLayer_unique _ _ _ _ Hnodup (Hl0 j' u Hj') Hlu).
    assert (j' = j) as -> by lia. congruence.
Qed.
End Blocks.

(** C5: on a layering without repeated vertices, with a neighbour function
    that returns vertices of the layer before, the pair [(root, align)]
    that [verticalAlignment] returns satisfies for every vertex [v]:
    [root[root[v]] == root[v]]; [root[align[v]] == root[v]]; following
    [align] from [v] runs through the members of the block of [v], each once,
    and comes back to [v]; and no other member of the block lies on the layer
    of [v]. *)
Theorem verticalAlignment_blocks :
  ∀ (g : Graph) (layering : list (list string))
    (conflicts : gmap string (gset string)) (neighborFn : string → list string)
    (root align : Obj string),
    NoDup (concat layering) →
    (∀ i v w, inLayer layering i v → w ∈ neighborFn v →
              ∃ i', i = S i' ∧ inLayer layering i' w) →
    verticalAlignment g layering conflicts neighborFn = (root, align) →
    ∀ v, v ∈ concat layering →
      (∃ r, oget root v = Some r ∧ oget root r = Some r)
      ∧ (∃ a, oget align v = Some a ∧ oget root a = oget root v)
      ∧ (∃ cyc, head cyc = Some v ∧ NoDup cyc ∧ cyclicNext align cyc
                ∧ ∀ u, u ∈ cyc ↔ (u ∈ concat layering ∧ oget root u = oget root v))
      ∧ (∀ u l, inLayer layering l v → inLayer layering l u →
                oget root u = oget root v → u = v).
Proof.
  intros g layering conflicts neighborFn root align Hnd Hproper Hva v Hv.
  unfold verticalAlignment in Hva.
  pose proof (initBlocks_self layering) as Hself.
  destruct (initBlocks layering) as [[root0 align0] pos0]. simpl in Hself.
  pose proof (alignLayers_blocks layering neighborFn conflicts pos0 Hnd Hproper
                [] layering root0 align0 eq_refl
                (blocksInv_init layering pos0 Hnd root0 align0 Hself)) as Hinv.
  rewrite Hva in Hinv. simpl in Hinv.
  by apply (blocksInv_blocks layering pos0 Hnd _ _ root align v Hinv).
Qed.

(** Two layers of two real nodes, each lower node below its own upper
    node. *)
Definition graphVA : Graph :=
  mkGraph (Some (GLabel.mk 50 10 AUndef))
          [("a", Some (lbl 0 0 50)); ("b", Some (lbl 0 1 50));
           ("c", Some (lbl 1 0 50)); ("d", Some (lbl 1 1 50))]
          [("a", "c", None); ("b", "d", None)].

Lemma graphVA_proper (i : nat) (v w : string) :
  inLayer [["a"; "b"]; ["c"; "d"]] i v → w ∈ predecessors graphVA v →
  ∃ i', i = S i' ∧ inLayer [["a"; "b"]; ["c"; "d"]] i' w.
Proof.
  intros (layer & Hl & Hv) Hw.
  destruct i as [|[|i]]; simpl in Hl; [| |done]; injection Hl as <-.
  - in_cases; eval_list Hw; in_cases.
  - exists 0%nat. split; [done|]. exists ["a"; "b"]. split; [done|].
    in_cases; eval_list Hw; in_cases; set_solver.
Qed.

Lemma verticalAlignment_blocks_witness :
  let root := (verticalAlignment graphVA [["a"; "b"]; ["c"; "d"]] ∅
                 (predecessors graphVA)).1 in
  let align := (verticalAlignment graphVA [["a"; "b"]; ["c"; "d"]] ∅
                  (predecessors graphVA)).2 in
  let layering := [["a"; "b"]; ["c"; "d"]] in
  oget root "c" = Some "a"
  ∧ ((∃ r, oget root "c" = Some r ∧ oget root r = Some r)
     ∧ (∃ a, oget align "c" = Some a ∧ oget root a = oget root "c")
     ∧ (∃ cyc, head cyc = Some "c" ∧ NoDup cyc ∧ cyclicNext align cyc
               ∧ ∀ u, u ∈ cyc ↔ (u ∈ concat layering ∧ oget root u = oget root "c"))
     ∧ (∀ u l, inLayer layering l "c" → inLayer layering l u →
               oget root u = oget root "c" → u = "c")).
Proof.
  cbv zeta. split; [vm_compute; reflexivity|].
  apply (verticalAlignment_blocks graphVA [["a"; "b"]; ["c"; "d"]] ∅
           (predecessors graphVA)).
  - refine (bool_decide_unpack _ _). vm_compute. exact I.
  - exact graphVA_proper.
  - apply surjective_pairing.
  - set_solver.
Defined.

(** ** Inversion of the binds *)

Lemma res_bind_Ok {A B} (m : res A) (k : A → res B) (r : B) :
  m ≫= k = Ok r → ∃ a, m = Ok a ∧ k a = Ok r.
Proof. destruct m as [a|e]; [|done]. intros H. by exists a. Qed.

Lemma M_bind_Ok {A B} (m : M A) (k : A → M B) (σ σ' : Heap) (r : B) :
  (m ≫= k) σ = (Ok r, σ') → ∃ a σ1, m σ = (Ok a, σ1) ∧ k a σ1 = (Ok r, σ').
Proof.
  unfold mbind, M_bind. destruct (m σ) as [[a|e] σ1]; [|done].
  intros H. by exists a, σ1.
Qed.

Lemma ofOption_Ok {A} (e : err) (o : option A) (a : A) :
  ofOption e o = Ok a → o = Some a.
Proof. destruct o; [|done]. by intros [= ->]. Qed.

(** ** graphlib: nodes and edges after [setNode] and [setEdge] *)

Lemma ohas_app {A} (o o' : Obj A) (k : string) :
  ohas (o ++ o') k = ohas o k || ohas o' k.
Proof.
  unfold ohas. induction o as [|[k' a] o IH]; simpl; [done|].
  destruct (String.eqb k' k); [done|apply IH].
Qed.

Lemma hasNode_nodes (g : Graph) (v : string) :
  hasNode g v = true ↔ v ∈ nodes g.
Proof.
  unfold hasNode, ohas, nodes. rewrite <- oget_is_Some_keys.
  destruct (oget (gnodes g) v); split; try done; eauto.
Qed.

Lemma hasNode_setNode_same (g : Graph) (v : string) :
  hasNode (setNode g v) v = true.
Proof.
  unfold setNode. destruct (hasNode g v) eqn:E; [done|].
  unfold hasNode. simpl. rewrite ohas_app. unfold ohas at 2. simpl.
  rewrite String.eqb_refl. apply orb_true_r.
Qed.

Lemma hasNode_setNode_mono (g : Graph) (v x : string) :
  hasNode g x = true → hasNode (setNode g v) x = true.
Proof.
  intros H. unfold setNode. destruct (hasNode g v); [done|].
  unfold hasNode in *. simpl. rewrite ohas_app, H. done.
Qed.

Lemma gedges_setNode (g : Graph) (v : string) : gedges (setNode g v) = gedges g.
Proof. unfold setNode. by destruct (hasNode g v). Qed.

Lemma isEdge_true (a b : string) (e : string * string * option Q) :
  isEdge a b e = true ↔ e.1 = (a, b).
Proof.
  unfold isEdge. destruct e as [[x y] l]. simpl.
  rewrite andb_true_iff, !String.eqb_eq. split; [by intros [-> ->]|by intros [= -> ->]].
Qed.

Lemma setEdgeLabel_elem (es : list (string * string * option Q))
    (a b : string) (x : Q) (e : string * string * option Q) :
  e ∈ setEdgeLabel es a b x → e = (a, b, Some x) ∨ e ∈ es.
Proof.
  induction es as [|e0 es IH]; simpl.
  - intros ->%list_elem_of_singleton. by left.
  - destruct (isEdge a b e0).
    + intros [->|H]%elem_of_cons; [by left|right; by right].
    + intros [->|H]%elem_of_cons; [right; left|].
      destruct (IH H) as [->|Hin]; [by left|right; by right].
Qed.

Lemma setEdgeLabel_new (es : list (string * string * option Q))
    (a b : string) (x : Q) :
  (a, b, Some x) ∈ setEdgeLabel es a b x.
Proof.
  induction es as [|e0 es IH]; simpl; [left|].
  destruct (isEdge a b e0); [left|by right].
Qed.

Lemma setEdgeLabel_old (es : list (string * string * option Q))
    (a b : string) (x : Q) (e : string * string * option Q) :
  e ∈ es → e.1 ≠ (a, b) → e ∈ setEdgeLabel es a b x.
Proof.
  intros Hin Hne. induction es as [|e0 es IH]; simpl; [by apply elem_of_nil in Hin|].
  apply elem_of_cons in Hin as [->|Hin].
  - destruct (isEdge a b e0) eqn:E; [by apply isEdge_true in E|left].
  - destruct (isEdge a b e0); right; [done|by apply IH].
Qed.

Lemma setEdgeLabel_keys (es : list (string * string * option Q))
    (a b : string) (x : Q) :
  map fst (setEdgeLabel es a b x) = map fst es
  ∨ (((a, b) ∉ map fst es) ∧ map fst (setEdgeLabel es a b x) = map fst es ++ [(a, b)]).
Proof.
  induction es as [|e0 es IH]; simpl.
  - right. split; [apply not_elem_of_nil|done].
  - destruct (isEdge a b e0) eqn:E; simpl.
    + left. apply isEdge_true in E. by rewrite E.
    + destruct IH as [->|[Hn ->]]; [by left|]. right. split; [|done].
      intros [He|Hin]%elem_of_cons; [|done].
      assert (isEdge a b e0 = true) by (by apply isEdge_true). congruence.
Qed.

Lemma setEdgeLabel_NoDup (es : list (string * string * option Q))
    (a b : string) (x : Q) :
  NoDup (map fst es) → NoDup (map fst (setEdgeLabel es a b x)).
Proof.
  intros Hnd. destruct (setEdgeLabel_keys es a b x) as [->|[Hn ->]]; [done|].
  apply NoDup_app. split; [done|]. split; [|apply NoDup_singleton].
  intros k Hk ->%list_elem_of_singleton. done.
Qed.

(** With one edge per pair of endpoints, [g.edge(v, w)] is the label of
    that edge. *)
Lemma edge_lookup (g : Graph) (a b : string) (l : option Q) :
  NoDup (map fst (gedges g)) → (a, b, l) ∈ gedges g → edge g a b = l.
Proof.
  unfold edge. induction (gedges g) as [|e0 es IH]; simpl.
  - by intros _ H%elem_of_nil.
  - intros Hnd Hin. apply NoDup_cons in Hnd as [Hk Hnd].
    destruct (isEdge a b e0) eqn:E.
    + apply isEdge_true in E. apply elem_of_cons in Hin as [<-|Hin]; [done|].
      exfalso. apply Hk. rewrite E. apply list_elem_of_fmap. by exists (a, b, l).
    + apply elem_of_cons in Hin as [<-|Hin]; [|by apply IH].
      assert (isEdge a b (a, b, l) = true) by (by apply isEdge_true). congruence.
Qed.

Lemma inEdges_elem (g : Graph) (v : string) (e : string * string * option Q) :
  e ∈ inEdges g v ↔ hasNode g v = true ∧ e ∈ gedges g ∧ e.1.2 = v.
Proof.
  unfold inEdges. destruct (hasNode g v).
  - rewrite list_elem_of_filter, String.eqb_eq. tauto.
  - split; [by intros H%elem_of_nil|by intros [? _]].
Qed.

Lemma outEdges_elem (g : Graph) (v : string) (e : string * string * option Q) :
  e ∈ outEdges g v ↔ hasNode g v = true ∧ e ∈ gedges g ∧ e.1.1 = v.
Proof.
  unfold outEdges. destruct (hasNode g v).
  - rewrite list_elem_of_filter, String.eqb_eq. tauto.
  - split; [by intros H%elem_of_nil|by intros [? _]].
Qed.

(** ** [buildBlockGraph] computes [blockGraphOf] *)

Section BlockGraphValue.
Variables (g b : nat) (G : Graph) (root : Obj string).
Variable sepFn : Graph → string → string → res Q.
Hypothesis Hgb : g ≠ b.

(** The store holds [G] at [g] and the block graph [B] at [b]. *)
Definition holds (σ : Heap) (B : Graph) : Prop :=
  σ !! g = Some G ∧ σ !! b = Some B.

(** Two stores that differ at most at [b]. *)
Definition sameBut (σ σ' : Heap) : Prop :=
  length σ' = length σ ∧ ∀ h, h ≠ b → σ' !! h = σ !! h.

Lemma sameBut_refl (σ : Heap) : sameBut σ σ.
Proof using Type. done. Qed.

Lemma sameBut_trans (σ1 σ2 σ3 : Heap) :
  sameBut σ1 σ2 → sameBut σ2 σ3 → sameBut σ1 σ3.
Proof using Type.
  intros [Hl1 H1] [Hl2 H2]. split; [congruence|].
  intros h Hh. rewrite H2 by done. by apply H1.
Qed.

Lemma updGraph_holds (σ : Heap) (B : Graph) (f : Graph → Graph) :
  holds σ B → holds (alter f b σ) (f B) ∧ sameBut σ (alter f b σ).
Proof using Hgb.
  intros [HG HB]. split; [split|split].
  - by rewrite list_lookup_alter_ne by congruence.
  - by rewrite list_lookup_alter_eq, HB.
  - apply length_alter.
  - intros h Hh. by rewrite list_lookup_alter_ne by congruence.
Qed.

Lemma blockStep_value (σ σ' : Heap) (B : Graph) (u u' : option string) (v : string) :
  holds σ B →
  blockStep g b root sepFn u v σ = (Ok u', σ') →
  ∃ B', blockStepP G root sepFn (B, u) v = Ok (B', u')
        ∧ holds σ' B' ∧ sameBut σ σ'.
Proof using Hgb.
  intros Hh H. unfold blockStep in H.
  apply M_bind_Ok in H as (vRoot & σ1 & H1 & H).
  unfold liftR in H1. injection H1 as H1 <-.
  apply M_bind_Ok in H as ([] & σ2 & H2 & H).
  unfold updGraph in H2. injection H2 as <-.
  destruct (updGraph_holds σ B (fun b0 => setNode b0 vRoot) Hh) as [Hh2 Hs2].
  apply M_bind_Ok in H as ([] & σ3 & H3 & H).
  injection H as <- <-.
  unfold blockStepP. rewrite H1. simpl.
  destruct u as [u0|]; [destruct (truthyId (Some u0))|].
  - apply M_bind_Ok in H3 as (uRoot & σ4 & H4 & H3).
    unfold liftR in H4. injection H4 as H4 <-.
    apply M_bind_Ok in H3 as (B0 & σ5 & H5 & H3).
    unfold readGraph in H5. injection H5 as H5 <-.
    rewrite (proj2 Hh2) in H5. injection H5 as <-.
    apply M_bind_Ok in H3 as (G0 & σ6 & H6 & H3).
    unfold readGraph in H6. injection H6 as H6 <-.
    rewrite (proj1 Hh2) in H6. injection H6 as <-.
    apply M_bind_Ok in H3 as (s & σ7 & H7 & H3).
    unfold liftR in H7. injection H7 as H7 <-.
    unfold updGraph in H3. injection H3 as <-.
    rewrite H4, H7. simpl. eexists. split; [reflexivity|].
    destruct (updGraph_holds _ _ (fun b0 => setEdge b0 uRoot vRoot
                 (Qmax s (orZero (edge (setNode B vRoot) uRoot vRoot)))) Hh2) as [Hh3 Hs3].
    split; [done|]. by eapply sameBut_trans.
  - injection H3 as <-. eexists. split; [reflexivity|]. done.
  - injection H3 as <-. eexists. split; [reflexivity|]. done.
Qed.

Lemma blockLayer_value (layer : list string) :
  ∀ σ σ' B u u',
    holds σ B →
    foldH (blockStep g b root sepFn) layer u σ = (Ok u', σ') →
    ∃ B', foldM (blockStepP G root sepFn) layer (B, u) = Ok (B', u')
          ∧ holds σ' B' ∧ sameBut σ σ'.
Proof using Hgb.
  induction layer as [|v layer IH]; intros σ σ' B u u' Hh H; simpl in H.
  - injection H as <- <-. exists B. done.
  - apply M_bind_Ok in H as (u1 & σ1 & H1 & H).
    destruct (blockStep_value _ _ _ _ _ _ Hh H1) as (B1 & HB1 & Hh1 & Hs1).
    destruct (IH _ _ _ _ _ Hh1 H) as (B' & HB' & Hh' & Hs').
    exists B'. simpl. rewrite HB1. simpl. split; [done|]. split; [done|].
    by eapply sameBut_trans.
Qed.

Lemma blockLayers_value (layering : list (list string)) :
  ∀ σ σ' B,
    holds σ B →
    foldH (fun (_ : unit) layer =>
             foldH (blockStep g b root sepFn) layer None;; mret ())
          layering () σ = (Ok (), σ') →
    ∃ B', foldM (blockLayerP G root sepFn) layering B = Ok B'
          ∧ holds σ' B' ∧ sameBut σ σ'.
Proof using Hgb.
  induction layering as [|layer layering IH]; intros σ σ' B Hh H; simpl in H.
  - injection H as <-. exists B. done.
  - apply M_bind_Ok in H as ([] & σ1 & H1 & H).
    apply M_bind_Ok in H1 as (u' & σ2 & H2 & H1). injection H1 as <-.
    destruct (blockLayer_value layer _ _ _ _ _ Hh H2) as (B1 & HB1 & Hh1 & Hs1).
    destruct (IH _ _ _ Hh1 H) as (B' & HB' & Hh' & Hs').
    exists B'. cbn [foldM].
    assert (blockLayerP G root sepFn B layer = Ok B1) as ->
      by (unfold blockLayerP; by rewrite HB1).
    split; [done|]. split; [done|]. by eapply sameBut_trans.
Qed.
End BlockGraphValue.

Lemma buildBlockGraph_value (g : nat) (G : Graph) (layering : list (list string))
    (root : Obj string) (reverseSep : bool) (σ σ' : Heap) (blockGraph : nat) :
  σ !! g = Some G →
  buildBlockGraph g layering root reverseSep σ = (Ok blockGraph, σ') →
  ∃ B, blockGraphOf G layering root reverseSep = Ok B
       ∧ blockGraph = length σ ∧ σ' = σ ++ [B].
Proof.
  intros HG H. unfold buildBlockGraph in H.
  apply M_bind_Ok in H as (b & σ1 & H1 & H).
  unfold allocGraph in H1. injection H1 as <- <-.
  assert (Hgb : g ≠ length σ) by (apply lookup_lt_Some in HG; lia).
  assert (Hh : holds g (length σ) G (σ ++ [newGraph]) newGraph).
  { split; [by rewrite lookup_app_l by (by eapply lookup_lt_Some)|].
    by rewrite list_lookup_middle. }
  apply M_bind_Ok in H as (G0 & σ2 & H2 & H).
  unfold readGraph in H2. injection H2 as H2 <-.
  rewrite (proj1 Hh) in H2. injection H2 as <-.
  apply M_bind_Ok in H as (gl & σ3 & H3 & H).
  unfold liftR in H3. injection H3 as H3 <-.
  apply M_bind_Ok in H as ([] & σ4 & H4 & H). injection H as <- <-.
  destruct (blockLayers_value g (length σ) G root _ Hgb layering _ _ _ Hh H4)
    as (B & HB & [HG' HB'] & [Hlen Hsame]).
  exists B. unfold blockGraphOf. rewrite H3. simpl. split; [done|]. split; [done|].
  apply list_eq. intros h. destruct (decide (h = length σ)) as [->|Hne].
  - by rewrite HB', list_lookup_middle.
  - rewrite Hsame by done.
    destruct (decide (h < length σ)) as [Hlt|Hge].
    + by rewrite !lookup_app_l.
    + rewrite !lookup_ge_None_2; [done|rewrite length_app; simpl; lia..].
Qed.

(** ** The block graph: one edge per pair of blocks, heavy enough *)

(** One edge per pair of endpoints, between nodes of the graph. *)
Definition wfBlock (B : Graph) : Prop :=
  NoDup (map fst (gedges B))
  ∧ ∀ e, e ∈ gedges B → hasNode B e.1.1 = true ∧ hasNode B e.1.2 = true.

(** The edge from [a] to [b] with a weight of at least [s]. *)
Definition edgeGe (B : Graph) (a b : string) (s : Q) : Prop :=
  ∃ w, (a, b, Some w) ∈ gedges B ∧ (s <= w)%Q.

(** [B'] has the nodes of [B] and its edges, none lighter. *)
Definition grows (B B' : Graph) : Prop :=
  (∀ a b s, edgeGe B a b s → edgeGe B' a b s)
  ∧ (∀ x, hasNode B x = true → hasNode B' x = true).

Lemma grows_refl (B : Graph) : grows B B.
Proof. done. Qed.

Lemma grows_trans (B1 B2 B3 : Graph) : grows B1 B2 → grows B2 B3 → grows B1 B3.
Proof. intros [H1 H1'] [H2 H2']. split; eauto. Qed.

Lemma wfBlock_new : wfBlock newGraph.
Proof. split; [constructor|]. by intros e H%elem_of_nil. Qed.

Lemma wfBlock_setNode (B : Graph) (v : string) :
  wfBlock B → wfBlock (setNode B v) ∧ grows B (setNode B v).
Proof.
  intros [Hnd Hn]. split; [split|split].
  - by rewrite gedges_setNode.
  - intros e He. rewrite gedges_setNode in He. destruct (Hn e He).
    split; by apply hasNode_setNode_mono.
  - intros a b s (w & Hw & Hle). exists w. by rewrite gedges_setNode.
  - intros x. apply hasNode_setNode_mono.
Qed.

Lemma orZero_ge (q : Q) : (q <= orZero (Some q))%Q.
Proof.
  unfold orZero, truthyNum. destruct (Qeq_bool q 0) eqn:E; simpl; [|lra].
  apply Qeq_bool_eq in E. lra.
Qed.

Lemma wfBlock_setEdge (B : Graph) (a b : string) (s : Q) :
  wfBlock B →
  let B' := setEdge B a b (Qmax s (orZero (edge B a b))) in
  wfBlock B' ∧ grows B B' ∧ edgeGe B' a b s.
Proof.
  intros [Hnd Hn]. cbv zeta.
  set (x := Qmax s (orZero (edge B a b))).
  assert (Hnodes : ∀ y, hasNode B y = true → hasNode (setEdge B a b x) y = true).
  { intros y Hy. unfold setEdge, hasNode. simpl.
    by apply hasNode_setNode_mono, hasNode_setNode_mono. }
  assert (Hedges : gedges (setEdge B a b x) = setEdgeLabel (gedges B) a b x).
  { unfold setEdge. simpl. by rewrite !gedges_setNode. }
  split; [split|split; [split|]].
  - rewrite Hedges. by apply setEdgeLabel_NoDup.
  - intros e He. rewrite Hedges in He.
    apply setEdgeLabel_elem in He as [->|He].
    + simpl. unfold setEdge, hasNode. simpl. split.
      * apply hasNode_setNode_mono, hasNode_setNode_same.
      * apply hasNode_setNode_same.
    + destruct (Hn e He). split; by apply Hnodes.
  - intros a' b' s' (w & Hw & Hle). unfold edgeGe. rewrite Hedges.
    destruct (decide ((a', b') = (a, b))) as [[= -> ->]|Hne].
    + exists x. split; [apply setEdgeLabel_new|].
      subst x. rewrite (edge_lookup B a b (Some w) Hnd Hw).
      pose proof (orZero_ge w). pose proof (Q.le_max_r s (orZero (Some w))). lra.
    + exists w. split; [|done]. by apply setEdgeLabel_old.
  - exact Hnodes.
  - exists x. rewrite Hedges. split; [apply setEdgeLabel_new|]. apply Q.le_max_l.
Qed.

Section BlockFacts.
Variables (G : Graph) (root : Obj string).
Variable sepFn : Graph → string → string → res Q.

(** The adjacent pair [x], [y] of a layer has its edge in [B]. *)
Definition pairFact (B : Graph) (x y : string) : Prop :=
  ∃ ru rv s, oget root x = Some ru ∧ oget root y = Some rv
             ∧ sepFn G y x = Ok s ∧ edgeGe B ru rv s.

Definition nodeFact (B : Graph) (v : string) : Prop :=
  ∃ rv, oget root v = Some rv ∧ hasNode B rv = true.

Lemma pairFact_grows (B B' : Graph) (x y : string) :
  grows B B' → pairFact B x y → pairFact B' x y.
Proof using Type.
  intros [Hg _] (ru & rv & s & ? & ? & ? & ?). exists ru, rv, s. eauto.
Qed.

Lemma nodeFact_grows (B B' : Graph) (v : string) :
  grows B B' → nodeFact B v → nodeFact B' v.
Proof using Type. intros [_ Hg] (rv & ? & ?). exists rv. eauto. Qed.

Lemma blockStepP_facts (B B' : Graph) (u u' : option string) (v : string) :
  wfBlock B →
  blockStepP G root sepFn (B, u) v = Ok (B', u') →
  wfBlock B' ∧ grows B B' ∧ u' = Some v ∧ nodeFact B' v
  ∧ ∀ u0, u = Some u0 → u0 ≠ "" → pairFact B' u0 v.
Proof using Type.
  intros Hwf H. unfold blockStepP in H.
  apply res_bind_Ok in H as (vRoot & Hv%ofOption_Ok & H).
  apply res_bind_Ok in H as (B1 & H1 & H). injection H as <- <-.
  simpl in H1.
  destruct (wfBlock_setNode B vRoot Hwf) as [Hwf1 Hg1].
  assert (Hn1 : hasNode (setNode B vRoot) vRoot = true) by apply hasNode_setNode_same.
  destruct u as [u0|]; [destruct (truthyId (Some u0)) eqn:Ht|].
  - apply res_bind_Ok in H1 as (uRoot & Hu%ofOption_Ok & H1).
    apply res_bind_Ok in H1 as (s & Hs & H1). injection H1 as <-.
    destruct (wfBlock_setEdge (setNode B vRoot) uRoot vRoot s Hwf1) as (Hwf2 & Hg2 & He).
    split; [done|]. split; [by eapply grows_trans|]. split; [done|]. split.
    + exists vRoot. split; [done|]. by apply Hg2.
    + intros ? [= <-] _. exists uRoot, vRoot, s. done.
  - injection H1 as <-. split; [done|]. split; [done|]. split; [done|]. split.
    + exists vRoot. done.
    + intros ? [= <-] Hne. simpl in Ht. apply negb_false_iff, String.eqb_eq in Ht. done.
  - injection H1 as <-. split; [done|]. split; [done|]. split; [done|]. split.
    + exists vRoot. done.
    + by intros ? [=].
Qed.

(** The vertex seen before the layer, then the layer. *)
Definition prefixed (u : option string) (layer : list string) : list string :=
  match u with Some u0 => u0 :: layer | None => layer end.

Lemma blockLayer_facts (layer : list string) :
  ∀ B B' u u',
    wfBlock B →
    foldM (blockStepP G root sepFn) layer (B, u) = Ok (B', u') →
    wfBlock B' ∧ grows B B'
    ∧ (∀ v, v ∈ layer → nodeFact B' v)
    ∧ ∀ i x y, prefixed u layer !! i = Some x → prefixed u layer !! S i = Some y →
               x ≠ "" → pairFact B' x y.
Proof using Type.
  induction layer as [|v layer IH]; intros B B' u u' Hwf H; simpl in H.
  - injection H as <- <-. split; [done|]. split; [done|]. split.
    + by intros v Hv%elem_of_nil.
    + intros i x y _ Hy. destruct u; [destruct i|]; done.
  - apply res_bind_Ok in H as ([B1 u1] & H1 & H).
    destruct (blockStepP_facts _ _ _ _ _ Hwf H1) as (Hwf1 & Hg1 & -> & Hn1 & Hp1).
    destruct (IH _ _ _ _ Hwf1 H) as (Hwf' & Hg' & Hn' & Hp').
    split; [done|]. split; [by eapply grows_trans|]. split.
    + intros v' [->|Hv']%elem_of_cons; [by eapply nodeFact_grows|by apply Hn'].
    + intros i x y Hx Hy Hne. destruct u as [u0|]; simpl in Hx, Hy.
      * destruct i as [|i]; simpl in Hx, Hy.
        -- injection Hx as <-. injection Hy as <-.
           eapply pairFact_grows; [exact Hg'|]. by apply Hp1.
        -- by apply (Hp' i).
      * by apply (Hp' i).
Qed.

Lemma blockLayers_facts (layering : list (list string)) :
  ∀ B B',
    wfBlock B →
    foldM (blockLayerP G root sepFn) layering B = Ok B' →
    wfBlock B' ∧ grows B B'
    ∧ ∀ layer, layer ∈ layering →
        (∀ v, v ∈ layer → nodeFact B' v)
        ∧ ∀ i x y, layer !! i = Some x → layer !! S i = Some y →
                   x ≠ "" → pairFact B' x y.
Proof using Type.
  induction layering as [|layer layering IH]; intros B B' Hwf H; simpl in H.
  - injection H as <-. split; [done|]. split; [done|]. by intros l Hl%elem_of_nil.
  - apply res_bind_Ok in H as (B1 & H1 & H).
    unfold blockLayerP in H1.
    apply res_bind_Ok in H1 as ([B2 u2] & H2 & H1). injection H1 as <-.
    destruct (blockLayer_facts layer _ _ _ _ Hwf H2) as (Hwf1 & Hg1 & Hn1 & Hp1).
    simpl in H. destruct (IH _ _ Hwf1 H) as (Hwf' & Hg' & Hall).
    split; [done|]. split; [by eapply grows_trans|].
    intros l [->|Hl]%elem_of_cons; [|by apply Hall]. split.
    + intros v Hv. eapply nodeFact_grows; [exact Hg'|]. by apply Hn1.
    + intros i x y Hx Hy Hne. eapply pairFact_grows; [exact Hg'|]. by apply (Hp1 i).
Qed.
End BlockFacts.

(** ** The first sweep *)

Section Sweeps.
Variable B : Graph.
Hypothesis Hwf : wfBlock B.








End Sweeps.

(** ** The second sweep *)

Section SecondSweep.
Variables (G B : Graph) (borderType : string).
Hypothesis Hwf : wfBlock B.

(** Coordinates only grow, and no node gains or loses its coordinate. *)
Definition grown (st st' : sweep) : Prop :=
  (∀ u x, oget st.2 u = Some x → ∃ x', oget st'.2 u = Some x' ∧ (x <= x')%Q)
  ∧ (∀ u, is_Some (oget st'.2 u) → is_Some (oget st.2 u)).

Lemma grown_refl (st : sweep) : grown st st.
Proof using Type. split; [|done]. intros u x Hx. exists x. split; [done|lra]. Qed.

Lemma grown_trans (st1 st2 st3 : sweep) : grown st1 st2 → grown st2 st3 → grown st1 st3.
Proof using Type.
  intros [H1 D1] [H2 D2]. split; [|by eauto].
  intros u x Hx. destruct (H1 u x Hx) as (x' & Hx' & Hle).
  destruct (H2 u x' Hx') as (x'' & Hx'' & Hle'). exists x''. split; [done|lra].
Qed.





End SecondSweep.


(** ** The final assignment *)

Section Assign.
Variables (root : Obj string) (xs2 : Obj Q).

(** After the values [seen] of [align]: a vertex that is its own root has
    its coordinate of the sweeps, and a value that was seen has the
    coordinate of its root. *)
Definition assignInv (seen : list string) (cur : Obj Q) : Prop :=
  (∀ r, oget root r = Some r → oget cur r = oget xs2 r)
  ∧ ∀ a, a ∈ seen →
      ∃ r, oget root a = Some r ∧ oget cur a = oget xs2 r ∧ is_Some (oget xs2 r).

Lemma assignAll_inv (vals : list string) :
  (∀ a, a ∈ vals → ∃ r, oget root a = Some r ∧ oget root r = Some r) →
  ∀ seen cur xs,
    assignInv seen cur →
    foldM (assignStep root) vals cur = Ok xs →
    assignInv (seen ++ vals) xs.
Proof using Type.
  induction vals as [|a vals IH]; intros Hfix seen cur xs Hinv H; simpl in H.
  - injection H as <-. by rewrite app_nil_r.
  - apply res_bind_Ok in H as (cur' & Ha & H).
    replace (seen ++ a :: vals) with ((seen ++ [a]) ++ vals) by by rewrite <- app_assoc.
    apply (IH (fun a' Ha' => Hfix a' (list_elem_of_further _ _ _ Ha')) _ cur'); [|done].
    destruct Hinv as [Hroots Hseen].
    unfold assignStep in Ha.
    apply res_bind_Ok in Ha as (r & Hr%ofOption_Ok & Ha).
    apply res_bind_Ok in Ha as (x & Hx%ofOption_Ok & Ha). injection Ha as <-.
    destruct (Hfix a ltac:(left)) as (r' & Hr' & Hrr).
    rewrite Hr in Hr'. injection Hr' as <-.
    assert (Hx2 : oget xs2 r = Some x) by (by rewrite <- (Hroots r Hrr)).
    split.
    + intros r0 Hr0. destruct (decide (a = r0)) as [<-|Hne].
      * rewrite oget_oset_eq. rewrite Hr in Hr0. injection Hr0 as ->. done.
      * rewrite oget_oset_ne by done. by apply Hroots.
    + intros a0 [Ha0|Ha0]%elem_of_app;
        [|apply list_elem_of_singleton in Ha0 as ->].
      * destruct (Hseen a0 Ha0) as (r0 & Hr0 & Hc & Hs).
        exists r0. split; [done|]. split; [|done].
        destruct (decide (a = a0)) as [<-|Hne].
        -- rewrite oget_oset_eq. rewrite Hr in Hr0. injection Hr0 as <-. done.
        -- by rewrite oget_oset_ne.
      * exists r. split; [done|]. rewrite oget_oset_eq. by rewrite Hx2.
Qed.
End Assign.


(** ** Separation of the neighbours on a layer *)


(** Every value of [align] has a root, and that root is its own root. *)
Definition rootsFixed (root align : Obj string) : Prop :=
  ∀ a, a ∈ ovalues align → ∃ r, oget root a = Some r ∧ oget root r = Some r.


Lemma compact_inv (G B : Graph) (root align : Obj string) (reverseSep : bool)
    (xs : Obj Q) :
  compact G B root align reverseSep = Ok xs →
  ∃ st1 st2, firstSweep B = Ok st1 ∧ secondSweep G B reverseSep st1 = Ok st2
             ∧ assignAll root align st2.2 = Ok xs.
Proof.
  unfold compact. intros H.
  apply res_bind_Ok in H as (st1 & H1 & H).
  apply res_bind_Ok in H as (st2 & H2 & H). by exists st1, st2.
Qed.



(** The blocks of [graphVA], as [verticalAlignment] finds them: [c] below
    [a] and [d] below [b]. *)
Definition blocksVA : Obj string * Obj string :=
  verticalAlignment graphVA [["a"; "b"]; ["c"; "d"]] ∅ (predecessors graphVA).







(** ** The sweeps do not run out of fuel *)

(** [r] is a value that satisfies [P], or an error of the source. *)
Definition noFuelErr {A} (r : res A) (P : A → Prop) : Prop :=
  match r with
  | Ok a => P a
  | Throw e => e ≠ OutOfFuel
  end.

Lemma noFuelErr_bind {A C} (m : res A) (k : A → res C) (P : A → Prop) (Q : C → Prop) :
  noFuelErr m P → (∀ a, P a → noFuelErr (k a) Q) → noFuelErr (m ≫= k) Q.
Proof. destruct m as [a|e]; simpl; [|done]. intros Ha Hk. by apply Hk. Qed.

Lemma noFuelErr_ofOption {A} (e : err) (o : option A) :
  e ≠ OutOfFuel → noFuelErr (ofOption e o) (fun a => o = Some a).
Proof. by destruct o. Qed.

Lemma noFuelErr_weaken {A} (r : res A) (P Q : A → Prop) :
  noFuelErr r P → (∀ a, P a → Q a) → noFuelErr r Q.
Proof. destruct r; simpl; eauto. Qed.

Lemma noFuelErr_foldM {A C} (I : list A → C → Prop) (f : C → A → res C) (l : list A) :
  (∀ seen a b, I seen b → a ∈ l → noFuelErr (f b a) (I (seen ++ [a]))) →
  ∀ seen b, I seen b → noFuelErr (foldM f l b) (I (seen ++ l)).
Proof.
  induction l as [|a l IH]; intros Hf seen b Hb; simpl.
  - by rewrite app_nil_r.
  - apply (noFuelErr_bind _ _ (I (seen ++ [a]))); [apply Hf; [done|left]|].
    intros b' Hb'.
    replace (seen ++ a :: l) with ((seen ++ [a]) ++ l) by by rewrite <- app_assoc.
    apply IH; [|done]. intros seen' a' b'' ? ?. apply Hf; [done|by right].
Qed.

Lemma filter_length_le {A} (P Q : A → Prop)
    `{!∀ x, Decision (P x)} `{!∀ x, Decision (Q x)} (l : list A) :
  (∀ x, x ∈ l → Q x → P x) →
  length (filter Q l) ≤ length (filter P l).
Proof.
  induction l as [|a l IH]; intros Hpq; [done|].
  rewrite !filter_cons.
  assert (IH' : length (filter Q l) ≤ length (filter P l))
    by (apply IH; intros x ?; apply Hpq; by right).
  destruct (decide (Q a)) as [Hq|Hq].
  - rewrite decide_True by (apply Hpq; [left|done]). simpl. lia.
  - destruct (decide (P a)); simpl; lia.
Qed.

Lemma filter_length_lt {A} (P Q : A → Prop)
    `{!∀ x, Decision (P x)} `{!∀ x, Decision (Q x)} (l : list A) (v : A) :
  (∀ x, x ∈ l → Q x → P x) → v ∈ l → P v → ¬ Q v →
  length (filter Q l) < length (filter P l).
Proof.
  induction l as [|a l IH]; intros Hpq Hv Hp Hq; [by apply elem_of_nil in Hv|].
  rewrite !filter_cons.
  assert (Hl : ∀ x, x ∈ l → Q x → P x) by (intros x ?; apply Hpq; by right).
  pose proof (filter_length_le P Q l Hl) as Hle.
  apply elem_of_cons in Hv as [<-|Hv].
  - rewrite decide_False by done. rewrite decide_True by done. simpl. lia.
  - specialize (IH Hl Hv Hp Hq).
    destruct (decide (Q a)) as [Hqa|Hqa].
    + rewrite decide_True by (apply Hpq; [left|done]). simpl. lia.
    + destruct (decide (P a)); simpl; lia.
Qed.

Section Fuel.
Variables (G B : Graph) (borderType : string).
Hypothesis Hwf : wfBlock B.

(** The nodes that the first sweep has not marked yet. *)
Definition unmarked1 (vis : gmap string nat) : list string :=
  filter (fun u => vis !! u = None) (nodes B).

(** The nodes that the second sweep has not marked yet. *)
Definition unmarked2 (vis : gmap string nat) : list string :=
  filter (fun u => vis !! u ≠ Some 2%nat) (nodes B).

(** All marks are those of the first sweep. *)
Definition ones (vis : gmap string nat) : Prop :=
  ∀ u n, vis !! u = Some n → n = 1%nat.

Definition onesOrTwos (vis : gmap string nat) : Prop :=
  ∀ u n, vis !! u = Some n → n = 1%nat ∨ n = 2%nat.

Definition pass1Done (st : sweep) (v : string) (st' : sweep) : Prop :=
  (∀ u, is_Some (st.1 !! u) → is_Some (st'.1 !! u))
  ∧ ones st'.1 ∧ is_Some (st'.1 !! v).

Lemma pass1_fuel (fuel : nat) :
  ∀ v st,
    v ∈ nodes B → ones st.1 → length (unmarked1 st.1) < fuel →
    noFuelErr (pass1 fuel B v st) (pass1Done st v).
Proof using Hwf.
  induction fuel as [|fuel IH]; intros v st Hv Hones Hlen; [lia|]. simpl.
  destruct (bool_decide (is_Some (st.1 !! v))) eqn:Hvis.
  { apply bool_decide_eq_true in Hvis. simpl. done. }
  apply bool_decide_eq_false in Hvis.
  assert (Hnone : st.1 !! v = None) by (by apply eq_None_not_Some).
  set (st1 := (<[v:=1%nat]> st.1, st.2)).
  assert (Hlt : length (unmarked1 st1.1) < length (unmarked1 st.1)).
  { apply (filter_length_lt _ _ _ v); [|done|done|].
    - intros x _. simpl. destruct (decide (v = x)) as [<-|Hne].
      + by rewrite lookup_insert_eq.
      + by rewrite lookup_insert_ne.
    - simpl. by rewrite lookup_insert_eq. }
  assert (Hkeep : ∀ u, is_Some (st.1 !! u) → is_Some (st1.1 !! u)).
  { intros u Hu. simpl. destruct (decide (v = u)) as [<-|Hne].
    - by rewrite lookup_insert_eq.
    - by rewrite lookup_insert_ne. }
  assert (Hones1 : ones st1.1).
  { intros u n. simpl. destruct (decide (v = u)) as [<-|Hne].
    - rewrite lookup_insert_eq. by intros [= <-].
    - rewrite lookup_insert_ne by done. apply Hones. }
  set (I := fun (_ : list (string * string * option Q)) (acc : sweep * Q) =>
              (∀ u, is_Some (st1.1 !! u) → is_Some (acc.1.1 !! u)) ∧ ones acc.1.1).
  eapply noFuelErr_bind.
  - apply (noFuelErr_foldM I _ _) with (seen := []); [|by split].
    intros seen e acc [Hg Ho] He. unfold pass1Edge.
    apply inEdges_elem in He as (_ & He & _).
    assert (Hsrc : e.1.1 ∈ nodes B) by (apply hasNode_nodes; by apply (proj2 Hwf e He)).
    eapply noFuelErr_bind.
    + apply IH; [done|done|].
      assert (length (unmarked1 acc.1.1) ≤ length (unmarked1 st1.1)); [|lia].
      apply filter_length_le. intros x _ Hx.
      apply eq_None_not_Some. intros Hs. apply Hg in Hs. rewrite Hx in Hs.
      by destruct Hs.
    + intros st' (Hg' & Ho' & _).
      eapply noFuelErr_bind; [by apply noFuelErr_ofOption|]. intros x _.
      eapply noFuelErr_bind; [by apply noFuelErr_ofOption|]. intros w _.
      simpl. split; [|done]. intros u Hu. by apply Hg', Hg.
  - intros [st' max] [Hg Ho]. simpl in *. split; [by eauto|]. split; [done|].
    apply Hg. by rewrite lookup_insert_eq.
Qed.

Lemma firstSweep_fuel :
  noFuelErr (firstSweep B) (fun st => ones st.1).
Proof using Hwf.
  unfold firstSweep.
  eapply noFuelErr_weaken.
  - apply (noFuelErr_foldM (fun _ (st : sweep) => ones st.1) _ _) with (seen := []).
    + intros _ v st Ho Hv.
      eapply noFuelErr_weaken.
      * apply pass1_fuel; [done|done|].
        unfold unmarked1. pose proof (length_filter (fun u => st.1 !! u = None) (nodes B)). lia.
      * by intros st' (_ & ? & _).
    + intros u n Hu. simpl in Hu. by rewrite lookup_empty in Hu.
  - done.
Qed.

Definition pass2Done (st st' : sweep) : Prop :=
  (∀ u, st.1 !! u = Some 2%nat → st'.1 !! u = Some 2%nat)
  ∧ onesOrTwos st'.1.

Lemma pass2_fuel (fuel : nat) :
  ∀ v st,
    v ∈ nodes B → onesOrTwos st.1 → length (unmarked2 st.1) < fuel →
    noFuelErr (pass2 fuel G B borderType v st) (pass2Done st).
Proof using Hwf.
  induction fuel as [|fuel IH]; intros v st Hv Hmarks Hlen; [lia|]. simpl.
  destruct (bool_decide (st.1 !! v = Some 2%nat)) eqn:Hvis.
  { simpl. done. }
  apply bool_decide_eq_false in Hvis.
  eapply noFuelErr_bind; [by apply noFuelErr_ofOption|]. intros n Hn.
  assert (n = 1%nat) as ->.
  { destruct (Hmarks v n Hn) as [->| ->]; [done|]. by rewrite Hn in Hvis. }
  set (st1 := (<[v:=2%nat]> st.1, st.2)).
  assert (Hlt : length (unmarked2 st1.1) < length (unmarked2 st.1)).
  { apply (filter_length_lt _ _ _ v); [|done|done|].
    - intros x _. simpl. destruct (decide (v = x)) as [<-|Hne].
      + rewrite lookup_insert_eq. intros Hx. by destruct Hx.
      + by rewrite lookup_insert_ne.
    - simpl. rewrite lookup_insert_eq. intros Hx. by apply Hx. }
  assert (Hkeep : ∀ u, st.1 !! u = Some 2%nat → st1.1 !! u = Some 2%nat).
  { intros u Hu. simpl. destruct (decide (v = u)) as [<-|Hne].
    - by rewrite lookup_insert_eq.
    - by rewrite lookup_insert_ne. }
  assert (Hmarks1 : onesOrTwos st1.1).
  { intros u n. simpl. destruct (decide (v = u)) as [<-|Hne].
    - rewrite lookup_insert_eq. intros [= <-]. by right.
    - rewrite lookup_insert_ne by done. apply Hmarks. }
  set (I := fun (_ : list (string * string * option Q)) (acc : sweep * option Q) =>
              (∀ u, st1.1 !! u = Some 2%nat → acc.1.1 !! u = Some 2%nat)
              ∧ onesOrTwos acc.1.1).
  eapply noFuelErr_bind.
  - apply (noFuelErr_foldM I _ _) with (seen := []); [|by split].
    intros seen e acc [Hg Ho] He. unfold pass2Edge.
    apply outEdges_elem in He as (_ & He & _).
    assert (Htgt : e.1.2 ∈ nodes B) by (apply hasNode_nodes; by apply (proj2 Hwf e He)).
    eapply noFuelErr_bind.
    + apply IH; [done|done|].
      assert (length (unmarked2 acc.1.1) ≤ length (unmarked2 st1.1)); [|lia].
      apply filter_length_le. intros x _ Hx Hs. by apply Hx, Hg.
    + intros st' (Hg' & Ho').
      eapply noFuelErr_bind; [by apply noFuelErr_ofOption|]. intros x _.
      eapply noFuelErr_bind; [by apply noFuelErr_ofOption|]. intros w _.
      simpl. split; [|done]. intros u Hu. by apply Hg', Hg.
  - intros [st' min] [Hg Ho]. simpl in *.
    assert (Hdone : pass2Done st st') by (split; [by eauto|done]).
    destruct min as [m|]; [|done].
    eapply noFuelErr_bind with (P := fun _ => True).
    { unfold node. by destruct (oget (gnodes G) v) as [[?|]|]. }
    intros nd _. destruct (bool_decide _); [|done].
    eapply noFuelErr_bind; [by apply noFuelErr_ofOption|]. intros x _. done.
Qed.
End Fuel.

Lemma secondSweep_fuel (G B : Graph) (reverseSep : bool) (st : sweep) :
  wfBlock B → ones st.1 →
  noFuelErr (secondSweep G B reverseSep st) (fun _ => True).
Proof.
  intros Hwf Hones. unfold secondSweep.
  eapply noFuelErr_weaken.
  - apply (noFuelErr_foldM (fun _ (st : sweep) => onesOrTwos st.1) _ _)
      with (seen := []).
    + intros _ v st0 Ho Hv.
      eapply noFuelErr_weaken.
      * apply pass2_fuel; [done|done|done|].
        unfold unmarked2.
        pose proof (length_filter (fun u => st0.1 !! u ≠ Some 2%nat) (nodes B)). lia.
      * by intros st' [_ ?].
    + intros u n Hu. left. by apply (Hones u).
  - done.
Qed.

Lemma assignAll_fuel (root align : Obj string) (xs : Obj Q) :
  noFuelErr (assignAll root align xs) (fun _ => True).
Proof.
  unfold assignAll.
  eapply noFuelErr_weaken.
  - apply (noFuelErr_foldM (fun _ _ => True) _ _) with (seen := []); [|done].
    intros _ v cur _ _. unfold assignStep.
    eapply noFuelErr_bind; [by apply noFuelErr_ofOption|]. intros r _.
    eapply noFuelErr_bind; [by apply noFuelErr_ofOption|]. intros x _. done.
  - done.
Qed.

(** On a block graph the two sweeps and the assignment end within the fuel
    that [firstSweep] and [secondSweep] give them: an error of [compact] is
    an error of the source. *)
Lemma compact_fuel (G B : Graph) (root align : Obj string) (reverseSep : bool) :
  wfBlock B → compact G B root align reverseSep ≠ Throw OutOfFuel.
Proof.
  intros Hwf.
  assert (H : noFuelErr (compact G B root align reverseSep) (fun _ => True)).
  { unfold compact.
    eapply noFuelErr_bind; [by apply firstSweep_fuel|]. intros st1 Hones.
    eapply noFuelErr_bind; [by apply secondSweep_fuel|]. intros st2 _.
    apply assignAll_fuel. }
  destruct (compact G B root align reverseSep); [done|]. simpl in H. congruence.
Qed.

(** X15: the two depth-first sweeps of [horizontalCompaction] end on every
    block graph that [buildBlockGraph] builds, with or without a cycle: a
    call marks its node before it goes on to the neighbours, so that no
    sweep goes deeper than the number of nodes of the block graph, the bound
    that [firstSweep] and [secondSweep] give to [pass1] and [pass2].  What
    [horizontalCompaction] returns is a map of coordinates or an error of
    the source, never [OutOfFuel]. *)
Lemma horizontalCompaction_fuel (g : nat) (G : Graph) (layering : list (list string))
    (root align : Obj string) (reverseSep : bool) (σ σ1 : Heap) (blockG : nat) :
  σ !! g = Some G →
  buildBlockGraph g layering root reverseSep σ = (Ok blockG, σ1) →
  ∃ B, σ1 = σ ++ [B]
       ∧ horizontalCompaction g layering root align reverseSep σ
         = (compact G B root align reverseSep, σ1)
       ∧ compact G B root align reverseSep ≠ Throw OutOfFuel.
Proof.
  intros Hg Hb.
  destruct (buildBlockGraph_value _ _ _ _ _ _ _ _ Hg Hb) as (B & HB & -> & ->).
  exists B. split; [done|].
  unfold blockGraphOf in HB.
  apply res_bind_Ok in HB as (gl & Hgl & HB).
  destruct (blockLayers_facts _ _ _ _ _ _ wfBlock_new HB) as (Hwf & _).
  split; [|by apply compact_fuel].
  unfold horizontalCompaction, mbind, M_bind. rewrite Hb.
  unfold readGraph. rewrite list_lookup_middle by done. simpl.
  by rewrite (lookup_app_l_Some _ _ _ _ Hg).
Qed.

(** * Further properties of bk.js *)

(** ** The conflict store: what a marked pair is *)

(** X1: [addConflict(c, v, w)] adds the unordered pair of [v] and [w] and
    nothing else: afterwards [hasConflict] holds of [a] and [b] exactly when
    it held before or [a], [b] are [v], [w] in one of the two orders. *)
Theorem addConflict_adds_one_pair :
  ∀ (c : gmap string (gset string)) (v w a b : string),
    hasConflict (addConflict c v w) a b = true
    ↔ hasConflict c a b = true ∨ (a = v ∧ b = w) ∨ (a = w ∧ b = v).
Proof.
  intros c v w a b. split; [apply hasConflict_addConflict|].
  assert (Hvw : hasConflict (addConflict c v w) v w = true).
  { unfold hasConflict, addConflict.
    destruct (idGt v w); rewrite lookup_insert_eq;
      apply bool_decide_eq_true; set_solver. }
  intros [H|[[-> ->]|[-> ->]]]; [|done|by rewrite hasConflict_sym].
  revert H. unfold hasConflict, addConflict.
  fold (canon a b). fold (canon v w).
  destruct (canon a b) as [x y]. destruct (canon v w) as [p q].
  destruct (decide (p = x)) as [->|Hne].
  - rewrite lookup_insert_eq.
    destruct (c !! x) as [cx|]; [|done]. simpl.
    intros H%bool_decide_eq_true. apply bool_decide_eq_true. set_solver.
  - by rewrite lookup_insert_ne.
Qed.

(** Every marked pair satisfies [P] in one of its two orders. *)
Definition marksOnly (P : string → string → Prop)
    (c : gmap string (gset string)) : Prop :=
  ∀ a b, hasConflict c a b = true → P a b ∨ P b a.

Lemma marksOnly_empty (P : string → string → Prop) : marksOnly P ∅.
Proof.
  intros a b H. unfold hasConflict in H.
  destruct (idGt a b); by rewrite lookup_empty in H.
Qed.

Lemma marksOnly_add (P : string → string → Prop)
    (c : gmap string (gset string)) (u s : string) :
  marksOnly P c → P u s → marksOnly P (addConflict c u s).
Proof.
  intros Hc Hus a b H.
  apply hasConflict_addConflict in H as [H|[[-> ->]|[-> ->]]]; auto.
Qed.

Lemma slice_elem {A} (l : list A) (from to : nat) (x : A) :
  x ∈ slice l from to → x ∈ l.
Proof.
  unfold slice. intros H. apply elem_of_take in H as (i & Hi & _).
  rewrite lookup_drop in Hi. by eapply list_elem_of_lookup_2.
Qed.

(** [v] lies on a layer that has a layer before it. *)
Definition onLowerLayer (layering : list (list string)) (v : string) : Prop :=
  ∃ i south, layering !! S i = Some south ∧ v ∈ south.

(** The edge from [u] to [v] enters a layer that is not the first. *)
Definition edgeInto (g : Graph) (layering : list (list string)) (u v : string) : Prop :=
  u ∈ predecessors g v ∧ onLowerLayer layering v.

Lemma type1VisitLayer_marks (g : Graph) (layering : list (list string))
    (prevLayer layer : list string) (i : nat) (c c' : gmap string (gset string)) :
  layering !! S i = Some layer →
  marksOnly (edgeInto g layering) c →
  type1VisitLayer g c prevLayer layer = Ok c' →
  marksOnly (edgeInto g layering) c'.
Proof.
  intros Hl Hc. unfold type1VisitLayer. intros H.
  apply res_bind_Ok in H as (st & E & [= <-]).
  revert E. apply (foldM_inv (fun st => marksOnly (edgeInto g layering) st.2)); [|done].
  intros [[k0 scanPos] c0] [j v] st' Hc0 _. simpl in Hc0. unfold type1Step.
  intros H. apply res_bind_Ok in H as (w & _ & H).
  apply res_bind_Ok in H as (k1 & _ & H).
  destruct (_ || _); [|by injection H as <-].
  apply res_bind_Ok in H as (c1 & E1 & [= <-]). simpl.
  revert E1. unfold type1Scan. apply foldM_inv; [|done].
  intros c2 scanNode c3 Hc2 Hscan. apply foldM_inv; [|done].
  intros c4 u c5 Hc4 Hu. unfold type1Mark. intros H.
  apply res_bind_Ok in H as (uLabel & _ & H).
  assert (Hedge : edgeInto g layering u scanNode).
  { split; [done|]. exists i, layer. split; [done|]. by eapply slice_elem. }
  destruct (_ || _); [|by injection H as <-].
  destruct (truthy (Label.dummy uLabel)).
  - apply res_bind_Ok in H as (sLabel & _ & H).
    destruct (truthy (Label.dummy sLabel)); injection H as <-; [done|].
    by apply marksOnly_add.
  - injection H as <-. by apply marksOnly_add.
Qed.

Lemma findType1Conflicts_marks (g : Graph) (layering : list (list string))
    (c : gmap string (gset string)) :
  findType1Conflicts g layering = Ok c →
  marksOnly (edgeInto g layering) c ∧ sparesInner g c.
Proof.
  intros Hc. split.
  - revert Hc. unfold findType1Conflicts.
    apply reduceLayering_inv_pairs; [|apply marksOnly_empty].
    intros s north south s' i Hs _ Hso. by apply (type1VisitLayer_marks _ _ _ _ i).
  - unfold findType1Conflicts, reduceLayering in Hc.
    destruct layering as [|first rest].
    + injection Hc as <-. apply sparesInner_empty.
    + revert Hc. apply reduceLayers_inv; [|apply sparesInner_empty].
      intros s prev layer s' Hs _. by apply type1VisitLayer_spares.
Qed.

(** X2: every pair that [findType1Conflicts] marks is an edge of the graph
    that enters a layer other than the first one: the pair consists of a
    vertex [v] of such a layer and one of its predecessors [u], and [u] and
    [v] are not both dummies. *)
Theorem findType1Conflicts_marks_edges :
  ∀ (g : Graph) (layering : list (list string)) (c : gmap string (gset string))
    (a b : string),
    findType1Conflicts g layering = Ok c →
    hasConflict c a b = true →
    ∃ u v, ((a = u ∧ b = v) ∨ (a = v ∧ b = u))
           ∧ u ∈ predecessors g v
           ∧ (∃ i south, layering !! S i = Some south ∧ v ∈ south)
           ∧ ¬ (isDummy g u ∧ isDummy g v).
Proof.
  intros g layering c a b Hc Hab.
  destruct (findType1Conflicts_marks g layering c Hc) as [Hm Hs].
  destruct (Hm a b Hab) as [[Hp Hl]|[Hp Hl]].
  - exists a, b. split; [by left|]. split; [done|]. split; [done|].
    by apply Hs.
  - exists b, a. split; [by right|]. split; [done|]. split; [done|].
    apply Hs. by rewrite hasConflict_sym.
Qed.

Lemma findType1Conflicts_marks_edges_witness :
  ∃ c, findType1Conflicts graphT1 [["p"; "q"]; ["x"; "y"]] = Ok c
       ∧ ∃ u v, (("q" = u ∧ "x" = v) ∨ ("q" = v ∧ "x" = u))
                ∧ u ∈ predecessors graphT1 v
                ∧ (∃ i south, [["p"; "q"]; ["x"; "y"]] !! S i = Some south ∧ v ∈ south)
                ∧ ¬ (isDummy graphT1 u ∧ isDummy graphT1 v).
Proof.
  eexists. split; [vm_compute; reflexivity|].
  refine (findType1Conflicts_marks_edges graphT1 [["p"; "q"]; ["x"; "y"]] _
            "q" "x" _ _); vm_compute; reflexivity.
Defined.

(** The edge from [u] to [v] is an inner segment into a layer that is not
    the first. *)
Definition innerInto (g : Graph) (layering : list (list string)) (u v : string) : Prop :=
  edgeInto g layering u v ∧ isDummy g u ∧ isDummy g v.

Lemma scan_marks (g : Graph) (layering : list (list string)) (south : list string)
    (i southPos southEnd : nat) (prevNorthBorder : option Z) (nextNorthBorder : Z)
    (c c' : gmap string (gset string)) :
  layering !! S i = Some south →
  marksOnly (innerInto g layering) c →
  scan g south southPos southEnd prevNorthBorder nextNorthBorder c = Ok c' →
  marksOnly (innerInto g layering) c'.
Proof.
  intros Hl Hc. unfold scan. apply foldM_inv; [|done].
  intros c0 j c1 Hc0 _ H.
  apply res_bind_Ok in H as (v & Hv%ofOption_Ok & H).
  apply res_bind_Ok in H as (vLabel & Hvl & H).
  destruct (truthy (Label.dummy vLabel)) eqn:Edv; [|by injection H as <-].
  revert H. apply foldM_inv; [|done].
  intros c2 u c3 Hc2 Hu. unfold type2Mark. intros H.
  apply res_bind_Ok in H as (uNode & Hul & H).
  destruct (truthy (Label.dummy uNode)) eqn:Edu; simpl in H;
    [|by injection H as <-].
  destruct (_ || _); injection H as <-; [|done].
  apply marksOnly_add; [done|].
  split; [|split; eexists; eauto].
  split; [done|]. exists i, south. split; [done|]. by eapply list_elem_of_lookup_2.
Qed.

Lemma findType2Conflicts_marks (g : Graph) (layering : list (list string))
    (c : gmap string (gset string)) :
  findType2Conflicts g layering = Ok c → marksOnly (innerInto g layering) c.
Proof.
  unfold findType2Conflicts.
  apply reduceLayering_inv_pairs; [|apply marksOnly_empty].
  intros s north south s' i Hs _ Hso. unfold type2VisitLayer. intros H.
  apply res_bind_Ok in H as (st & E & [= <-]).
  revert E. apply (foldM_inv (fun st => marksOnly (innerInto g layering) st.2)); [|done].
  intros [[[pnp nnp] sp] c0] [j v] st' Hc0 _. simpl in Hc0. unfold type2Step.
  intros H. apply res_bind_Ok in H as (vLabel & _ & H).
  apply res_bind_Ok in H as ([[[pnp' nnp'] sp'] c1] & E1 & H).
  apply res_bind_Ok in H as (c2 & E2 & [= <-]). simpl.
  eapply scan_marks; [exact Hso| |exact E2].
  destruct (bool_decide _); [|by injection E1 as <- <- <- <-].
  destruct (predecessors g v) as [|p ps]; [by injection E1 as <- <- <- <-|].
  apply res_bind_Ok in E1 as (pLabel & _ & E1).
  apply res_bind_Ok in E1 as (c3 & E3 & [= <- <- <- <-]).
  eapply scan_marks; [exact Hso|exact Hc0|exact E3].
Qed.

(** X3: every pair that [findType2Conflicts] marks is an inner segment:
    an edge from a predecessor [u] to a vertex [v] of a layer other than the
    first, with [u] and [v] both dummies. *)
Theorem findType2Conflicts_marks_inner_segments :
  ∀ (g : Graph) (layering : list (list string)) (c : gmap string (gset string))
    (a b : string),
    findType2Conflicts g layering = Ok c →
    hasConflict c a b = true →
    ∃ u v, ((a = u ∧ b = v) ∨ (a = v ∧ b = u))
           ∧ u ∈ predecessors g v
           ∧ (∃ i south, layering !! S i = Some south ∧ v ∈ south)
           ∧ isDummy g u ∧ isDummy g v.
Proof.
  intros g layering c a b Hc Hab.
  destruct (findType2Conflicts_marks g layering c Hc a b Hab)
    as [[[Hp Hl] Hd]|[[Hp Hl] Hd]].
  - exists a, b. split; [by left|]. done.
  - exists b, a. split; [by right|]. done.
Qed.

(** Two layers with a border dummy [s1] below the border dummy [n0], and
    the inner segment from [n2] to [s0] that crosses to its left. *)
Definition graphT2 : Graph :=
  mkGraph (Some (GLabel.mk 50 10 AUndef))
          [("n0", Some (Label.mk 0 0 0 (AStr "border") None None));
           ("n1", Some (lbl 0 1 50));
           ("n2", Some (Label.mk 0 2 10 (AStr "edge") None None));
           ("s0", Some (Label.mk 1 0 10 (AStr "edge") None None));
           ("s1", Some (Label.mk 1 1 0 (AStr "border") None None))]
          [("n2", "s0", None); ("n0", "s1", None)].

Lemma findType2Conflicts_marks_inner_segments_witness :
  ∃ c, findType2Conflicts graphT2 [["n0"; "n1"; "n2"]; ["s0"; "s1"]] = Ok c
       ∧ ∃ u v, (("n2" = u ∧ "s0" = v) ∨ ("n2" = v ∧ "s0" = u))
                ∧ u ∈ predecessors graphT2 v
                ∧ (∃ i south, [["n0"; "n1"; "n2"]; ["s0"; "s1"]] !! S i = Some south
                              ∧ v ∈ south)
                ∧ isDummy graphT2 u ∧ isDummy graphT2 v.
Proof.
  eexists. split; [vm_compute; reflexivity|].
  refine (findType2Conflicts_marks_inner_segments graphT2
            [["n0"; "n1"; "n2"]; ["s0"; "s1"]] _ "n2" "s0" _ _);
    vm_compute; reflexivity.
Defined.

Lemma hasConflict_mergeConflicts (c1 c2 : gmap string (gset string)) (a b : string) :
  hasConflict (mergeConflicts c1 c2) a b = hasConflict c1 a b || hasConflict c2 a b.
Proof.
  unfold hasConflict, mergeConflicts.
  destruct (if idGt a b then (b, a) else (a, b)) as [x y].
  rewrite lookup_union_with.
  destruct (c1 !! x) as [s1|], (c2 !! x) as [s2|]; simpl; try done.
  - apply eq_true_iff_eq. rewrite orb_true_iff, !bool_decide_eq_true. set_solver.
  - by rewrite orb_false_r.
Qed.

(** X4: the conflicts that [positionX] merges are of one kind each: a pair
    is in the merged store exactly when [findType1Conflicts] or
    [findType2Conflicts] marked it, and no pair is marked by both. *)
Theorem conflicts_type1_type2_disjoint :
  ∀ (g : Graph) (layering : list (list string)) (c1 c2 : gmap string (gset string))
    (a b : string),
    findType1Conflicts g layering = Ok c1 →
    findType2Conflicts g layering = Ok c2 →
    (hasConflict (mergeConflicts c1 c2) a b = true
     ↔ hasConflict c1 a b = true ∨ hasConflict c2 a b = true)
    ∧ ¬ (hasConflict c1 a b = true ∧ hasConflict c2 a b = true).
Proof.
  intros g layering c1 c2 a b H1 H2. split.
  - rewrite hasConflict_mergeConflicts. apply orb_true_iff.
  - intros [Ha Hb].
    destruct (findType1Conflicts_marks g layering c1 H1) as [_ Hs].
    destruct (findType2Conflicts_marks g layering c2 H2 a b Hb)
      as [(_ & Hda & Hdb)|(_ & Hdb & Hda)]; by apply (Hs a b Ha).
Qed.

Lemma conflicts_type1_type2_disjoint_witness :
  ∃ c1 c2,
    findType1Conflicts graphT2 [["n0"; "n1"; "n2"]; ["s0"; "s1"]] = Ok c1
    ∧ findType2Conflicts graphT2 [["n0"; "n1"; "n2"]; ["s0"; "s1"]] = Ok c2
    ∧ hasConflict c2 "n2" "s0" = true
    ∧ (hasConflict (mergeConflicts c1 c2) "n2" "s0" = true
       ↔ hasConflict c1 "n2" "s0" = true ∨ hasConflict c2 "n2" "s0" = true)
    ∧ ¬ (hasConflict c1 "n2" "s0" = true ∧ hasConflict c2 "n2" "s0" = true).
Proof.
  eexists _, _. split; [vm_compute; reflexivity|].
  split; [vm_compute; reflexivity|].
  split; [vm_compute; reflexivity|].
  refine (conflicts_type1_type2_disjoint graphT2
            [["n0"; "n1"; "n2"]; ["s0"; "s1"]] _ _ "n2" "s0" _ _);
    vm_compute; reflexivity.
Defined.

(** ** The other end of an inner segment *)

Lemma findM_spec {A} (p : A → res bool) (l : list A) (r : option A) :
  findM p l = Ok r →
  match r with
  | Some a => ∃ pre post, l = pre ++ a :: post ∧ p a = Ok true
                          ∧ ∀ x, x ∈ pre → p x = Ok false
  | None => ∀ x, x ∈ l → p x = Ok false
  end.
Proof.
  revert r. induction l as [|a l IH]; intros r H; simpl in H.
  - injection H as <-. by intros x Hx%elem_of_nil.
  - apply res_bind_Ok in H as (b & Hb & H). destruct b.
    + injection H as <-. exists [], l. split; [done|]. split; [done|].
      by intros x Hx%elem_of_nil.
    + specialize (IH r H). destruct r as [a'|].
      * destruct IH as (pre & post & -> & Ha' & Hpre).
        exists (a :: pre), post. split; [done|]. split; [done|].
        intros x [->|Hx]%elem_of_cons; auto.
      * intros x [->|Hx]%elem_of_cons; auto.
Qed.

(** X5: [findOtherInnerSegmentNode(g, v)] returns the first predecessor of
    [v] that is a dummy when [v] is a dummy itself, and [undefined] when [v]
    is no dummy or none of its predecessors is one. *)
Theorem findOtherInnerSegmentNode_first_dummy :
  ∀ (g : Graph) (v : string) (r : option string),
    findOtherInnerSegmentNode g v = Ok r →
    match r with
    | Some u =>
        isDummy g v
        ∧ ∃ pre post, predecessors g v = pre ++ u :: post ∧ isDummy g u
                      ∧ ∀ p, p ∈ pre → ¬ isDummy g p
    | None => ¬ isDummy g v ∨ ∀ p, p ∈ predecessors g v → ¬ isDummy g p
    end.
Proof.
  intros g v r H. unfold findOtherInnerSegmentNode in H.
  apply res_bind_Ok in H as (vLabel & Hv & H).
  assert (Hfalse : ∀ p, (uLabel ← node g p; Ok (truthy (Label.dummy uLabel))) = Ok false
                        → ¬ isDummy g p).
  { intros p Hp (l & Hl & Ht). rewrite Hl in Hp. simpl in Hp. congruence. }
  destruct (truthy (Label.dummy vLabel)) eqn:Ed.
  - apply findM_spec in H. destruct r as [u|].
    + destruct H as (pre & post & Hpre & Hu & Hnone).
      split; [by exists vLabel|]. exists pre, post. split; [done|]. split.
      * apply res_bind_Ok in Hu as (uLabel & Hul & [= Ht]). by exists uLabel.
      * intros p Hp. apply Hfalse. by apply Hnone.
    + right. intros p Hp. apply Hfalse. by apply H.
  - injection H as <-. left. intros (l & Hl & Ht). congruence.
Qed.

Lemma findOtherInnerSegmentNode_first_dummy_witness :
  findOtherInnerSegmentNode graphT1 "y" = Ok (Some "p")
  ∧ isDummy graphT1 "y"
  ∧ ∃ pre post, predecessors graphT1 "y" = pre ++ "p" :: post ∧ isDummy graphT1 "p"
                ∧ ∀ p, p ∈ pre → ¬ isDummy graphT1 p.
Proof.
  split; [vm_compute; reflexivity|].
  apply (findOtherInnerSegmentNode_first_dummy graphT1 "y" (Some "p")).
  vm_compute. reflexivity.
Defined.

(** ** The separation function: mirroring and bounds *)







(** ** The first sweep: the least coordinates *)

Section FirstSweepBound.
Variables (B : Graph) (R : string → Q → Prop).
Hypothesis R0 : ∀ v, R v 0%Q.
Hypothesis Rstep :
  ∀ v e w x m, e ∈ inEdges B v → edge B e.1.1 e.1.2 = Some w →
               R e.1.1 x → R v m → R v (Qmax m (x + w)).

(** Every coordinate that is set satisfies [R]. *)
Definition bounded (xs : Obj Q) : Prop := ∀ u x, oget xs u = Some x → R u x.

Lemma pass1_bounded (fuel : nat) :
  ∀ v st st', bounded st.2 → pass1 fuel B v st = Ok st' → bounded st'.2.
Proof using R0 Rstep.
  induction fuel as [|fuel IH]; intros v st st' Hb H; simpl in H; [done|].
  destruct (bool_decide (is_Some (st.1 !! v))); [by injection H as <-|].
  apply res_bind_Ok in H as ([st1 max] & Hfold & [= <-]). simpl.
  assert (Hinv : bounded st1.2 ∧ R v max).
  { revert Hfold.
    apply (foldM_inv (fun acc : sweep * Q => bounded acc.1.2 ∧ R v acc.2));
      [|by split].
    intros acc e acc' [Hacc Hm] He H. unfold pass1Edge in H.
    apply res_bind_Ok in H as (st2 & Hv & H).
    apply res_bind_Ok in H as (x & Hx%ofOption_Ok & H).
    apply res_bind_Ok in H as (w & Hw%ofOption_Ok & [= <-]). simpl.
    pose proof (IH _ _ _ Hacc Hv) as Hb2.
    split; [done|]. apply (Rstep v e); auto. }
  destruct Hinv as [Hb1 Hmax].
  intros u x. destruct (decide (v = u)) as [<-|Hne].
  - rewrite oget_oset_eq. by intros [= <-].
  - rewrite oget_oset_ne by done. apply Hb1.
Qed.

Lemma firstSweep_bounded (st : sweep) : firstSweep B = Ok st → bounded st.2.
Proof using R0 Rstep.
  unfold firstSweep. apply (foldM_inv (fun st : sweep => bounded st.2)).
  - intros st0 v st1 Hb _. by apply pass1_bounded.
  - by intros u x.
Qed.
End FirstSweepBound.






(** ** The second sweep: what it moves *)

Section SecondSweepFrame.
Variables (G B : Graph) (borderType : string).

(** A node that the second sweep leaves where it is: its label has the
    border type of the sweep, or it has no out-edge in the block graph. *)
Definition held (u : string) : Prop :=
  (∃ nd, node G u = Ok nd ∧ Label.borderType nd = Some borderType)
  ∨ outEdges B u = [].

Definition pass2Moves (st st' : sweep) : Prop :=
  grown st st' ∧ ∀ u, held u → oget st'.2 u = oget st.2 u.

Lemma pass2Moves_refl (st : sweep) : pass2Moves st st.
Proof using Type. split; [apply grown_refl|done]. Qed.

Lemma pass2Moves_trans (st1 st2 st3 : sweep) :
  pass2Moves st1 st2 → pass2Moves st2 st3 → pass2Moves st1 st3.
Proof using Type.
  intros [Hg1 Hf1] [Hg2 Hf2]. split; [by eapply grown_trans|].
  intros u Hu. rewrite Hf2 by done. by apply Hf1.
Qed.

Lemma pass2_moves (fuel : nat) :
  ∀ v st st', pass2 fuel G B borderType v st = Ok st' → pass2Moves st st'.
Proof using Type.
  induction fuel as [|fuel IH]; intros v st st' H; simpl in H; [done|].
  destruct (bool_decide (st.1 !! v = Some 2%nat)).
  { injection H as <-. apply pass2Moves_refl. }
  apply res_bind_Ok in H as (n & _ & H).
  apply res_bind_Ok in H as ([cur min] & Hfold & H).
  set (st1 := (<[v:=S n]> st.1, st.2)) in *.
  assert (Hcur : pass2Moves st cur ∧ (outEdges B v = [] → min = None)).
  { change (pass2Moves st (cur, min).1 ∧ (outEdges B v = [] → (cur, min).2 = None)).
    split.
    - revert Hfold.
      apply (foldM_inv (fun acc : sweep * option Q => pass2Moves st acc.1)).
      + intros acc e acc' Hacc _ He. unfold pass2Edge in He.
        apply res_bind_Ok in He as (st2 & Hv & He).
        apply res_bind_Ok in He as (x & _ & He).
        apply res_bind_Ok in He as (w & _ & [= <-]). simpl.
        eapply pass2Moves_trans; [exact Hacc|]. by eapply IH.
      + split; [|done]. split; [|done]. intros u x Hx. exists x. split; [done|lra].
    - intros Hno. rewrite Hno in Hfold. by injection Hfold as _ <-. }
  destruct Hcur as [[Hg Hf] Hsink]. simpl in *.
  destruct min as [m|]; [|by injection H as <-].
  apply res_bind_Ok in H as (nd & Hnd & H).
  destruct (bool_decide (Label.borderType nd ≠ Some borderType)) eqn:Hbt;
    [|by injection H as <-].
  apply bool_decide_eq_true in Hbt.
  apply res_bind_Ok in H as (x & Hx%ofOption_Ok & [= <-]).
  split; [split|]; simpl.
  - intros u x0 Hx0. destruct (proj1 Hg u x0 Hx0) as (x' & Hx' & Hle).
    destruct (decide (v = u)) as [<-|Hne].
    + rewrite oget_oset_eq. rewrite Hx in Hx'. injection Hx' as <-.
      eexists. split; [done|]. pose proof (Q.le_max_l x m). lra.
    + rewrite oget_oset_ne by done. eauto.
  - intros u Hu. destruct (decide (v = u)) as [<-|Hne].
    + apply (proj2 Hg). by rewrite Hx.
    + rewrite oget_oset_ne in Hu by done. by apply (proj2 Hg).
  - intros u Hu. destruct (decide (v = u)) as [<-|Hne].
    + exfalso. destruct Hu as [(nd' & Hnd' & Hb')|Hno].
      * rewrite Hnd in Hnd'. injection Hnd' as <-. done.
      * by specialize (Hsink Hno).
    + rewrite oget_oset_ne by done. by apply Hf.
Qed.
End SecondSweepFrame.

Lemma secondSweep_moves (G B : Graph) (reverseSep : bool) (st st' : sweep) :
  secondSweep G B reverseSep st = Ok st' →
  pass2Moves G B (if reverseSep then "borderLeft" else "borderRight") st st'.
Proof.
  unfold secondSweep.
  apply (foldM_inv (fun st0 => pass2Moves G B _ st st0)).
  - intros st0 v st1 H0 _ H1. eapply pass2Moves_trans; [exact H0|].
    by eapply pass2_moves.
  - apply pass2Moves_refl.
Qed.

(** X9: the second sweep only moves blocks to the right, and not all of
    them: no coordinate decreases, no node gains or loses its coordinate,
    and a node whose label has the border type of the sweep ([borderLeft]
    with [reverseSep], [borderRight] without) or that has no out-edge in the
    block graph keeps the coordinate it had. *)
Theorem secondSweep_moves_right :
  ∀ (G B : Graph) (reverseSep : bool) (st st' : sweep),
    secondSweep G B reverseSep st = Ok st' →
    (∀ u x, oget st.2 u = Some x → ∃ x', oget st'.2 u = Some x' ∧ (x <= x')%Q)
    ∧ (∀ u, is_Some (oget st'.2 u) → is_Some (oget st.2 u))
    ∧ ∀ u, held G B (if reverseSep then "borderLeft" else "borderRight") u →
           oget st'.2 u = oget st.2 u.
Proof.
  intros G B reverseSep st st' H.
  destruct (secondSweep_moves G B reverseSep st st' H) as [[Hup Hdom] Hheld].
  done.
Qed.

(** Three blocks at the left of the block [c]; the label of [d] has the
    border type [borderRight]. *)
Definition graphSweep : Graph :=
  mkGraph (Some (GLabel.mk 50 10 AUndef))
          [("a", Some (lbl 0 0 10)); ("b", Some (lbl 0 1 10));
           ("c", Some (lbl 0 3 10));
           ("d", Some (Label.mk 0 2 0 (AStr "border") None (Some "borderRight")))]
          [].

Definition blockSweep : Graph :=
  mkGraph None [("a", None); ("b", None); ("c", None); ("d", None)]
          [("a", "c", Some 10%Q); ("b", "c", Some 50%Q); ("d", "c", Some 20%Q)].

Lemma secondSweep_moves_right_witness :
  ∃ st st',
    firstSweep blockSweep = Ok st
    ∧ secondSweep graphSweep blockSweep false st = Ok st'
    ∧ (∃ x, oget st.2 "a" = Some x ∧ (x == 0)%Q)
    ∧ (∃ x, oget st'.2 "a" = Some x ∧ (x == 40)%Q)
    ∧ (∃ x, oget st'.2 "d" = Some x ∧ (x == 0)%Q)
    ∧ (∀ u x, oget st.2 u = Some x → ∃ x', oget st'.2 u = Some x' ∧ (x <= x')%Q)
    ∧ (∀ u, is_Some (oget st'.2 u) → is_Some (oget st.2 u))
    ∧ ∀ u, held graphSweep blockSweep "borderRight" u →
           oget st'.2 u = oget st.2 u.
Proof.
  eexists _, _. split; [vm_compute; reflexivity|].
  split; [vm_compute; reflexivity|].
  do 3 (split; [eexists; split; vm_compute; reflexivity|]).
  apply (secondSweep_moves_right graphSweep blockSweep false).
  vm_compute. reflexivity.
Defined.

(** ** The coordinates that [horizontalCompaction] returns *)

Lemma horizontalCompaction_compact (g : nat) (layering : list (list string))
    (root align : Obj string) (reverseSep : bool) (σ σ' : Heap) (xs : Obj Q) :
  horizontalCompaction g layering root align reverseSep σ = (Ok xs, σ') →
  ∃ G B, compact G B root align reverseSep = Ok xs.
Proof.
  intros H. unfold horizontalCompaction in H.
  apply M_bind_Ok in H as (b & σ1 & _ & H).
  apply M_bind_Ok in H as (B & σ2 & _ & H).
  apply M_bind_Ok in H as (G & σ3 & _ & H).
  unfold liftR in H. injection H as H _. by exists G, B.
Qed.

(** X10: no coordinate that [horizontalCompaction] returns is negative. *)
Theorem horizontalCompaction_nonnegative :
  ∀ (g : nat) (layering : list (list string)) (root align : Obj string)
    (reverseSep : bool) (σ σ' : Heap) (xs : Obj Q) (v : string) (x : Q),
    horizontalCompaction g layering root align reverseSep σ = (Ok xs, σ') →
    oget xs v = Some x → (0 <= x)%Q.
Proof.
  intros g layering root align reverseSep σ σ' xs v x H.
  destruct (horizontalCompaction_compact _ _ _ _ _ _ _ _ H) as (G & B & Hc).
  destruct (compact_inv _ _ _ _ _ _ Hc) as (st1 & st2 & H1 & H2 & H3).
  assert (Hb1 : bounded (fun _ q => (0 <= q)%Q) st1.2).
  { apply (firstSweep_bounded B (fun _ q => (0 <= q)%Q)); [intros; lra| |done].
    intros u e w q m _ _ _ Hm. pose proof (Q.le_max_l m (q + w)). lra. }
  assert (Hb2 : bounded (fun _ q => (0 <= q)%Q) st2.2).
  { destruct (secondSweep_moves G B reverseSep st1 st2 H2) as [[Hup Hdom] _].
    intros u q Hq. destruct (Hdom u) as [q1 Hq1]; [by rewrite Hq|].
    destruct (Hup u q1 Hq1) as (q' & Hq' & Hle).
    rewrite Hq in Hq'. injection Hq' as <-.
    pose proof (Hb1 u q1 Hq1). simpl in *. lra. }
  revert v x. change (bounded (fun _ q => (0 <= q)%Q) xs).
  revert H3. unfold assignAll. apply foldM_inv; [|done].
  intros cur a cur' Hcur _ Ha. unfold assignStep in Ha.
  apply res_bind_Ok in Ha as (r & _ & Ha).
  apply res_bind_Ok in Ha as (q & Hq%ofOption_Ok & [= <-]).
  intros u q'. destruct (decide (a = u)) as [<-|Hne].
  - rewrite oget_oset_eq. intros [= <-]. by apply (Hcur r).
  - rewrite oget_oset_ne by done. apply Hcur.
Qed.

Definition idS2 : Obj string := [("a", "a"); ("b", "b")].

Lemma horizontalCompaction_nonnegative_witness :
  ∃ xs σ' x,
    horizontalCompaction 0 [["a"; "b"]] idS2 idS2 false [graphS2] = (Ok xs, σ')
    ∧ oget xs "b" = Some x ∧ (0 <= x)%Q.
Proof.
  eexists _, _, _. split; [vm_compute; reflexivity|].
  split; [vm_compute; reflexivity|].
  refine (horizontalCompaction_nonnegative 0 [["a"; "b"]] idS2 idS2 false
            [graphS2] _ _ "b" _ _ _); vm_compute; reflexivity.
Defined.

(** ** The maps that [verticalAlignment] returns *)

Lemma fold_left_inv {A C} (P : C → Prop) (f : C → A → C) (l : list A) :
  (∀ b a, P b → a ∈ l → P (f b a)) → ∀ b, P b → P (fold_left f l b).
Proof.
  induction l as [|a l IH]; intros Hf b Hb; simpl; [done|].
  apply IH.
  - intros b' a' Hb' Ha'. apply Hf; [done|by right].
  - apply Hf; [done|left].
Qed.

Lemma okeys_oset_same {A C} (o : Obj A) (o' : Obj C) (k : string) (a : A) (c : C) :
  okeys o = okeys o' → okeys (oset o k a) = okeys (oset o' k c).
Proof.
  revert o'. induction o as [|[k1 a1] o IH]; intros [|[k2 c2] o'] H; simpl in *;
    try done.
  injection H as -> H.
  destruct (String.eqb k2 k); simpl; f_equal; [done|by apply IH].
Qed.

Lemma okeys_oset_elem {A} (o : Obj A) (k x : string) (a : A) :
  x ∈ okeys (oset o k a) ↔ x = k ∨ x ∈ okeys o.
Proof.
  induction o as [|[k1 a1] o IH]; simpl.
  - rewrite list_elem_of_singleton. split; [auto|]. intros [?|H]; [done|].
    by apply elem_of_nil in H.
  - destruct (String.eqb_spec k1 k) as [->|Hne]; simpl.
    + rewrite !elem_of_cons. tauto.
    + rewrite !elem_of_cons, IH. tauto.
Qed.

Lemma okeys_oset_NoDup {A} (o : Obj A) (k : string) (a : A) :
  NoDup (okeys o) → NoDup (okeys (oset o k a)).
Proof.
  induction o as [|[k1 a1] o IH]; simpl; intros Hnd.
  - apply NoDup_singleton.
  - apply NoDup_cons in Hnd as [Hk Hnd].
    destruct (String.eqb_spec k1 k) as [->|Hne]; simpl.
    + by apply NoDup_cons.
    + apply NoDup_cons. split; [|by apply IH].
      rewrite okeys_oset_elem. intros [?|?]; done.
Qed.

Lemma ovalues_oset_elem {A} (o : Obj A) (k : string) (a x : A) :
  x ∈ ovalues (oset o k a) → x = a ∨ x ∈ ovalues o.
Proof.
  induction o as [|[k1 a1] o IH]; simpl.
  - rewrite list_elem_of_singleton. auto.
  - destruct (String.eqb k1 k); simpl; rewrite !elem_of_cons.
    + tauto.
    + intros [?|H]; [auto|]. destruct (IH H); auto.
Qed.

Lemma oget_ovalues {A} (o : Obj A) (k : string) (a : A) :
  oget o k = Some a → a ∈ ovalues o.
Proof.
  intros H%oget_Some_elem. apply list_elem_of_fmap. by exists (k, a).
Qed.

Section AlignmentMaps.
Variable layering : list (list string).
Variable neighborFn : string → list string.
Variable conflicts : gmap string (gset string).
Variable pos : Obj Z.

(** [root] and [align] have the same keys, each once, and the keys and the
    values of both are vertices of the layering; a vertex whose root is not
    itself has a neighbour without a conflict. *)
Definition mapsOK (root align : Obj string) : Prop :=
  okeys root = okeys align
  ∧ NoDup (okeys root)
  ∧ (∀ x, x ∈ okeys root ↔ x ∈ concat layering)
  ∧ (∀ x, x ∈ ovalues root → x ∈ concat layering)
  ∧ (∀ x, x ∈ ovalues align → x ∈ concat layering)
  ∧ ∀ v r, oget root v = Some r → r ≠ v →
           ∃ w, w ∈ neighborFn v ∧ w ∈ concat layering
                ∧ hasConflict conflicts v w = false.

Lemma alignWith_mapsOK (v w : string) (root align : Obj string) (prevIdx : Z) :
  w ∈ neighborFn v →
  mapsOK root align →
  mapsOK (alignWith conflicts pos v (root, align, prevIdx) w).1.1
         (alignWith conflicts pos v (root, align, prevIdx) w).1.2.
Proof using Type.
  intros Hw Hok. unfold alignWith.
  destruct (oget pos w) as [posW|]; [|done].
  destruct (oget root w) as [rootW|] eqn:Erw; [|done].
  destruct (bool_decide (oget align v = Some v)) eqn:Hav; [|done].
  destruct (bool_decide (prevIdx < posW)%Z); [|done].
  destruct (hasConflict conflicts v w) eqn:Hc; [done|]. simpl.
  apply bool_decide_eq_true in Hav.
  destruct Hok as (Hk & Hnd & Hkeys & Hvr & Hva & Hconf).
  assert (Hvk : v ∈ okeys root).
  { rewrite Hk. apply oget_is_Some_keys. by rewrite Hav. }
  assert (Hwk : w ∈ okeys root).
  { apply oget_is_Some_keys. by rewrite Erw. }
  assert (HvV : v ∈ concat layering) by (by apply Hkeys).
  assert (HrV : rootW ∈ concat layering) by (eapply Hvr, oget_ovalues; eauto).
  split; [|split; [|split; [|split; [|split]]]].
  - rewrite (okeys_oset_present root) by done.
    rewrite (okeys_oset_present (oset align w v)).
    + rewrite (okeys_oset_present align); [done|by rewrite <- Hk].
    + rewrite okeys_oset_elem. right. by rewrite <- Hk.
  - by rewrite okeys_oset_present.
  - intros x. rewrite okeys_oset_present by done. apply Hkeys.
  - intros x [->|Hx]%ovalues_oset_elem; auto.
  - intros x [->|[->|Hx]%ovalues_oset_elem]%ovalues_oset_elem; auto.
  - intros u r. destruct (decide (v = u)) as [<-|Hne].
    + intros _ _. exists w. split; [done|]. split; [by apply Hkeys|done].
    + rewrite oget_oset_ne by done. apply Hconf.
Qed.

Lemma alignLayers_mapsOK (root align : Obj string) :
  mapsOK root align →
  mapsOK (fold_left (alignLayer conflicts neighborFn pos) layering (root, align)).1
         (fold_left (alignLayer conflicts neighborFn pos) layering (root, align)).2.
Proof using Type.
  intros Hok.
  apply (fold_left_inv (fun ra : Obj string * Obj string => mapsOK ra.1 ra.2));
    [|done].
  intros [r a] layer Hra _. unfold alignLayer. simpl in *.
  apply (fold_left_inv
           (fun st : Obj string * Obj string * Z => mapsOK st.1.1 st.1.2)); [|done].
  intros [[r1 a1] p1] v Hst _. unfold alignVertex. simpl in Hst.
  destruct (0 <? length (neighborFn v))%nat; [|done].
  apply (fold_left_inv
           (fun st : Obj string * Obj string * Z => mapsOK st.1.1 st.1.2)); [|done].
  intros [[r2 a2] p2] w Hst2 Hw. simpl in Hst2.
  apply alignWith_mapsOK; [|done].
  by apply medians_elem, sortBy_elem in Hw.
Qed.
End AlignmentMaps.

Lemma initBlocks_mapsOK (layering : list (list string))
    (neighborFn : string → list string) (conflicts : gmap string (gset string)) :
  mapsOK layering neighborFn conflicts
         (initBlocks layering).1.1 (initBlocks layering).1.2.
Proof.
  set (P := fun st : Obj string * Obj string * Obj Z =>
              okeys st.1.1 = okeys st.1.2
              ∧ NoDup (okeys st.1.1)
              ∧ (∀ x, x ∈ okeys st.1.1 → x ∈ concat layering)
              ∧ (∀ x, x ∈ ovalues st.1.1 → x ∈ concat layering)
              ∧ (∀ x, x ∈ ovalues st.1.2 → x ∈ concat layering)
              ∧ ∀ v r, oget st.1.1 v = Some r → r = v).
  assert (HP : P (initBlocks layering)).
  { unfold initBlocks. apply (fold_left_inv P).
    - intros st layer Hst Hl. apply (fold_left_inv P); [|done].
      intros [[root align] pos] [o v] (Hk & Hnd & Hkeys & Hvr & Hva & Hself) Hov.
      simpl in *.
      assert (Hv : v ∈ concat layering).
      { apply elem_of_concat. exists layer. split; [done|].
        apply indexed_elem in Hov. by eapply list_elem_of_lookup_2. }
      split; [by apply okeys_oset_same|]. split; [by apply okeys_oset_NoDup|].
      split; [intros x [->|Hx]%okeys_oset_elem; auto|].
      split; [intros x [->|Hx]%ovalues_oset_elem; auto|].
      split; [intros x [->|Hx]%ovalues_oset_elem; auto|].
      intros u r. simpl. destruct (decide (v = u)) as [<-|Hne].
      + rewrite oget_oset_eq. by intros [= <-].
      + rewrite oget_oset_ne by done. apply Hself.
    - split; [done|]. split; [constructor|].
      split; [by intros x Hx%elem_of_nil|].
      split; [by intros x Hx%elem_of_nil|].
      split; [by intros x Hx%elem_of_nil|]. done. }
  destruct HP as (Hk & Hnd & Hkeys & Hvr & Hva & Hself).
  split; [done|]. split; [done|]. split.
  { intros x. split; [apply Hkeys|]. intros Hx.
    apply oget_is_Some_keys. by rewrite (proj1 (initBlocks_self layering x Hx)). }
  split; [done|]. split; [done|].
  intros v r Hr Hne. by specialize (Hself v r Hr).
Qed.

Lemma verticalAlignment_mapsOK (g : Graph) (layering : list (list string))
    (conflicts : gmap string (gset string)) (neighborFn : string → list string)
    (root align : Obj string) :
  verticalAlignment g layering conflicts neighborFn = (root, align) →
  mapsOK layering neighborFn conflicts root align.
Proof.
  unfold verticalAlignment. intros H.
  pose proof (initBlocks_mapsOK layering neighborFn conflicts) as H0.
  destruct (initBlocks layering) as [[root0 align0] pos0]. simpl in H0.
  pose proof (alignLayers_mapsOK layering neighborFn conflicts pos0 root0 align0 H0) as H1.
  by rewrite H in H1.
Qed.

(** X11: the maps [root] and [align] that [verticalAlignment] returns are
    defined on exactly the vertices of the layering, with the same keys in
    the same order and none twice, and every value of either map is a vertex
    of the layering. *)
Theorem verticalAlignment_maps_closed :
  ∀ (g : Graph) (layering : list (list string))
    (conflicts : gmap string (gset string)) (neighborFn : string → list string)
    (root align : Obj string),
    verticalAlignment g layering conflicts neighborFn = (root, align) →
    okeys root = okeys align
    ∧ NoDup (okeys root)
    ∧ (∀ v, v ∈ okeys root ↔ v ∈ concat layering)
    ∧ (∀ r, r ∈ ovalues root → r ∈ concat layering)
    ∧ (∀ a, a ∈ ovalues align → a ∈ concat layering).
Proof.
  intros g layering conflicts neighborFn root align H.
  destruct (verticalAlignment_mapsOK _ _ _ _ _ _ H) as (? & ? & ? & ? & ? & _).
  done.
Qed.

Lemma verticalAlignment_maps_closed_witness :
  okeys blocksVA.1 = okeys blocksVA.2
  ∧ NoDup (okeys blocksVA.1)
  ∧ (∀ v, v ∈ okeys blocksVA.1 ↔ v ∈ concat [["a"; "b"]; ["c"; "d"]])
  ∧ (∀ r, r ∈ ovalues blocksVA.1 → r ∈ concat [["a"; "b"]; ["c"; "d"]])
  ∧ (∀ a, a ∈ ovalues blocksVA.2 → a ∈ concat [["a"; "b"]; ["c"; "d"]]).
Proof.
  apply (verticalAlignment_maps_closed graphVA [["a"; "b"]; ["c"; "d"]] ∅
           (predecessors graphVA)).
  apply surjective_pairing.
Defined.



(** ** Blocks are vertical *)

Lemma compact_blocks (G B : Graph) (root align : Obj string) (reverseSep : bool)
    (xs : Obj Q) :
  compact G B root align reverseSep = Ok xs →
  rootsFixed root align →
  ∀ a, a ∈ ovalues align →
    ∃ r x, oget root a = Some r ∧ oget xs a = Some x ∧ oget xs r = Some x.
Proof.
  intros Hc Hfix a Ha.
  destruct (compact_inv _ _ _ _ _ _ Hc) as (st1 & st2 & _ & _ & H3).
  destruct (assignAll_inv root st2.2 (ovalues align) Hfix [] st2.2 xs)
    as [Hroots Hseen]; [by split; [|intros ? ?%elem_of_nil]|done|].
  destruct (Hseen a Ha) as (r & Hr & Hxa & [x Hx]).
  destruct (Hfix a Ha) as (r' & Hr' & Hrr).
  rewrite Hr in Hr'. injection Hr' as <-.
  exists r, x. split; [done|]. split; [by rewrite Hxa|].
  by rewrite (Hroots r Hrr).
Qed.

(** X13: [horizontalCompaction] returns every vertex at the coordinate of
    its root, so that the vertices of a block are in one vertical line:
    when every value [a] of [align] has a root that is its own root, the
    returned [xs[a]] and [xs[root[a]]] are the same number. *)
Theorem horizontalCompaction_blocks_vertical :
  ∀ (g : nat) (layering : list (list string)) (root align : Obj string)
    (reverseSep : bool) (σ σ' : Heap) (xs : Obj Q),
    rootsFixed root align →
    horizontalCompaction g layering root align reverseSep σ = (Ok xs, σ') →
    ∀ a, a ∈ ovalues align →
      ∃ r x, oget root a = Some r ∧ oget xs a = Some x ∧ oget xs r = Some x.
Proof.
  intros g layering root align reverseSep σ σ' xs Hfix H.
  destruct (horizontalCompaction_compact _ _ _ _ _ _ _ _ H) as (G & B & Hc).
  by apply (compact_blocks G B root align reverseSep).
Qed.

Lemma blocksVA_rootsFixed : rootsFixed blocksVA.1 blocksVA.2.
Proof.
  intros a Ha. eval_list Ha. in_cases; eexists; split; vm_compute; reflexivity.
Qed.

Lemma horizontalCompaction_blocks_vertical_witness :
  ∃ xs σ',
    horizontalCompaction 0 [["a"; "b"]; ["c"; "d"]] blocksVA.1 blocksVA.2 false
      [graphVA] = (Ok xs, σ')
    ∧ ∀ a, a ∈ ovalues blocksVA.2 →
        ∃ r x, oget blocksVA.1 a = Some r ∧ oget xs a = Some x ∧ oget xs r = Some x.
Proof.
  eexists _, _. split; [vm_compute; reflexivity|].
  eapply (horizontalCompaction_blocks_vertical 0 [["a"; "b"]; ["c"; "d"]]
            blocksVA.1 blocksVA.2 false [graphVA]).
  - exact blocksVA_rootsFixed.
  - vm_compute. reflexivity.
Defined.

(** ** Alignment followed by compaction *)







(** ** Aligning the four alignments *)





















(** ** The block graph: nothing but the blocks and their neighbourhoods *)

Lemma hasNode_setNode_inv (g : Graph) (v x : string) :
  hasNode (setNode g v) x = true → x = v ∨ hasNode g x = true.
Proof.
  unfold setNode. destruct (hasNode g v) eqn:E; [auto|].
  unfold hasNode. simpl. rewrite ohas_app. intros [H|H]%orb_true_iff; [auto|].
  left. unfold ohas in H. simpl in H.
  destruct (String.eqb_spec v x); [done|discriminate].
Qed.

Lemma edge_Some_elem (g : Graph) (a b : string) (q : Q) :
  edge g a b = Some q → (a, b, Some q) ∈ gedges g.
Proof.
  unfold edge. destruct (List.find _ _) as [[[x y] l]|] eqn:E; [|done].
  simpl. intros ->. apply find_some in E as [Hin He].
  apply isEdge_true in He. simpl in He. injection He as -> ->.
  by apply list_elem_of_In.
Qed.

Section BlockOnly.
Variables (G : Graph) (root : Obj string) (layering : list (list string)).
Variable sepFn : Graph → string → string → res Q.

(** [u] is immediately at the left of [v] on a layer, and [u] is not the
    empty id. *)
Definition adjacent (u v : string) : Prop :=
  u ≠ "" ∧ ∃ layer i, layer ∈ layering ∧ layer !! i = Some u ∧ layer !! S i = Some v.

(** Every node of [B] is the root of a vertex, and every edge goes from the
    root of a vertex to the root of its right neighbour, with a weight that
    is not negative. *)
Definition fromLayering (B : Graph) : Prop :=
  (∀ x, hasNode B x = true → ∃ v, v ∈ concat layering ∧ oget root v = Some x)
  ∧ ∀ e, e ∈ gedges B →
      ∃ w, e.2 = Some w ∧ (0 <= w)%Q
           ∧ ∃ u v, adjacent u v ∧ oget root u = Some e.1.1
                    ∧ oget root v = Some e.1.2.

Lemma blockStepP_only (B B' : Graph) (u u' : option string) (v : string) :
  fromLayering B → v ∈ concat layering →
  (∀ u0, u = Some u0 → u0 ≠ "" → adjacent u0 v) →
  blockStepP G root sepFn (B, u) v = Ok (B', u') →
  fromLayering B' ∧ u' = Some v.
Proof using Type.
  intros [Hn He] Hv Hadj H. unfold blockStepP in H.
  apply res_bind_Ok in H as (vRoot & Hvr%ofOption_Ok & H).
  apply res_bind_Ok in H as (B1 & H1 & H). injection H as <- <-.
  split; [|done]. simpl in H1.
  assert (H0 : fromLayering (setNode B vRoot)).
  { split.
    - intros x [->|Hx]%hasNode_setNode_inv; [by exists v|by apply Hn].
    - intros e. rewrite gedges_setNode. apply He. }
  destruct u as [u0|]; [destruct (truthyId (Some u0)) eqn:Ht|];
    [|by injection H1 as <-|by injection H1 as <-].
  apply res_bind_Ok in H1 as (uRoot & Hur%ofOption_Ok & H1).
  apply res_bind_Ok in H1 as (s & Hs & H1). injection H1 as <-.
  assert (Hne : u0 ≠ "").
  { intros ->. by simpl in Ht. }
  destruct H0 as [Hn0 He0]. split.
  - intros x Hx. unfold setEdge, hasNode in Hx. simpl in Hx.
    apply hasNode_setNode_inv in Hx as [->|Hx]; [by exists v|].
    apply hasNode_setNode_inv in Hx as [->|Hx]; [|by apply Hn0].
    exists u0. split; [|done].
    destruct (Hadj u0 eq_refl Hne) as (_ & layer & i & Hl & Hi & _).
    apply elem_of_concat. exists layer. split; [done|].
    by eapply list_elem_of_lookup_2.
  - intros e Hin. unfold setEdge in Hin. simpl in Hin. rewrite !gedges_setNode in Hin.
    apply setEdgeLabel_elem in Hin as [->|Hin]; [|by apply He].
    simpl. eexists. split; [reflexivity|]. split.
    + assert (0 <= orZero (edge (setNode B vRoot) uRoot vRoot))%Q.
      { destruct (edge (setNode B vRoot) uRoot vRoot) as [q|] eqn:Eq;
          [|simpl; lra].
        destruct (He0 _ (edge_Some_elem _ _ _ _ Eq)) as (w & [= <-] & Hw & _).
        unfold orZero. destruct (truthyNum q); lra. }
      pose proof (Q.le_max_r s (orZero (edge (setNode B vRoot) uRoot vRoot))). lra.
    + exists u0, v. split; [by apply Hadj|done].
Qed.

Lemma blockLayer_only (layer : list string) :
  layer ∈ layering →
  ∀ rest pre B B' u u',
    layer = pre ++ rest → u = last pre →
    fromLayering B →
    foldM (blockStepP G root sepFn) rest (B, u) = Ok (B', u') →
    fromLayering B'.
Proof using Type.
  intros Hl. induction rest as [|v rest IH]; intros pre B B' u u' Hsplit Hu HB H;
    simpl in H.
  - by injection H as <- <-.
  - apply res_bind_Ok in H as ([B1 u1] & H1 & H).
    assert (Hv : v ∈ concat layering).
    { apply elem_of_concat. exists layer. split; [done|]. rewrite Hsplit.
      apply elem_of_app. right. left. }
    assert (Hadj : ∀ u0, u = Some u0 → u0 ≠ "" → adjacent u0 v).
    { intros u0 Hu0 Hne. split; [done|].
      rewrite Hu in Hu0. apply last_Some in Hu0 as [pre' ->].
      exists layer, (length pre'). split; [done|]. rewrite Hsplit, <- !app_assoc.
      split.
      - by rewrite lookup_app_r, Nat.sub_diag by lia.
      - rewrite lookup_app_r by lia.
        by replace (S (length pre') - length pre') with 1%nat by lia. }
    destruct (blockStepP_only _ _ _ _ _ HB Hv Hadj H1) as [HB1 ->].
    apply (IH (pre ++ [v]) B1 B' (Some v) u'); [|by rewrite last_snoc|done|done].
    by rewrite <- app_assoc.
Qed.

Lemma blockLayers_only (ls : list (list string)) :
  (∀ layer, layer ∈ ls → layer ∈ layering) →
  ∀ B B', fromLayering B →
          foldM (blockLayerP G root sepFn) ls B = Ok B' → fromLayering B'.
Proof using Type.
  intros Hls B B' HB. apply foldM_inv; [|done].
  intros B0 layer B1 HB0 Hl H. unfold blockLayerP in H.
  apply res_bind_Ok in H as ([B2 u2] & H2 & [= <-]).
  by apply (blockLayer_only layer (Hls layer Hl) layer [] B0 B2 None u2).
Qed.
End BlockOnly.

(** X20: the graph that [buildBlockGraph] builds is the graph of the blocks
    and nothing else.  Its nodes are the roots of the vertices of the
    layering; it has an edge from [a] to [c] exactly when some vertex with
    root [a] is immediately at the left of a vertex with root [c] (the left
    one not named by the empty string); and the weight of an edge is not
    negative and at least the separation of every such pair. *)
Theorem buildBlockGraph_structure :
  ∀ (g : nat) (G : Graph) (layering : list (list string)) (root : Obj string)
    (reverseSep : bool) (σ σ' : Heap) (blockGraph : nat),
    σ !! g = Some G →
    buildBlockGraph g layering root reverseSep σ = (Ok blockGraph, σ') →
    ∃ B gl,
      σ' = σ ++ [B] ∧ blockGraph = length σ ∧ graph G = Ok gl
      ∧ (∀ x, x ∈ nodes B ↔ ∃ v, v ∈ concat layering ∧ oget root v = Some x)
      ∧ (∀ a c, (∃ l, (a, c, l) ∈ gedges B)
                ↔ ∃ u v, adjacent layering u v ∧ oget root u = Some a
                         ∧ oget root v = Some c)
      ∧ ∀ a c l, (a, c, l) ∈ gedges B →
          ∃ w, l = Some w ∧ (0 <= w)%Q
               ∧ ∀ u v s, adjacent layering u v →
                          oget root u = Some a → oget root v = Some c →
                          sep (GLabel.nodesep gl) (GLabel.edgesep gl) reverseSep G v u
                          = Ok s →
                          (s <= w)%Q.
Proof.
  intros g G layering root reverseSep σ σ' blockGraph Hg Hb.
  destruct (buildBlockGraph_value _ _ _ _ _ _ _ _ Hg Hb) as (B & HB & -> & ->).
  unfold blockGraphOf in HB.
  apply res_bind_Ok in HB as (gl & Hgl & HB).
  destruct (blockLayers_facts _ _ _ _ _ _ wfBlock_new HB) as (Hwf & _ & Hfacts).
  assert (Honly : fromLayering root layering B).
  { revert HB. apply (blockLayers_only G root layering); [done|].
    split; [by intros x Hx|by intros e He%elem_of_nil]. }
  destruct Honly as [Hnodes Hedges].
  assert (Hpair : ∀ u v, adjacent layering u v →
            pairFact G root (sep (GLabel.nodesep gl) (GLabel.edgesep gl) reverseSep)
                     B u v).
  { intros u v (Hne & layer & i & Hl & Hu & Hv).
    destruct (Hfacts layer Hl) as [_ Hp]. by apply (Hp i). }
  exists B, gl. do 3 (split; [done|]). split; [|split].
  - intros x. rewrite <- hasNode_nodes. split; [apply Hnodes|].
    intros (v & Hv & Hr). apply elem_of_concat in Hv as (layer & Hl & Hv).
    destruct (Hfacts layer Hl) as [Hn _].
    destruct (Hn v Hv) as (rv & Hrv & Hhas). congruence.
  - intros a c. split.
    + intros [l Hin]. destruct (Hedges _ Hin) as (w & _ & _ & u & v & Hadj & Hu & Hv).
      by exists u, v.
    + intros (u & v & Hadj & Hu & Hv).
      destruct (Hpair u v Hadj) as (ru & rv & s & Hru & Hrv & _ & w & Hin & _).
      exists (Some w). congruence.
  - intros a c l Hin. destruct (Hedges _ Hin) as (w & Hl & Hw & _). simpl in Hl.
    subst l. exists w. split; [done|]. split; [done|].
    intros u v s Hadj Hu Hv Hs.
    destruct (Hpair u v Hadj) as (ru & rv & s' & Hru & Hrv & Hs' & w' & Hin' & Hle).
    rewrite Hu in Hru. injection Hru as <-. rewrite Hv in Hrv. injection Hrv as <-.
    rewrite Hs in Hs'. injection Hs' as <-.
    pose proof (edge_lookup B a c _ (proj1 Hwf) Hin) as E1.
    pose proof (edge_lookup B a c _ (proj1 Hwf) Hin') as E2.
    rewrite E1 in E2. by injection E2 as <-.
Qed.

Lemma buildBlockGraph_structure_witness :
  ∃ blockGraph σ',
    buildBlockGraph 0 [["a"; "b"]; ["c"; "d"]] blocksVA.1 false [graphVA]
    = (Ok blockGraph, σ')
    ∧ ∃ B gl,
        σ' = [graphVA] ++ [B] ∧ blockGraph = length [graphVA]
        ∧ graph graphVA = Ok gl
        ∧ (∀ x, x ∈ nodes B
                ↔ ∃ v, v ∈ concat [["a"; "b"]; ["c"; "d"]]
                       ∧ oget blocksVA.1 v = Some x)
        ∧ (∀ a c, (∃ l, (a, c, l) ∈ gedges B)
                  ↔ ∃ u v, adjacent [["a"; "b"]; ["c"; "d"]] u v
                           ∧ oget blocksVA.1 u = Some a
                           ∧ oget blocksVA.1 v = Some c)
        ∧ ∀ a c l, (a, c, l) ∈ gedges B →
            ∃ w, l = Some w ∧ (0 <= w)%Q
                 ∧ ∀ u v s, adjacent [["a"; "b"]; ["c"; "d"]] u v →
                            oget blocksVA.1 u = Some a → oget blocksVA.1 v = Some c →
                            sep (GLabel.nodesep gl) (GLabel.edgesep gl) false graphVA v u
                            = Ok s →
                            (s <= w)%Q.
Proof.
  eexists _, _. split; [vm_compute; reflexivity|].
  eapply (buildBlockGraph_structure 0 graphVA [["a"; "b"]; ["c"; "d"]] blocksVA.1
            false [graphVA]).
  - reflexivity.
  - vm_compute. reflexivity.
Defined.

Lemma horizontalCompaction_fuel_witness :
  ∃ blockG σ1,
    buildBlockGraph 0 [["a"; "b"]; ["c"; "d"]] blocksVA.1 false [graphVA]
    = (Ok blockG, σ1)
    ∧ ∃ B, σ1 = [graphVA] ++ [B]
           ∧ horizontalCompaction 0 [["a"; "b"]; ["c"; "d"]] blocksVA.1 blocksVA.2
               false [graphVA]
             = (compact graphVA B blocksVA.1 blocksVA.2 false, σ1)
           ∧ compact graphVA B blocksVA.1 blocksVA.2 false ≠ Throw OutOfFuel.
Proof.
  eexists _, _. split; [vm_compute; reflexivity|].
  eapply (horizontalCompaction_fuel 0 graphVA [["a"; "b"]; ["c"; "d"]]
            blocksVA.1 blocksVA.2 false [graphVA]).
  - reflexivity.
  - vm_compute. reflexivity.
Defined.

(** ** Balancing stays within the alignments *)

Lemma mapValuesM_Ok {A C} (f : A → string → res C) (o : Obj A) (r : Obj C) :
  mapValuesM f o = Ok r →
  okeys r = okeys o
  ∧ ∀ v x, oget r v = Some x → ∃ a, oget o v = Some a ∧ f a v = Ok x.
Proof.
  revert r. induction o as [|[k a] o IH]; intros r H; simpl in H.
  - by injection H as <-.
  - apply res_bind_Ok in H as (b & Hb & H).
    apply res_bind_Ok in H as (o' & Ho' & [= <-]).
    destruct (IH o' Ho') as [Hk Hv]. split; [simpl; by rewrite Hk|].
    intros v x. simpl. destruct (String.eqb_spec k v) as [->|Hne].
    + intros [= <-]. by exists a.
    + apply Hv.
Qed.

Lemma numAt_sorted_elem (xss : Obj (Obj Q)) (v : string) (i : nat) (x : Q) :
  numAt (sortBy numLe (map (fun xs => oget xs v) (ovalues xss))) i = Ok x →
  ∃ m, m ∈ ovalues xss ∧ oget m v = Some x.
Proof.
  unfold numAt. intros H%ofOption_Ok.
  destruct (sortBy numLe _ !! i) as [[q|]|] eqn:E; simpl in H; try done.
  injection H as ->.
  apply list_elem_of_lookup_2 in E. rewrite sortBy_perm in E.
  apply list_elem_of_fmap in E as (m & Hm & Hin). by exists m.
Qed.

(** X19: without a named alignment, [balance] puts no vertex outside its
    alignments: the map it returns has the vertices of [xss.ul], in the
    same order, and the coordinate of each lies between the coordinates
    that two of the alignments give to that vertex. *)
Theorem balance_within_alignments :
  ∀ (xss : Obj (Obj Q)) (align : attr) (r : Obj Q),
    truthy align = false →
    balance xss align = Ok r →
    okeys r = okeys (default [] (oget xss "ul"))
    ∧ ∀ v x, oget r v = Some x →
        ∃ m1 m2 lo hi, m1 ∈ ovalues xss ∧ m2 ∈ ovalues xss
                       ∧ oget m1 v = Some lo ∧ oget m2 v = Some hi
                       ∧ (lo <= x)%Q ∧ (x <= hi)%Q.
Proof.
  intros xss align r Ht H. unfold balance in H.
  destruct (mapValuesM_Ok _ _ _ H) as [Hk Hv]. split; [done|].
  intros v x Hx. destruct (Hv v x Hx) as (a & _ & Hb).
  unfold balanceAt in Hb. rewrite Ht in Hb.
  apply res_bind_Ok in Hb as (x1 & H1 & Hb).
  apply res_bind_Ok in Hb as (x2 & H2 & [= <-]).
  destruct (numAt_sorted_elem xss v 1 x1 H1) as (m1 & Hm1 & Hv1).
  destruct (numAt_sorted_elem xss v 2 x2 H2) as (m2 & Hm2 & Hv2).
  destruct (Qlt_le_dec x1 x2).
  - exists m1, m2, x1, x2. repeat (split; [done|]). split; qhalf; lra.
  - exists m2, m1, x2, x1. repeat (split; [done|]). split; qhalf; lra.
Qed.

Lemma balance_within_alignments_witness :
  ∃ r, balance xssW AUndef = Ok r
       ∧ okeys r = okeys (default [] (oget xssW "ul"))
       ∧ ∀ v x, oget r v = Some x →
           ∃ m1 m2 lo hi, m1 ∈ ovalues xssW ∧ m2 ∈ ovalues xssW
                          ∧ oget m1 v = Some lo ∧ oget m2 v = Some hi
                          ∧ (lo <= x)%Q ∧ (x <= hi)%Q.
Proof.
  eexists. split; [vm_compute; reflexivity|].
  apply (balance_within_alignments xssW AUndef); [reflexivity|].
  vm_compute. reflexivity.
Defined.

(** ** The narrowest alignment: empty maps and unlabelled vertices *)

Lemma node_cases (g : Graph) (v : string) :
  (∃ l, node g v = Ok l) ∨ node g v = Throw TypeError.
Proof. unfold node. destruct (oget (gnodes g) v) as [[l|]|]; eauto. Qed.

Lemma widthFold_cases (g : Graph) (xs : Obj Q) :
  ∀ acc,
    ((∀ kv, kv ∈ xs → ∃ l, node g kv.1 = Ok l)
     ∧ ∃ r, foldM (widthStep g) xs acc = Ok r)
    ∨ ((∃ kv, kv ∈ xs ∧ node g kv.1 = Throw TypeError)
       ∧ foldM (widthStep g) xs acc = Throw TypeError).
Proof.
  induction xs as [|[v x] xs IH]; intros [mx mn]; simpl.
  - left. split; [by intros kv Hkv%elem_of_nil|eauto].
  - unfold width. destruct (node_cases g v) as [[l Hl]| Hl]; rewrite Hl; simpl.
    + destruct (IH (mx ++ [(x + Label.width l / 2)%Q], mn ++ [(x - Label.width l / 2)%Q]))
        as [[Hall Hr]|[(kv & Hkv & Hbad) Hr]].
      * left. split; [|done]. intros kv [->|Hkv]%elem_of_cons; eauto.
      * right. split; [|done]. exists kv. split; [by right|done].
    + right. split; [|done]. exists (v, x). split; [left|done].
Qed.

Lemma alignmentWidth_cases (g : Graph) (xs : Obj Q) :
  ((∀ kv, kv ∈ xs → ∃ l, node g kv.1 = Ok l)
   ∧ ∃ o, alignmentWidth g xs = Ok o ∧ (o = None ↔ xs = []))
  ∨ ((∃ kv, kv ∈ xs ∧ node g kv.1 = Throw TypeError)
     ∧ alignmentWidth g xs = Throw TypeError).
Proof.
  unfold alignmentWidth.
  destruct (widthFold_cases g xs ([], [])) as [[Hall [[mx mn] Hr]]|[Hbad Hr]];
    rewrite Hr; simpl; [left|by right].
  split; [done|]. eexists. split; [reflexivity|].
  apply widthFold_spec in Hr as (ts & Hts & _ & H1 & H2). simpl in H1, H2.
  subst mx mn xs. destruct ts as [|t ts]; simpl; [done|].
  destruct (listMax_is_Some ((t.1.2 + t.2 / 2)%Q
                             :: map (fun t => (t.1.2 + t.2 / 2)%Q) ts)) as [hi Hhi];
    [done|].
  destruct (listMin_is_Some ((t.1.2 - t.2 / 2)%Q
                             :: map (fun t => (t.1.2 - t.2 / 2)%Q) ts)) as [lo Hlo];
    [done|].
  rewrite Hhi, Hlo. done.
Qed.

(** What [_.minBy] has to say about a list whose iteratee returns or raises
    a TypeError. *)
Definition minByResult {A} (f : A → res (option Q)) (l : list A)
    (best : option (Q * A)) (r : res (option A)) : Prop :=
  match r with
  | Ok None => best = None ∧ ∀ a, a ∈ l → f a = Ok None
  | Ok (Some e) =>
      ((∃ c, best = Some (c, e)) ∨ (e ∈ l ∧ ∃ c, f e = Ok (Some c)))
      ∧ ∀ a, a ∈ l → ∃ o, f a = Ok o
  | Throw err => err = TypeError ∧ ∃ a, a ∈ l ∧ f a = Throw TypeError
  end.

Lemma minByFrom_result {A} (f : A → res (option Q)) (l : list A) :
  (∀ a, a ∈ l → (∃ o, f a = Ok o) ∨ f a = Throw TypeError) →
  ∀ best, minByResult f l best (minByFrom f l best).
Proof.
  induction l as [|a l IH]; intros Hf best; simpl.
  - destruct best as [[c e]|]; simpl.
    + split; [eauto|]. by intros a Ha%elem_of_nil.
    + split; [done|]. by intros a Ha%elem_of_nil.
  - assert (Hf' : ∀ a', a' ∈ l → (∃ o, f a' = Ok o) ∨ f a' = Throw TypeError).
    { intros a' Ha'. apply Hf. by right. }
    destruct (Hf a ltac:(left)) as [[o Ho]|Ho]; rewrite Ho; simpl.
    2:{ split; [done|]. exists a. split; [left|done]. }
    assert (Hstep : ∀ best',
              (best' = best ∧ (o = None ∨ is_Some best)) ∨ (∃ c, o = Some c ∧ best' = Some (c, a)) →
              minByResult f l best' (minByFrom f l best') →
              minByResult f (a :: l) best (minByFrom f l best')).
    { intros best' Hb' Hres. destruct (minByFrom f l best') as [[e|]|err]; simpl in *.
      - destruct Hres as [Hsrc Hall]. split.
        + destruct Hsrc as [[c Hc]|[He Hc]].
          * destruct Hb' as [[-> _]|(c' & -> & ->)]; [left; eauto|].
            injection Hc as _ <-. right. split; [left|eauto].
          * right. split; [by right|done].
        + intros a' [->|Ha']%elem_of_cons; eauto.
      - destruct Hres as [Hnone Hall].
        destruct Hb' as [[-> Ho']|(c' & -> & ->)]; [|done].
        split; [done|]. intros a' [->|Ha']%elem_of_cons; [|by apply Hall].
        destruct Ho' as [->|[? ?]]; [done|congruence].
      - destruct Hres as [-> (a' & Ha' & Hbad)]. split; [done|].
        exists a'. split; [by right|done]. }
    destruct o as [c|]; [destruct best as [[computed e]|]|].
    + destruct (Qle_bool computed c).
      * apply Hstep; [left; split; [done|right; eauto]|by apply IH].
      * apply Hstep; [right; eauto|by apply IH].
    + apply Hstep; [right; eauto|by apply IH].
    + apply Hstep; [left; split; [done|by left]|by apply IH].
Qed.

(** X18: [findSmallestWidthAlignment] returns [undefined] exactly when
    every map is empty (or there is none), never returns an empty map, and
    raises a TypeError exactly when some map has a vertex that is not a
    labelled node of the graph. *)
Theorem findSmallestWidthAlignment_cases :
  ∀ (g : Graph) (xss : Obj (Obj Q)),
    match findSmallestWidthAlignment g xss with
    | Ok None => ∀ e, e ∈ xss → e.2 = []
    | Ok (Some e) =>
        e ∈ xss ∧ e.2 ≠ []
        ∧ ∀ e' kv, e' ∈ xss → kv ∈ e'.2 → ∃ l, node g kv.1 = Ok l
    | Throw err =>
        err = TypeError
        ∧ ∃ e kv, e ∈ xss ∧ kv ∈ e.2 ∧ node g kv.1 = Throw TypeError
    end.
Proof.
  intros g xss. unfold findSmallestWidthAlignment.
  pose proof (minByFrom_result (fun kv : string * Obj Q => alignmentWidth g kv.2) xss) as H.
  specialize (H (fun a _ => match alignmentWidth_cases g a.2 with
                            | or_introl (conj _ (ex_intro _ o (conj Ho _))) =>
                                or_introl (ex_intro _ o Ho)
                            | or_intror (conj _ Hr) => or_intror Hr
                            end) None).
  destruct (minByFrom _ xss None) as [[e|]|err]; simpl in H; cbv beta in H.
  - destruct H as [[[c Hc]|[He [c Hc]]] Hall]; [done|].
    split; [done|]. split.
    + intros Hempty.
      destruct (alignmentWidth_cases g e.2) as [[_ (o & Ho & Hiff)]|[_ Hr]].
      * pose proof (eq_trans (eq_sym Ho) Hc) as Heq. injection Heq as ->.
        by apply Hiff in Hempty.
      * pose proof (eq_trans (eq_sym Hr) Hc) as Heq. discriminate.
    + intros e' kv He' Hkv. destruct (Hall e' He') as [o Ho].
      destruct (alignmentWidth_cases g e'.2) as [[Hl _]|[_ Hr]]; [by apply Hl|].
      pose proof (eq_trans (eq_sym Hr) Ho) as Heq. discriminate.
  - destruct H as [_ Hall]. intros e He.
    destruct (alignmentWidth_cases g e.2) as [[_ (o & Ho & Hiff)]|[_ Hr]].
    + apply Hiff. pose proof (eq_trans (eq_sym Ho) (Hall e He)) as Heq.
      by injection Heq as ->.
    + pose proof (eq_trans (eq_sym Hr) (Hall e He)) as Heq. discriminate.
  - destruct H as [-> (e & He & Hbad)]. split; [done|].
    destruct (alignmentWidth_cases g e.2) as [[_ (o & Ho & _)]|[(kv & Hkv & Hn) _]].
    + pose proof (eq_trans (eq_sym Ho) Hbad) as Heq. discriminate.
    + by exists e, kv.
Qed.

(** ** [positionX] with the alignment [UL] *)










(** ** Sorting keeps a distance *)

Local Instance Qle_decision (x y : Q) : Decision (x <= y)%Q.
Proof.
  destruct (Qlt_le_dec y x) as [H|H]; [right|left; exact H].
  intros H'. apply (Qlt_not_le _ _ H H').
Defined.










(** ** The four alignments of [positionX] *)















Section Orientation.
Variables (g : nat) (G : Graph) (gl : GraphLabel) (L : list (list string)).
Hypothesis Hgl : graph G = Ok gl.
Hypothesis Hnodup : NoDup (concat L).
Hypothesis Hempty : "" ∉ concat L.


End Orientation.










